(** * BotKit text trees: rendering, tag extraction and cached objects

    A shallow embedding of [packages/botkit/src/text.ts].

    JavaScript strings are modelled as [string]; a character stands for one
    UTF-16 code unit in the range U+0000..U+00FF.  The private fields of
    mention and markdown nodes live in a heap; async generators are finite
    resumable programs over that heap (type [Gen]).  A generator is either
    run alone to its end ([run]), or several of them are interleaved by a
    machine in which promises stay pending until the environment settles
    them ([exec]).  The URL parser and the markdown parser are parameters
    ([Platform]). *)

From Stdlib Require Import Ascii String List Arith Lia Bool.
From Equations Require Import Equations.
From Equations.Prop Require Import Logic.
From stdpp Require Import base list strings.


(** ** JavaScript string primitives used by the text module *)

Module Js.

(** One character as a string. *)
Definition str1 (c : ascii) : string := String c EmptyString.

(** The double quote character (code unit 34). *)
Definition dq : string := str1 (ascii_of_nat 34).

Definition LF : ascii := ascii_of_nat 10.
Definition CR : ascii := ascii_of_nat 13.
Definition TAB : ascii := ascii_of_nat 9.
Definition SP : ascii := ascii_of_nat 32.

(** [WhiteSpace] and [LineTerminator] code units below U+0100: the set that
    [String.prototype.trim] strips and that the regular expression class
    [\s] matches. *)
Definition is_ws (c : ascii) : bool :=
  let n := nat_of_ascii c in
  (n =? 9) || (n =? 10) || (n =? 11) || (n =? 12) || (n =? 13) || (n =? 32)
  || (n =? 160).

(** [[ \t]] *)
Definition is_hws (c : ascii) : bool := Ascii.eqb c SP || Ascii.eqb c TAB.

Definition is_empty (s : string) : bool :=
  match s with EmptyString => true | String _ _ => false end.

(** [s.trimStart()] *)
Fixpoint trimStart (s : string) : string :=
  match s with
  | EmptyString => EmptyString
  | String c r => if is_ws c then trimStart r else s
  end.

(** [s.trimEnd()] *)
Fixpoint trimEnd (s : string) : string :=
  match s with
  | EmptyString => EmptyString
  | String c r =>
      let r' := trimEnd r in
      if is_empty r' && is_ws c then EmptyString else String c r'
  end.

(** [s.trim()] *)
Definition trim (s : string) : string := trimEnd (trimStart s).

(** [s.split(LF)]: never empty, the pieces between line feeds. *)
Fixpoint split_lf (s : string) : list string :=
  match s with
  | EmptyString => [EmptyString]
  | String c r =>
      if Ascii.eqb c LF then EmptyString :: split_lf r
      else match split_lf r with
           | h :: t => String c h :: t
           | [] => [str1 c]
           end
  end.

(** [s.startsWith(pat)] *)
Fixpoint starts_with (pat s : string) : bool :=
  match pat, s with
  | EmptyString, _ => true
  | String a pat', String b s' => Ascii.eqb a b && starts_with pat' s'
  | String _ _, EmptyString => false
  end.

(** [s.startsWith] of an at sign. *)
Definition startsWith_at (s : string) : bool :=
  match s with String c _ => Ascii.eqb c "@"%char | EmptyString => false end.

(** [s.substring(1)] *)
Definition substring1 (s : string) : string :=
  match s with String _ r => r | EmptyString => EmptyString end.

(** [s.replace(/^#/, empty)]: drops one leading hash sign. *)
Definition strip_hash (s : string) : string :=
  match s with
  | String c r => if Ascii.eqb c "#"%char then r else s
  | EmptyString => EmptyString
  end.

(** [s.replace(/\s+/g, SP)]: every maximal run of white space becomes one
    space. *)
Fixpoint collapse_ws (s : string) : string :=
  match s with
  | EmptyString => EmptyString
  | String c r =>
      if is_ws c then
        match r with
        | String c' _ => if is_ws c' then collapse_ws r
                         else String SP (collapse_ws r)
        | EmptyString => str1 SP
        end
      else String c (collapse_ws r)
  end.

(** [s.toLowerCase()] on code units below U+0100: A-Z and the Latin-1
    capitals U+00C0..U+00DE (except the multiplication sign U+00D7) move up
    by 32. *)
Definition lower_char (c : ascii) : ascii :=
  let n := nat_of_ascii c in
  if ((65 <=? n) && (n <=? 90))
     || ((192 <=? n) && (n <=? 222) && negb (n =? 215))
  then ascii_of_nat (n + 32) else c.

Fixpoint toLowerCase (s : string) : string :=
  match s with
  | EmptyString => EmptyString
  | String c r => String (lower_char c) (toLowerCase r)
  end.

Definition hex_digit (n : nat) : ascii :=
  if n <? 10 then ascii_of_nat (48 + n) else ascii_of_nat (55 + n).

(** [%XX], upper-case hexadecimal. *)
Definition pct (n : nat) : string :=
  String "%"%char (String (hex_digit (n / 16)) (str1 (hex_digit (n mod 16)))).

(** Characters [encodeURIComponent] leaves alone: letters, digits and
    the nine marks - _ . ! ~ * ( ) and the apostrophe. *)
Definition uri_unreserved (c : ascii) : bool :=
  let n := nat_of_ascii c in
  ((65 <=? n) && (n <=? 90)) || ((97 <=? n) && (n <=? 122))
  || ((48 <=? n) && (n <=? 57))
  || existsb (Nat.eqb n) [45; 95; 46; 33; 126; 42; 39; 40; 41].

(** [encodeURIComponent(s)]: the UTF-8 bytes of every other code unit are
    percent-encoded (one byte below U+0080, two bytes up to U+00FF).  The
    function of the source throws a URIError on a lone surrogate; no string
    of this development holds one, so what is proved with this function
    speaks of strings of code units below U+0100 only. *)
Definition encodeURI_char (c : ascii) : string :=
  let n := nat_of_ascii c in
  if uri_unreserved c then str1 c
  else if n <? 128 then pct n
  else pct (192 + n / 64) +:+ pct (128 + n mod 64).

Fixpoint encodeURIComponent (s : string) : string :=
  match s with
  | EmptyString => EmptyString
  | String c r => encodeURI_char c +:+ encodeURIComponent r
  end.

(** [encode] of the html-entities package with its default options
    (mode [specialChars]): the five characters less-than, greater-than, double
    quote, apostrophe and ampersand become named references, everything else is kept. *)
Definition encode_char (c : ascii) : string :=
  let n := nat_of_ascii c in
  if n =? 60 then "&lt;"
  else if n =? 62 then "&gt;"
  else if n =? 34 then "&quot;"
  else if n =? 39 then "&apos;"
  else if n =? 38 then "&amp;"
  else str1 c.

Fixpoint encode (s : string) : string :=
  match s with
  | EmptyString => EmptyString
  | String c r => encode_char c +:+ encode r
  end.

(** *** Splitting on blank-line boundaries: [s.split(/([ \t]*\r?\n){2,}/g)] *)

(** One iteration of the group [([ \t]*\r?\n)] at the start of [s]: the text
    it matches and what follows.  The star is greedy, and giving back a
    space or tab cannot help since neither starts [\r?\n]. *)
Fixpoint line_end (s : string) : option (string * string) :=
  match s with
  | EmptyString => None
  | String c r =>
      if is_hws c then
        match line_end r with
        | Some (m, rest) => Some (String c m, rest)
        | None => None
        end
      else if Ascii.eqb c LF then Some (str1 LF, r)
      else if Ascii.eqb c CR then
        match r with
        | String c' r' =>
            if Ascii.eqb c' LF then Some (String CR (str1 LF), r') else None
        | EmptyString => None
        end
      else None
  end.

Lemma line_end_shorter s m rest :
  line_end s = Some (m, rest) -> String.length rest < String.length s.
Proof.
  revert m rest. induction s as [|c r IH]; intros m rest; simpl; [done|].
  destruct (is_hws c).
  - destruct (line_end r) as [[m' rest']|] eqn:E; [|done].
    intros [= <- <-]. specialize (IH _ _ eq_refl). lia.
  - destruct (Ascii.eqb c LF); [intros [= <- <-]; lia|].
    destruct (Ascii.eqb c CR); [|done].
    destruct r as [|c' r']; [done|].
    destruct (Ascii.eqb c' LF); [|done]. intros [= <- <-]. simpl. lia.
Defined.

(** As many further iterations as match, greedily: the last one matched (the
    group's capture) and the rest. *)
Equations line_ends (last : string) (s : string) : string * string
  by wf (String.length s) lt :=
line_ends last s with inspect (line_end s) := {
  | exist _ (Some (pair m rest)) E => line_ends m rest;
  | exist _ None _ => (last, s) }.
Next Obligation. intros. eapply line_end_shorter; eassumption. Defined.

(** A match of [([ \t]*\r?\n){2,}] at the start of [s]: the capture (the
    last iteration) and the rest of the string. *)
Definition match_sep (s : string) : option (string * string) :=
  match line_end s with
  | Some (_, r1) =>
      match line_end r1 with
      | Some (m2, r2) => Some (line_ends m2 r2)
      | None => None
      end
  | None => None
  end.

Lemma line_ends_no_longer last s :
  String.length (line_ends last s).2 <= String.length s.
Proof.
  funelim (line_ends last s); simpl; [|lia].
  pose proof (line_end_shorter _ _ _ E). lia.
Defined.

Lemma match_sep_shorter s cap rest :
  match_sep s = Some (cap, rest) -> String.length rest < String.length s.
Proof.
  unfold match_sep.
  destruct (line_end s) as [[m1 r1]|] eqn:E1; [|done].
  destruct (line_end r1) as [[m2 r2]|] eqn:E2; [|done].
  intros [= H]. pose proof (line_ends_no_longer m2 r2) as Hle.
  rewrite H in Hle. simpl in Hle.
  apply line_end_shorter in E1, E2. lia.
Defined.

(** [s.split(/([ \t]*\r?\n){2,}/g)] with [cur] the text since the last
    separator: scanning left to right, the first position where the
    expression matches ends the current piece, the capture is spliced into the
    result after it (as [split] does for a capturing group), and the scan
    resumes behind the match. *)
Equations split_blank (cur : string) (s : string) : list string
  by wf (String.length s) lt :=
split_blank cur EmptyString := [cur];
split_blank cur (String c r) with inspect (match_sep (String c r)) := {
  | exist _ (Some (pair cap rest)) E =>
      cur :: cap :: split_blank EmptyString rest;
  | exist _ None _ => split_blank (cur +:+ str1 c) r }.
Next Obligation. intros. eapply match_sep_shorter; eassumption. Defined.
Next Obligation. intros. simpl. lia. Defined.

Definition split_paragraphs (s : string) : list string :=
  split_blank EmptyString s.

End Js.

(** ** Vocabulary objects and the session *)

(** Outcome of an operation that may throw (or of a promise that may
    reject). *)
Inductive res (A : Type) : Type :=
| Val (a : A)
| Exn.
Arguments Val {A} a.
Arguments Exn {A}.

(** What calling a deferred resolver does: it returns a promise, given by
    what the promise settles to, or it throws before it has returned one. *)
Inductive Call (A : Type) : Type :=
| Returns (outcome : res A)
| Throws.
Arguments Returns {A} outcome.
Arguments Throws {A}.

(** An [async] function (or one that hands on the promise of an [async]
    function): whatever goes wrong, it returns a promise. *)
Definition async {S A} (f : S -> res A) : S -> Call A :=
  fun s => Returns (f s).

(** A parsed URL, known by its serialisation [href]. *)
Record URL := mkURL { href : string }.

(** A vocabulary [Link]; its [href] may be absent. *)
Record Link := mkLink { link_href : option URL }.

(** The [url] property of an actor is a URL or a [Link]. *)
Inductive ActorUrl :=
| UrlOfURL (u : URL)
| UrlOfLink (l : Link).

Record Actor := mkActor {
  actor_id : option URL;
  actor_url : option ActorUrl }.

(** A vocabulary object: an actor (Application, Group, Organization, Person,
    Service) or anything else. *)
Inductive Object :=
| ActorObject (a : Actor)
| OtherObject (id : option URL).

(** [isActor(o)], returning the actor it narrows to. *)
Definition isActor (o : option Object) : option Actor :=
  match o with
  | Some (ActorObject a) => Some a
  | _ => None
  end.

(** A custom emoji; [emoji_name] is [name.toString()] when a name is set. *)
Record Emoji := mkEmoji { emoji_name : option string }.

(** What [getTags] yields. *)
Inductive Tag :=
| Mention (name : string) (mention_href : option URL)
| Hashtag (name : string) (hashtag_href : URL)
| EmojiTag (e : Emoji).

(** The part of a bot session the text module touches.  Lookups are given by
    what they eventually produce. *)
Record Session := mkSession {
  origin : string;                                (* session.context.origin *)
  actorId : URL;
  actorHandle : string;
  getActor : res Actor;                           (* session.getActor() *)
  getDocumentLoader : res unit;   (* context.getDocumentLoader(session.bot) *)
  lookupObject : string -> res (option Object);
                      (* context.lookupObject(handle or URL, { documentLoader }) *)
  getActorHandle : Actor + URL -> res string }.
                      (* getActorHandle(actor or URL, session.context) *)

(** *** External collaborators *)

(** The scratch record handed to the parser. *)
Record MarkdownEnv := mkEnv {
  env_mentions : list string;
  env_hashtags : list string;
  env_origin : string;
  env_actors : option (list (string * string)) }.

(** A configured markdown-it instance: the [linkify] option and which of
    the two inline plugins were registered on it (the plugins always get the
    hooks written in the constructor of [MarkdownText]). *)
Record MarkdownIt := mkMd {
  linkify : bool;
  mentionPlugin : bool;
  hashtagPlugin : bool }.

(** Library code the module calls: the URL parser and the markdown
    parser. *)
Class Platform := {
  (** [new URL(s)], [None] when it throws: [s] is not an absolute URL. *)
  URL_parse : string -> option URL;
  (** [new URL(path, base)] *)
  URL_resolve : string -> string -> option URL;
  (** [md.render(content, env)]: the HTML and the scratch record as the
      plugins left it; [None] for a call without scratch record. *)
  md_render : MarkdownIt -> string -> option MarkdownEnv
              -> res (string * MarkdownEnv) }.

(** ** Node objects and the heap *)

(** A promise made by a deferred resolver: what it settles to, whether it
    has settled, and for an actor promise the node whose [then] callback
    caches the actor. *)
Record Promise (A : Type) := mkPromise {
  p_outcome : res A;
  p_settled : bool;
  p_owner : nat }.
Arguments mkPromise {A}.
Arguments p_outcome {A}.
Arguments p_settled {A}.
Arguments p_owner {A}.

(** The private fields of a [MentionText]; a stored promise is an index
    into the heap's table of promises.  The last two fields are not in the
    source: they count the calls of [this.#label] and of [this.#actor] that
    threw instead of returning a promise (the calls that returned one are
    counted by the promises in the tables). *)
Record MentionCell := mkMention {
  m_label : string + (Session -> Call string);
  m_actor : Actor + (Session -> Call (option Object));
  m_cachedObject : option Object;
  m_labelPromise : option nat;
  m_actorPromise : option nat;
  m_labelThrows : nat;
  m_actorThrows : nat }.

(** The private fields of a [MarkdownText]; [md_actors] is the
    [Record<string, Object>] as an insertion-ordered association list
    (handles contain an at sign, so no key is an array index). *)
Record MarkdownCell := mkMarkdown {
  md_content : string;
  md_markdownIt : MarkdownIt;
  md_mentions : option (list string);
  md_hashtags : option (list string);
  md_actors : option (list (string * Object)) }.

Record Heap := mkHeap {
  mentionCells : list MentionCell;
  markdownCells : list MarkdownCell;
  labelPromises : list (Promise string);
  actorPromises : list (Promise (option Object)) }.

Definition empty_heap : Heap := mkHeap [] [] [] [].

Definition set_mention (r : nat) (c : MentionCell) (h : Heap) : Heap :=
  mkHeap (<[r := c]> (mentionCells h)) (markdownCells h)
         (labelPromises h) (actorPromises h).

Definition set_markdown (r : nat) (c : MarkdownCell) (h : Heap) : Heap :=
  mkHeap (mentionCells h) (<[r := c]> (markdownCells h))
         (labelPromises h) (actorPromises h).

(** ** Async generators *)

(** What an expression under [await] evaluates to: a value already at hand
    (as after [Promise.resolve]), a stored promise, or no value at all
    because evaluating it threw. *)
Inductive Awaitable (A : Type) : Type :=
| Now (v : res A)
| Later (p : nat)
| Thrown.
Arguments Now {A} v.
Arguments Later {A} p.
Arguments Thrown {A}.

(** A suspended async generator yielding values of type [Y]: it has
    returned, thrown, is about to yield, is ready to run a synchronous
    stretch of code against the heap ([step] is what the stretch does to the
    heap, [next] how the generator goes on, given the heap the stretch
    started from), or waits for a promise of a label or of an actor. *)
Inductive Gen (Y : Type) : Type :=
| Return
| Raise
| Yield (y : Y) (k : Gen Y)
| Effect (step : Heap -> Heap) (next : Heap -> Gen Y)
| AwaitLabel (p : nat) (k : res string -> Gen Y)
| AwaitActor (p : nat) (k : res (option Object) -> Gen Y).
Arguments Return {Y}.
Arguments Raise {Y}.
Arguments Yield {Y} y k.
Arguments Effect {Y} step next.
Arguments AwaitLabel {Y} p k.
Arguments AwaitActor {Y} p k.

(** Run [f] against the heap and go on with its result. *)
Definition act {Y A} (f : Heap -> Heap * A) (k : A -> Gen Y) : Gen Y :=
  Effect (fun h => (f h).1) (fun h => k (f h).2).

(** [await a], then go on with the outcome; when evaluating the operand
    threw, the generator throws on the spot. *)
Definition awaitLabel {Y} (a : Awaitable string) (k : res string -> Gen Y)
  : Gen Y :=
  match a with
  | Now v => Effect id (fun _ => k v)
  | Later p => AwaitLabel p k
  | Thrown => Raise
  end.

Definition awaitActor {Y} (a : Awaitable (option Object))
    (k : res (option Object) -> Gen Y) : Gen Y :=
  match a with
  | Now v => Effect id (fun _ => k v)
  | Later p => AwaitActor p k
  | Thrown => Raise
  end.

(** [yield] each of [ys], then go on as [k]. *)
Fixpoint yields {Y} (ys : list Y) (k : Gen Y) : Gen Y :=
  match ys with
  | [] => k
  | y :: ys' => Yield y (yields ys' k)
  end.

(** [yield* g] followed by [k]; an exception in [g] skips [k]. *)
Fixpoint andThen {Y} (g : Gen Y) (k : Gen Y) : Gen Y :=
  match g with
  | Return => k
  | Raise => Raise
  | Yield y g' => Yield y (andThen g' k)
  | Effect f c => Effect f (fun h => andThen (c h) k)
  | AwaitLabel p c => AwaitLabel p (fun v => andThen (c v) k)
  | AwaitActor p c => AwaitActor p (fun v => andThen (c v) k)
  end.

(** A scheduling point with nothing to do: the generator resumes in a later
    turn of the event loop. *)
Definition suspend {Y} (g : Gen Y) : Gen Y := Effect id (fun _ => g).

(** *** Promises settling *)

Definition mark_settled {A} (pr : Promise A) : Promise A :=
  mkPromise (p_outcome pr) true (p_owner pr).

(** The environment settles label promise [p]. *)
Definition settle_label (p : nat) (h : Heap) : Heap :=
  match labelPromises h !! p with
  | Some pr =>
      mkHeap (mentionCells h) (markdownCells h)
             (<[p := mark_settled pr]> (labelPromises h)) (actorPromises h)
  | None => h
  end.

(** The [then] callback of [#getActor]:
    [if (actor != null) this.#cachedObject = actor]. *)
Definition cache_actor (owner : nat) (v : res (option Object)) (h : Heap)
  : Heap :=
  match v, mentionCells h !! owner with
  | Val (Some obj), Some c =>
      set_mention owner
        (mkMention (m_label c) (m_actor c) (Some obj) (m_labelPromise c)
                   (m_actorPromise c) (m_labelThrows c) (m_actorThrows c)) h
  | _, _ => h
  end.

(** The environment settles actor promise [p]; on fulfilment the callback
    runs right away. *)
Definition settle_actor (p : nat) (h : Heap) : Heap :=
  match actorPromises h !! p with
  | Some pr =>
      if p_settled pr then h
      else
        cache_actor (p_owner pr) (p_outcome pr)
          (mkHeap (mentionCells h) (markdownCells h) (labelPromises h)
                  (<[p := mark_settled pr]> (actorPromises h)))
  | None => h
  end.

(** *** Running one generator to its end

    [for await (const y of g)] with nothing else going on: every promise the
    generator waits for is settled by the environment when it is awaited.
    The result is the final heap, the values yielded, and whether the
    generator returned ([Val tt]) or threw. *)
Fixpoint run {Y} (g : Gen Y) (h : Heap) : Heap * (list Y * res unit) :=
  match g with
  | Return => (h, ([], Val tt))
  | Raise => (h, ([], Exn))
  | Yield y k => let r := run k h in (r.1, (y :: r.2.1, r.2.2))
  | Effect f k => run (k h) (f h)
  | AwaitLabel p k =>
      let h1 := settle_label p h in
      match labelPromises h1 !! p with
      | Some pr => run (k (p_outcome pr)) h1
      | None => (h, ([], Exn))
      end
  | AwaitActor p k =>
      let h1 := settle_actor p h in
      match actorPromises h1 !! p with
      | Some pr => run (k (p_outcome pr)) h1
      | None => (h, ([], Exn))
      end
  end.

(** ** The text tree *)

(** [Text<"inline", _>] *)
Inductive Inline :=
| PlainText (text : string)
| MentionText (ref : nat)                (* its fields live in the heap *)
| HashtagText (tag : string)
| StrongText (text : Inline)
| EmText (text : Inline)
| LinkText (label : Inline) (link_target : URL)
| CodeText (code : Inline)
| CustomEmojiText (emoji : Emoji + (Session -> res Emoji)).

(** [Text<"block" | "inline", _>] *)
Inductive Text :=
| InlineNode (t : Inline)
| TemplatedText (strings : list string) (values : list Text)
| MarkdownText (ref : nat).              (* its fields live in the heap *)

Inductive TextType := block | inline.

(** The [type] property. *)
Definition type_of (t : Text) : TextType :=
  match t with
  | InlineNode _ => inline
  | TemplatedText _ _ => block
  | MarkdownText _ => block
  end.

Section TextTree.
Context {platform : Platform}.

(** *** PlainText *)

(** The lines of [PlainText.getHtml] after the first. *)
Fixpoint plain_more (lines : list string) : list string :=
  match lines with
  | [] => []
  | line :: rest => "<br>" :: Js.encode line :: plain_more rest
  end.

Definition plain_html (text : string) : list string :=
  match Js.split_lf text with
  | [] => []
  | line :: rest => Js.encode line :: plain_more rest
  end.

(** *** MentionText *)

(** [new MentionText(label, actor)] *)
Definition new_MentionText (label : string + (Session -> Call string))
    (actor : Actor + (Session -> Call (option Object))) (h : Heap)
  : Heap * Inline :=
  let cached := match actor with
                | inl a => Some (ActorObject a)
                | inr _ => None
                end in
  (mkHeap (mentionCells h ++ [mkMention label actor cached None None 0 0])
          (markdownCells h) (labelPromises h) (actorPromises h),
   MentionText (length (mentionCells h))).

(** [this.#getLabel(session)]: a literal label is wrapped in a resolved
    promise, a stored promise is returned, and otherwise the resolver is
    called; the assignment to [#labelPromise] happens only when the call has
    returned, so a resolver that throws leaves the slot empty. *)
Definition getLabel (s : Session) (r : nat) (h : Heap)
  : Heap * Awaitable string :=
  match mentionCells h !! r with
  | None => (h, Thrown)
  | Some c =>
      match m_label c with
      | inl l => (h, Now (Val l))
      | inr resolver =>
          match m_labelPromise c with
          | Some p => (h, Later p)
          | None =>
              match resolver s with
              | Returns outcome =>
                  let p := length (labelPromises h) in
                  (set_mention r
                     (mkMention (m_label c) (m_actor c) (m_cachedObject c)
                        (Some p) (m_actorPromise c)
                        (m_labelThrows c) (m_actorThrows c))
                     (mkHeap (mentionCells h) (markdownCells h)
                        (labelPromises h ++ [mkPromise outcome false r])
                        (actorPromises h)),
                   Later p)
              | Throws =>
                  (set_mention r
                     (mkMention (m_label c) (m_actor c) (m_cachedObject c)
                        None (m_actorPromise c)
                        (S (m_labelThrows c)) (m_actorThrows c)) h,
                   Thrown)
              end
          end
      end
  end.

(** [this.#getActor(session)] (the underscore keeps it apart from the
    session's [getActor]); the promise stored is the one [then] returns, so
    settling it includes the callback.  As in [#getLabel], a resolver that
    throws leaves the slot empty. *)
Definition getActor_ (s : Session) (r : nat) (h : Heap)
  : Heap * Awaitable (option Object) :=
  match mentionCells h !! r with
  | None => (h, Thrown)
  | Some c =>
      match m_actor c with
      | inl a => (h, Now (Val (Some (ActorObject a))))
      | inr resolver =>
          match m_actorPromise c with
          | Some p => (h, Later p)
          | None =>
              match resolver s with
              | Returns outcome =>
                  let p := length (actorPromises h) in
                  (set_mention r
                     (mkMention (m_label c) (m_actor c) (m_cachedObject c)
                        (m_labelPromise c) (Some p)
                        (m_labelThrows c) (m_actorThrows c))
                     (mkHeap (mentionCells h) (markdownCells h)
                        (labelPromises h)
                        (actorPromises h ++ [mkPromise outcome false r])),
                   Later p)
              | Throws =>
                  (set_mention r
                     (mkMention (m_label c) (m_actor c) (m_cachedObject c)
                        (m_labelPromise c) None
                        (m_labelThrows c) (S (m_actorThrows c))) h,
                   Thrown)
              end
          end
      end
  end.

(** The link target [MentionText.getHtml] computes from the resolved
    object. *)
Definition mention_url (actor : option Object) : option URL :=
  match isActor actor with
  | None => None
  | Some a =>
      match actor_url a with
      | None => actor_id a
      | Some (UrlOfLink l) => link_href l
      | Some (UrlOfURL u) => Some u
      end
  end.

(** [s] between double quotes. *)
Definition quoted (s : string) : string := Js.dq +:+ s +:+ Js.dq.

Definition mention_attrs : string :=
  Js.dq +:+ " translate=" +:+ quoted "no" +:+ " class="
  +:+ quoted "h-card u-url mention" +:+ " target=" +:+ quoted "_blank"
  +:+ ">".

(** What [MentionText.getHtml] yields once label and actor are known. *)
Definition mention_html (label : string) (actor : option Object)
  : list string :=
  match mention_url actor with
  | None => [Js.encode label]
  | Some url =>
      ["<a href=" +:+ Js.dq; Js.encode (href url); mention_attrs]
      ++ (if Js.startsWith_at label
          then ["@<span>"; Js.encode (Js.substring1 label); "</span>"]
          else [Js.encode label])
      ++ ["</a>"]
  end.

(** What [MentionText.getTags] yields once label and actor are known. *)
Definition mention_tags (label : string) (actor : option Object) : list Tag :=
  match isActor actor with
  | Some a => [Mention label (actor_id a)]
  | None => []
  end.

(** The common shape of [MentionText.getHtml] and [MentionText.getTags]:
    await the label, await the actor, then yield. *)
Definition mention_gen {Y} (s : Session) (r : nat)
    (out : string -> option Object -> list Y) : Gen Y :=
  act (getLabel s r) (fun a =>
  awaitLabel a (fun v =>
  match v with
  | Exn => Raise
  | Val label =>
      act (getActor_ s r) (fun a =>
      awaitActor a (fun v =>
      match v with
      | Exn => Raise
      | Val actor => yields (out label actor) Return
      end))
  end)).

(** [MentionText.getCachedObjects()] *)
Definition mention_cached (r : nat) (h : Heap) : list Object :=
  match mentionCells h !! r with
  | Some c => match m_cachedObject c with Some o => [o] | None => [] end
  | None => []
  end.

(** *** HashtagText *)

(** The constructor's normalisation of the tag. *)
Definition normalize_tag (tag : string) : string :=
  Js.collapse_ws (Js.trim (Js.strip_hash (Js.trimStart tag))).

(** [new HashtagText(tag)] *)
Definition new_HashtagText (tag : string) : Inline :=
  HashtagText (normalize_tag tag).

Definition hashtag_attrs : string :=
  Js.dq +:+ " class=" +:+ quoted "mention hashtag" +:+ " rel="
  +:+ quoted "tag" +:+ " target=" +:+ quoted "_blank" +:+ ">#<span>".

(** [HashtagText.getHtml]; [tag] is the stored field. *)
Definition hashtag_html (s : Session) (tag : string) : list string :=
  ["<a href=" +:+ Js.dq;
   Js.encode (origin s);
   "/tags/";
   Js.encode (Js.encodeURIComponent (Js.toLowerCase tag));
   hashtag_attrs;
   tag;
   "</span></a>"].

(** The tag object for the lower-case name [tag]; building the URL throws
    when the origin is no base URL. *)
Definition hashtag_object (s : Session) (tag : string) : res Tag :=
  match URL_resolve ("/tags/" +:+ Js.encodeURIComponent tag) (origin s) with
  | Some u => Val (Hashtag ("#" +:+ tag) u)
  | None => Exn
  end.

(** [HashtagText.getTags] *)
Definition hashtag_tags (s : Session) (tag : string) : Gen Tag :=
  Effect id (fun _ =>
    match hashtag_object s (Js.toLowerCase tag) with
    | Val t => Yield t Return
    | Exn => Raise
    end).

(** *** LinkText *)

(** [new LinkText(label, href)]: a string label becomes a [PlainText], a
    string target is parsed and the constructor throws when that fails. *)
Definition new_LinkText (label : Inline + string) (target : URL + string)
  : res Inline :=
  let label' := match label with inl t => t | inr s => PlainText s end in
  match target with
  | inl u => Val (LinkText label' u)
  | inr s =>
      match URL_parse s with
      | Some u => Val (LinkText label' u)
      | None => Exn
      end
  end.

(** [link(label, href)] *)
Definition link (label : Inline + string) (target : URL + string)
  : res Inline :=
  new_LinkText label target.

(** [link(url)]: the label is [String(url)]. *)
Definition link_url (url : URL + string) : res Inline :=
  new_LinkText (inr (match url with inl u => href u | inr s => s end)) url.

(** *** CustomEmojiText *)

(** [getEmoji(session)] *)
Definition getEmoji (emoji : Emoji + (Session -> res Emoji)) (s : Session)
  : res Emoji :=
  match emoji with
  | inl e => Val e
  | inr deferred => deferred s
  end.

(** U+200B lies outside the modelled range of code units; it is written as
    its three UTF-8 bytes. *)
Definition ZWSP : string :=
  String (ascii_of_nat 226) (String (ascii_of_nat 128) (Js.str1 (ascii_of_nat 139))).

Definition emoji_html (emoji : Emoji + (Session -> res Emoji)) (s : Session)
  : Gen string :=
  Effect id (fun _ =>
    match getEmoji emoji s with
    | Exn => Raise
    | Val e =>
        match emoji_name e with
        | None => Return
        | Some name => yields [ZWSP; Js.encode name; ZWSP] Return
        end
    end).

Definition emoji_tags (emoji : Emoji + (Session -> res Emoji)) (s : Session)
  : Gen Tag :=
  Effect id (fun _ =>
    match getEmoji emoji s with
    | Exn => Raise
    | Val e => Yield (EmojiTag e) Return
    end).

(** *** Inline nodes *)

(** A generator body made of yields only still starts, on the first
    request, in a stretch of its own. *)
Fixpoint getHtml_inline (s : Session) (t : Inline) : Gen string :=
  match t with
  | PlainText text => suspend (yields (plain_html text) Return)
  | MentionText r => mention_gen s r mention_html
  | HashtagText tag => suspend (yields (hashtag_html s tag) Return)
  | StrongText t' =>
      suspend (Yield "<strong>"
        (andThen (getHtml_inline s t') (Yield "</strong>" Return)))
  | EmText t' =>
      suspend (Yield "<em>"
        (andThen (getHtml_inline s t') (Yield "</em>" Return)))
  | LinkText label target =>
      suspend (yields ["<a href=" +:+ Js.dq; Js.encode (href target);
                       Js.dq +:+ " target=" +:+ quoted "_blank" +:+ ">"]
        (andThen (getHtml_inline s label) (Yield "</a>" Return)))
  | CodeText t' =>
      suspend (Yield "<code>"
        (andThen (getHtml_inline s t') (Yield "</code>" Return)))
  | CustomEmojiText emoji => emoji_html emoji s
  end.

Fixpoint getTags_inline (s : Session) (t : Inline) : Gen Tag :=
  match t with
  | PlainText _ => suspend Return
  | MentionText r => mention_gen s r mention_tags
  | HashtagText tag => hashtag_tags s tag
  | StrongText t' => getTags_inline s t'
  | EmText t' => getTags_inline s t'
  | LinkText label _ => getTags_inline s label
  | CodeText t' => getTags_inline s t'
  | CustomEmojiText emoji => emoji_tags emoji s
  end.

Fixpoint getCachedObjects_inline (t : Inline) (h : Heap) : list Object :=
  match t with
  | PlainText _ => []
  | MentionText r => mention_cached r h
  | HashtagText _ => []
  | StrongText _ => []
  | EmText _ => []
  | LinkText label _ => getCachedObjects_inline label h
  | CodeText _ => []
  | CustomEmojiText _ => []
  end.

(** *** The [mention] function *)

(** The body of the [async] arrow function that [mention] passes as actor
    resolver, by what the promise it returns settles to. *)
Definition self_or_lookup (is_self : Session -> bool) (ref : string)
  : Session -> res (option Object) :=
  fun s =>
    if is_self s then
      match getActor s with
      | Val a => Val (Some (ActorObject a))
      | Exn => Exn
      end
    else
      match getDocumentLoader s with
      | Val _ => lookupObject s ref
      | Exn => Exn
      end.

Definition is_bot_url (u : option URL) (s : Session) : bool :=
  match u with
  | Some u => String.eqb (href u) (href (actorId s))
  | None => false
  end.

(** The label resolver [mention] passes: a resolved promise of the handle of
    the bot, or the promise [getActorHandle] returns. *)
Definition handle_of (a : Actor + URL) : Session -> res string :=
  fun s =>
    let u := match a with inl a' => actor_id a' | inr u => Some u end in
    if is_bot_url u s then Val (actorHandle s) else getActorHandle s a.

(** [mention(label, actor)] with an actor object or a URL. *)
Definition mention_labelled (label : string) (b : Actor + URL) (h : Heap)
  : Heap * Inline :=
  new_MentionText (inl label)
    (match b with
     | inl a => inl a
     | inr u => inr (async (self_or_lookup (is_bot_url (Some u)) (href u)))
     end) h.

(** [mention(handle)] *)
Definition mention_handle (a : string) (h : Heap) : Heap * Inline :=
  new_MentionText (inl a)
    (inr (async (self_or_lookup (fun s => String.eqb (actorHandle s) a) a)))
    h.

(** [mention(actor)] with an actor object or a URL. *)
Definition mention (a : Actor + URL) (h : Heap) : Heap * Inline :=
  new_MentionText (inr (async (handle_of a)))
    (match a with
     | inl a' => inl a'
     | inr u => inr (async (self_or_lookup (is_bot_url (Some u)) (href u)))
     end) h.

(** *** MarkdownText *)

Record MarkdownTextOptions := mkOptions {
  opt_mentions : option bool;
  opt_hashtags : option bool;
  opt_linkify : option bool }.

(** The scratch record of a discovery pass. *)
Definition discovery_env : MarkdownEnv :=
  mkEnv [] [] "http://localhost" None.

(** The [if (options.mentions ?? true)] block of the constructor: the
    parser with the plugin added and the handles it found. *)
Definition discover_mentions (md : MarkdownIt) (content : string)
    (enabled : bool) : res (MarkdownIt * option (list string)) :=
  if enabled then
    let md' := mkMd (linkify md) true (hashtagPlugin md) in
    match md_render md' content (Some discovery_env) with
    | Val (_, env) => Val (md', Some (env_mentions env))
    | Exn => Exn
    end
  else Val (md, None).

(** The [if (options.hashtags ?? true)] block. *)
Definition discover_hashtags (md : MarkdownIt) (content : string)
    (enabled : bool) : res (MarkdownIt * option (list string)) :=
  if enabled then
    let md' := mkMd (linkify md) (mentionPlugin md) true in
    match md_render md' content (Some discovery_env) with
    | Val (_, env) => Val (md', Some (env_hashtags env))
    | Exn => Exn
    end
  else Val (md, None).

(** [new MarkdownText(content, options)]; a parser error escapes the
    constructor. *)
Definition new_MarkdownText (content : string) (options : MarkdownTextOptions)
    (h : Heap) : Heap * res Text :=
  let md0 := mkMd (default true (opt_linkify options)) false false in
  match discover_mentions md0 content (default true (opt_mentions options)) with
  | Exn => (h, Exn)
  | Val (md1, mentions) =>
      match discover_hashtags md1 content
              (default true (opt_hashtags options)) with
      | Exn => (h, Exn)
      | Val (md2, hashtags) =>
          (mkHeap (mentionCells h)
                  (markdownCells h
                   ++ [mkMarkdown content md2 mentions hashtags None])
                  (labelPromises h) (actorPromises h),
           Val (MarkdownText (length (markdownCells h))))
      end
  end.

(** [Promise.all(this.#mentions.map(...))]: every lookup is issued; one
    rejection rejects the whole. *)
Fixpoint lookup_all (s : Session) (mentions : list string)
  : res (list (option Object)) :=
  match mentions with
  | [] => Val []
  | m :: rest =>
      let o := if String.eqb m (actorHandle s)
               then match getActor s with
                    | Val a => Val (Some (ActorObject a))
                    | Exn => Exn
                    end
               else lookupObject s m in
      match o, lookup_all s rest with
      | Val x, Val xs => Val (x :: xs)
      | _, _ => Exn
      end
  end.

(** [record[k] = v] on an insertion-ordered record. *)
Fixpoint assoc_set {V} (k : string) (v : V) (l : list (string * V))
  : list (string * V) :=
  match l with
  | [] => [(k, v)]
  | (k', v') :: rest =>
      if String.eqb k k' then (k, v) :: rest
      else (k', v') :: assoc_set k v rest
  end.

(** The loop filling [actors] in [#getMentionedActors]. *)
Fixpoint build_actors (mentions : list string) (objects : list (option Object))
    (actors : list (string * Object)) : list (string * Object) :=
  match mentions, objects with
  | m :: ms, o :: os =>
      build_actors ms os
        (match o with Some obj => assoc_set m obj actors | None => actors end)
  | _, _ => actors
  end.

(** [this.#actors = actors] *)
Definition store_actors (r : nat) (actors : list (string * Object)) (h : Heap)
  : Heap :=
  match markdownCells h !! r with
  | Some c =>
      set_markdown r
        (mkMarkdown (md_content c) (md_markdownIt c) (md_mentions c)
                    (md_hashtags c) (Some actors)) h
  | None => h
  end.

(** [await this.#getMentionedActors(session)], called in a stretch that
    read the node as [c]; [k] receives what the caller's [await] produces.
    The function suspends at its two awaits, and the caller resumes in a
    later turn. *)
Definition getMentionedActors {Y} (s : Session) (r : nat) (c : MarkdownCell)
    (k : res (list (string * Object)) -> Gen Y) : Gen Y :=
  match md_mentions c with
  | None => suspend (k (Val []))
  | Some mentions =>
      match md_actors c with
      | Some actors => suspend (k (Val actors))
      | None =>
          suspend
            match getDocumentLoader s with
            | Exn => suspend (k Exn)
            | Val _ =>
                suspend
                  match lookup_all s mentions with
                  | Exn => suspend (k Exn)
                  | Val objects =>
                      let actors := build_actors mentions objects [] in
                      Effect (store_actors r actors)
                             (fun _ => suspend (k (Val actors)))
                  end
            end
      end
  end.

(** The URL the render pass links a resolved actor to. *)
Definition actor_href (a : Actor) : option string :=
  match match actor_url a with
        | Some (UrlOfLink l) => href <$> link_href l
        | Some (UrlOfURL u) => Some (href u)
        | None => None
        end with
  | Some x => Some x
  | None => href <$> actor_id a
  end.

(** The handle to URL record [getHtml] passes to the parser. *)
Definition project_actors (actors : list (string * Object))
  : list (string * string) :=
  omap (fun e : string * Object =>
          match isActor (Some e.2) with
          | Some a => (fun u => (e.1, u)) <$> actor_href a
          | None => None
          end) actors.

(** One [yield this.#markdownIt.render(...)]. *)
Definition render_chunk (c : MarkdownCell) (env : option MarkdownEnv)
  : Gen string :=
  match md_render (md_markdownIt c) (md_content c) env with
  | Val (html, _) => Yield html Return
  | Exn => Raise
  end.

(** [MarkdownText.getHtml] *)
Definition markdown_html (s : Session) (r : nat) : Gen string :=
  Effect id (fun h =>
    match markdownCells h !! r with
    | None => Raise
    | Some c =>
        match md_mentions c with
        | None => render_chunk c None
        | Some _ =>
            getMentionedActors s r c (fun v =>
              match v with
              | Exn => Raise
              | Val actors =>
                  render_chunk c
                    (Some (mkEnv [] [] (origin s)
                                 (Some (project_actors actors))))
              end)
        end
    end).

(** The mentions [MarkdownText.getTags] yields for the resolved record. *)
Definition markdown_mentions (actors : list (string * Object)) : list Tag :=
  omap (fun e : string * Object =>
          match isActor (Some e.2) with
          | Some a =>
              match actor_id a with
              | Some id => Some (Mention e.1 (Some id))
              | None => None
              end
          | None => None
          end) actors.

(** The hashtag loop of [MarkdownText.getTags]. *)
Fixpoint markdown_hashtags (s : Session) (hashtags : list string) : Gen Tag :=
  match hashtags with
  | [] => Return
  | hashtag :: rest =>
      match hashtag_object s (Js.toLowerCase (Js.substring1 hashtag)) with
      | Val t => Yield t (markdown_hashtags s rest)
      | Exn => Raise
      end
  end.

(** [MarkdownText.getTags] *)
Definition markdown_tags (s : Session) (r : nat) : Gen Tag :=
  Effect id (fun h =>
    match markdownCells h !! r with
    | None => Raise
    | Some c =>
        match md_mentions c with
        | None => Return
        | Some _ =>
            getMentionedActors s r c (fun v =>
              match v with
              | Exn => Raise
              | Val actors =>
                  yields (markdown_mentions actors)
                    match md_hashtags c with
                    | Some hashtags => markdown_hashtags s hashtags
                    | None => Return
                    end
              end)
        end
    end).

(** [MarkdownText.getCachedObjects()] *)
Definition markdown_cached (r : nat) (h : Heap) : list Object :=
  match markdownCells h !! r with
  | Some c =>
      match md_actors c with
      | Some actors => snd <$> actors
      | None => []
      end
  | None => []
  end.

(** *** TemplatedText: the paragraph state machine

    [paraState] is a boolean, [true] for opened. *)

(** The loop over the lines of one paragraph; [l] counts the lines
    rendered so far.  Returns what is yielded and the new state. *)
Fixpoint render_lines (lines : list string) (l : nat) (opened : bool)
  : list string * bool :=
  match lines with
  | [] => ([], opened)
  | line :: rest =>
      if Js.is_empty (Js.trim line) then render_lines rest l opened
      else
        let opening := (l <? 1) && negb opened in
        let r := render_lines rest (S l) (opening || opened) in
        ((if opening then ["<p>"] else [])
         ++ (if 0 <? l then ["<br>"] else [])
         ++ [Js.encode line] ++ r.1,
         r.2)
  end.

(** The loop over the paragraphs of one literal; [p] counts them. *)
Fixpoint render_paragraphs (paragraphs : list string) (p : nat)
    (opened : bool) : list string * bool :=
  match paragraphs with
  | [] => ([], opened)
  | para :: rest =>
      let closing := (0 <? p) && opened in
      let r1 := render_lines (Js.split_lf para) 0
                             (if closing then false else opened) in
      let r2 := render_paragraphs rest (S p) r1.2 in
      ((if closing then ["</p>"] else []) ++ r1.1 ++ r2.1, r2.2)
  end.

(** What is yielded for the literal [str]. *)
Definition render_literal (str : string) (opened : bool)
  : list string * bool :=
  render_paragraphs (Js.split_paragraphs str) 0 opened.

(** What is yielded between a literal and the child of type [ty]. *)
Definition before_value (ty : TextType) (opened : bool) : list string * bool :=
  match ty, opened with
  | block, true => (["</p>"], false)
  | inline, false => (["<p>"], true)
  | _, _ => ([], opened)
  end.

(** The outer loop of [TemplatedText.getHtml] from index [i] on: [strings]
    are the literals left and [values] the children left, each with its
    type and its own [getHtml(session)]. *)
Fixpoint templated_html (strings : list string)
    (values : list (TextType * Gen string)) (opened : bool) : Gen string :=
  match strings with
  | [] => if opened then Yield "</p>" Return else Return
  | str :: strings' =>
      let r := render_literal str opened in
      yields r.1
        match values with
        | [] => templated_html strings' [] r.2
        | (ty, html) :: values' =>
            let b := before_value ty r.2 in
            yields b.1 (andThen html (templated_html strings' values' b.2))
        end
  end.

(** [yield*] of each generator in turn. *)
Fixpoint chain {Y} (gs : list (Gen Y)) : Gen Y :=
  match gs with
  | [] => Return
  | g :: gs' => andThen g (chain gs')
  end.

(** *** The three methods on any node *)

Fixpoint getHtml (s : Session) (t : Text) : Gen string :=
  match t with
  | InlineNode i => getHtml_inline s i
  | TemplatedText strings values =>
      suspend (templated_html strings
                 (map (fun v => (type_of v, getHtml s v)) values) false)
  | MarkdownText r => markdown_html s r
  end.

Fixpoint getTags (s : Session) (t : Text) : Gen Tag :=
  match t with
  | InlineNode i => getTags_inline s i
  | TemplatedText _ values => suspend (chain (map (getTags s) values))
  | MarkdownText r => markdown_tags s r
  end.

Fixpoint getCachedObjects (t : Text) (h : Heap) : list Object :=
  match t with
  | InlineNode i => getCachedObjects_inline i h
  | TemplatedText _ values =>
      concat (map (fun v => getCachedObjects v h) values)
  | MarkdownText r => markdown_cached r h
  end.

(** *** Building a TemplatedText *)

(** An interpolated value, by the branch of the constructor that takes it;
    [VOther str] is any other value with [String(v) = str]. *)
Inductive Value :=
| VText (t : Text)
| VURL (u : URL)
| VActor (a : Actor)
| VEmoji (e : Emoji)
| VOther (str : string).

Definition coerce (v : Value) (h : Heap) : Heap * Text :=
  match v with
  | VText t => (h, t)
  | VURL u => (h, InlineNode (LinkText (PlainText (href u)) u))
  | VActor a => let r := mention (inl a) h in (r.1, InlineNode r.2)
  | VEmoji e => (h, InlineNode (CustomEmojiText (inl e)))
  | VOther str => (h, InlineNode (PlainText str))
  end.

Fixpoint coerce_all (vs : list Value) (h : Heap) : Heap * list Text :=
  match vs with
  | [] => (h, [])
  | v :: vs' =>
      let r1 := coerce v h in
      let r2 := coerce_all vs' r1.1 in
      (r2.1, r1.2 :: r2.2)
  end.

(** [new TemplatedText(strings, ...values)], also the [text] template
    tag. *)
Definition new_TemplatedText (strings : list string) (values : list Value)
    (h : Heap) : Heap * Text :=
  let r := coerce_all values h in (r.1, TemplatedText strings r.2).

(** *** The [mentions] function *)

(** [tag instanceof Mention && tag.href?.href === actor.href] *)
Definition mentions_url (target : URL) (tag : Tag) : bool :=
  match tag with
  | Mention _ (Some u) => String.eqb (href u) (href target)
  | _ => false
  end.

(** [for await (const tag of g) if (test tag) return true; return false]
    with nothing else going on; leaving the loop early abandons the
    generator where it is. *)
Fixpoint for_await_some {Y} (test : Y -> bool) (g : Gen Y) (h : Heap)
  : Heap * res bool :=
  match g with
  | Return => (h, Val false)
  | Raise => (h, Exn)
  | Yield y k => if test y then (h, Val true) else for_await_some test k h
  | Effect f k => for_await_some test (k h) (f h)
  | AwaitLabel p k =>
      let h1 := settle_label p h in
      match labelPromises h1 !! p with
      | Some pr => for_await_some test (k (p_outcome pr)) h1
      | None => (h, Exn)
      end
  | AwaitActor p k =>
      let h1 := settle_actor p h in
      match actorPromises h1 !! p with
      | Some pr => for_await_some test (k (p_outcome pr)) h1
      | None => (h, Exn)
      end
  end.

Definition mentions (s : Session) (text : Text) (actor : Actor + URL)
    (h : Heap) : Heap * res bool :=
  match actor with
  | inl a =>
      match actor_id a with
      | None => (h, Val false)
      | Some id => for_await_some (mentions_url id) (getTags s text) h
      end
  | inr u => for_await_some (mentions_url u) (getTags s text) h
  end.

End TextTree.

(** ** Overlapping callers: the interleaving machine

    Any number of [getHtml] and [getTags] generators, on any nodes, run
    against one heap.  An event creates a generator, resumes one for a single
    stretch (or hands over one yielded value), lets the environment settle a
    promise, or calls [getCachedObjects]. *)

Inductive Task :=
| HtmlTask (g : Gen string) (out : list string)
| TagsTask (g : Gen Tag) (out : list Tag).

Inductive Event :=
| CallHtml (s : Session) (t : Text)
| CallTags (s : Session) (t : Text)
| CallCached (t : Text)
| Resume (i : nat)
| SettleLabel (p : nat)
| SettleActor (p : nat).

Record World := mkWorld {
  heap : Heap;
  tasks : list Task;
  cachedLog : list (list Object) }.

(** Resume [g]: deliver a yielded value, run one stretch, or pass a settled
    promise on; a generator waiting for a pending promise stays put. *)
Definition resume {Y} (g : Gen Y) (out : list Y) (h : Heap)
  : Heap * (Gen Y * list Y) :=
  match g with
  | Return => (h, (g, out))
  | Raise => (h, (g, out))
  | Yield y k => (h, (k, out ++ [y]))
  | Effect f k => (f h, (k h, out))
  | AwaitLabel p k =>
      match labelPromises h !! p with
      | Some pr =>
          if p_settled pr then (h, (k (p_outcome pr), out)) else (h, (g, out))
      | None => (h, (g, out))
      end
  | AwaitActor p k =>
      match actorPromises h !! p with
      | Some pr =>
          if p_settled pr then (h, (k (p_outcome pr), out)) else (h, (g, out))
      | None => (h, (g, out))
      end
  end.

Definition resume_task (t : Task) (h : Heap) : Heap * Task :=
  match t with
  | HtmlTask g out => let r := resume g out h in (r.1, HtmlTask r.2.1 r.2.2)
  | TagsTask g out => let r := resume g out h in (r.1, TagsTask r.2.1 r.2.2)
  end.

Section Machine.
Context {platform : Platform}.

Definition step (e : Event) (w : World) : World :=
  match e with
  | CallHtml s t =>
      mkWorld (heap w) (tasks w ++ [HtmlTask (getHtml s t) []]) (cachedLog w)
  | CallTags s t =>
      mkWorld (heap w) (tasks w ++ [TagsTask (getTags s t) []]) (cachedLog w)
  | CallCached t =>
      mkWorld (heap w) (tasks w)
              (cachedLog w ++ [getCachedObjects t (heap w)])
  | Resume i =>
      match tasks w !! i with
      | Some t =>
          let r := resume_task t (heap w) in
          mkWorld r.1 (<[i := r.2]> (tasks w)) (cachedLog w)
      | None => w
      end
  | SettleLabel p => mkWorld (settle_label p (heap w)) (tasks w) (cachedLog w)
  | SettleActor p => mkWorld (settle_actor p (heap w)) (tasks w) (cachedLog w)
  end.

Definition exec (es : list Event) (w : World) : World :=
  fold_left (fun w e => step e w) es w.

End Machine.

(** The world right after the nodes in [h] were built. *)
Definition start (h : Heap) : World := mkWorld h [] [].

(** *** Resolver invocations

    A call of a deferred resolver either returns a promise, which is
    appended to a table, or throws, which is counted in the node: the
    promises owned by a node and the throws counted in it make up the calls
    of its resolver. *)

Definition owned_by {A} (r : nat) (ps : list (Promise A)) : list (Promise A) :=
  filter (fun pr => p_owner pr = r) ps.

(** The promises the label (actor) resolver of node [r] has returned. *)
Definition label_promises (r : nat) (h : Heap) : nat :=
  length (owned_by r (labelPromises h)).

Definition actor_promises (r : nat) (h : Heap) : nat :=
  length (owned_by r (actorPromises h)).

(** The calls of the label (actor) resolver of node [r] that threw. *)
Definition label_throws (r : nat) (h : Heap) : nat :=
  match mentionCells h !! r with
  | Some c => m_labelThrows c
  | None => 0
  end.

Definition actor_throws (r : nat) (h : Heap) : nat :=
  match mentionCells h !! r with
  | Some c => m_actorThrows c
  | None => 0
  end.

(** All the calls of the label (actor) resolver of node [r]. *)
Definition label_resolutions (r : nat) (h : Heap) : nat :=
  label_promises r h + label_throws r h.

Definition actor_resolutions (r : nat) (h : Heap) : nat :=
  actor_promises r h + actor_throws r h.

(** A heap whose mention nodes have not started any resolution, as the
    constructors leave it. *)
Definition unstarted (c : MentionCell) : bool :=
  bool_decide (m_labelPromise c = None)
  && bool_decide (m_actorPromise c = None).

Definition unresolved (h : Heap) : bool :=
  bool_decide (length (labelPromises h) = 0)
  && bool_decide (length (actorPromises h) = 0)
  && forallb unstarted (mentionCells h).

(** The invariant behind single resolution: a slot holds a promise exactly
    when a call of its resolver has returned, only one call ever returns,
    and the promise in the slot is the one that call returned. *)
Definition slot_count (slot : option nat) : nat :=
  match slot with Some _ => 1 | None => 0 end.

(** The slot, if filled, holds a promise of node [r]. *)
Definition own_promise {A} (r : nat) (slot : option nat)
    (ps : list (Promise A)) : Prop :=
  forall p, slot = Some p -> exists pr, ps !! p = Some pr /\ p_owner pr = r.

Definition cell_ok (h : Heap) (r : nat) (c : MentionCell) : Prop :=
  label_promises r h = slot_count (m_labelPromise c) /\
  actor_promises r h = slot_count (m_actorPromise c) /\
  own_promise r (m_labelPromise c) (labelPromises h) /\
  own_promise r (m_actorPromise c) (actorPromises h).

Definition Inv (h : Heap) : Prop :=
  forall r c, mentionCells h !! r = Some c -> cell_ok h r c.

(** Every stretch of a generator keeps the invariant. *)
Inductive good {Y} : Gen Y -> Prop :=
| good_Return : good Return
| good_Raise : good Raise
| good_Yield y k : good k -> good (Yield y k)
| good_Effect f k :
    (forall h, Inv h -> Inv (f h)) -> (forall h, good (k h)) ->
    good (Effect f k)
| good_AwaitLabel p k : (forall v, good (k v)) -> good (AwaitLabel p k)
| good_AwaitActor p k : (forall v, good (k v)) -> good (AwaitActor p k).

(** Every generator a task holds is [good]. *)
Definition task_good (t : Task) : Prop :=
  match t with
  | HtmlTask g _ => good g
  | TagsTask g _ => good g
  end.

(** ** Paragraph markers in rendered HTML *)

Inductive Marker := POpen | PClose.

(** The paragraph markers of [s] in order of position: [POpen] where the
    three characters of an opening paragraph tag start, [PClose] where the
    four characters of a closing one start. *)
Fixpoint markers (s : string) : list Marker :=
  match s with
  | EmptyString => []
  | String _ r =>
      (if Js.starts_with "<p>" s then [POpen]
       else if Js.starts_with "</p>" s then [PClose] else [])
      ++ markers r
  end.

(** The same by one pass of an automaton whose state is the part of a
    marker read so far. *)
Inductive Scan := S0 | S1 | S2 | S3 | S4.

(** The text a state stands for. *)
Definition pending (st : Scan) : string :=
  match st with
  | S0 => EmptyString
  | S1 => "<"
  | S2 => "<p"
  | S3 => "</"
  | S4 => "</p"
  end.

Definition scan_char (st : Scan) (c : ascii) : Scan * list Marker :=
  if Ascii.eqb "<" c then (S1, [])
  else
    match st with
    | S0 => (S0, [])
    | S1 => if Ascii.eqb "p" c then (S2, [])
            else if Ascii.eqb "/" c then (S3, []) else (S0, [])
    | S2 => if Ascii.eqb ">" c then (S0, [POpen]) else (S0, [])
    | S3 => if Ascii.eqb "p" c then (S4, []) else (S0, [])
    | S4 => if Ascii.eqb ">" c then (S0, [PClose]) else (S0, [])
    end.

Fixpoint scan (st : Scan) (s : string) : Scan * list Marker :=
  match s with
  | EmptyString => (st, [])
  | String c r =>
      let a := scan_char st c in
      let b := scan a.1 r in
      (b.1, a.2 ++ b.2)
  end.

(** Scanning the chunks a generator yielded, one after the other. *)
Fixpoint scan_chunks (st : Scan) (chunks : list string) : Scan * list Marker :=
  match chunks with
  | [] => (st, [])
  | c :: rest =>
      let a := scan st c in
      let b := scan_chunks a.1 rest in
      (b.1, a.2 ++ b.2)
  end.

(** Paragraphs open and close in turn: the state after the markers [ms],
    starting from [opened]; [None] when a paragraph opens inside an open one
    or closes with none open. *)
Fixpoint paragraphs (opened : bool) (ms : list Marker) : option bool :=
  match ms with
  | [] => Some opened
  | POpen :: rest => if opened then None else paragraphs true rest
  | PClose :: rest => if opened then paragraphs false rest else None
  end.

(** The HTML [html] consists of whole paragraphs, one after the other. *)
Definition balanced (html : string) : Prop :=
  paragraphs false (markers html) = Some false.

Definition is_open (m : Marker) : bool :=
  match m with POpen => true | PClose => false end.

Definition opens (ms : list Marker) : nat :=
  length (List.filter is_open ms).
Definition closes (ms : list Marker) : nat :=
  length (List.filter (fun m => negb (is_open m)) ms).

(** A chunk without any part of a marker. *)
Definition inert (chunk : string) : bool :=
  match scan S0 chunk with
  | (S0, []) => true
  | _ => false
  end.

(** Hashtag labels are yielded as they are; a tree is [marker_free] when
    none of its hashtags carries a piece of a paragraph marker. *)
Fixpoint marker_free_inline (t : Inline) : bool :=
  match t with
  | HashtagText tag => inert tag
  | StrongText t' | EmText t' | CodeText t' => marker_free_inline t'
  | LinkText label _ => marker_free_inline label
  | PlainText _ | MentionText _ | CustomEmojiText _ => true
  end.

Fixpoint marker_free (t : Text) : bool :=
  match t with
  | InlineNode i => marker_free_inline i
  | TemplatedText _ values => forallb marker_free values
  | MarkdownText _ => true
  end.

(** A paragraph chunk with a line that is not blank. *)
Definition nonblank (para : string) : bool :=
  existsb (fun line => negb (Js.is_empty (Js.trim line))) (Js.split_lf para).

(** The pieces of a split at even positions (the text between separators)
    and at odd positions (the captures). *)
Fixpoint evens {A} (l : list A) : list A :=
  match l with
  | [] => []
  | x :: rest => x :: match rest with [] => [] | _ :: rest' => evens rest' end
  end.

Definition odds {A} (l : list A) : list A :=
  match l with [] => [] | _ :: rest => evens rest end.

(** The chunks of a literal that blank-line boundaries separate. *)
Definition chunks_of (literal : string) : list string :=
  evens (Js.split_paragraphs literal).

(** *** Literals written as chunks and boundaries *)

(** The text of one line end: spaces and tabs, an optional carriage return,
    a line feed. *)
Inductive line_end_text : string -> Prop :=
| line_end_lf : line_end_text (Js.str1 Js.LF)
| line_end_crlf : line_end_text (String Js.CR (Js.str1 Js.LF))
| line_end_hws c m :
    Js.is_hws c = true -> line_end_text m -> line_end_text (String c m).

(** A blank-line boundary: two or more line ends. *)
Inductive boundary : string -> Prop :=
| boundary_two e1 e2 :
    line_end_text e1 -> line_end_text e2 -> boundary (e1 +:+ e2)
| boundary_more e b :
    line_end_text e -> boundary b -> boundary (e +:+ b).

(** A chunk of one line that a boundary cannot reach into: it has no line
    feed and does not end in a space, a tab or a carriage return. *)
Fixpoint one_line (c : string) : bool :=
  match c with
  | EmptyString => false
  | String x EmptyString =>
      negb (Js.is_hws x) && negb (Ascii.eqb x Js.CR) && negb (Ascii.eqb x Js.LF)
  | String x rest => negb (Ascii.eqb x Js.LF) && one_line rest
  end.

(** The literal made of the chunk [c] and then, in turn, a boundary and a
    chunk. *)
Fixpoint assemble (c : string) (more : list (string * string)) : string :=
  match more with
  | [] => c
  | (sep, c') :: more' => c +:+ sep +:+ assemble c' more'
  end.

(** ** Notions used in the statements *)

(** The invariant of the machine. *)
Definition World_ok (w : World) : Prop :=
  Inv (heap w) /\ Forall task_good (tasks w).

(** The chunks of a render, joined into the HTML string. *)
Definition join (chunks : list string) : string :=
  fold_right String.append EmptyString chunks.

(** [P] holds of what [g] yields whenever [g] runs to its return. *)
Definition all_runs {Y} (P : list Y -> Prop) (g : Gen Y) : Prop :=
  forall h, (run g h).2.2 = Val tt -> P (run g h).2.1.

(** Chunks that leave the automaton where it started, with no marker. *)
Definition quiet (chunks : list string) : Prop :=
  scan_chunks S0 chunks = (S0, []).

(** The chunks take the paragraph state from [a] to [b], with the markers
    [ms], and end outside any marker. *)
Definition tracks (a : bool) (chunks : list string) (ms : list Marker)
    (b : bool) : Prop :=
  scan_chunks S0 chunks = (S0, ms) /\ paragraphs a ms = Some b.

(** Lines of a paragraph that are rendered. *)
Definition has_line (lines : list string) : bool :=
  existsb (fun line => negb (Js.is_empty (Js.trim line))) lines.

(** Chunks that close every paragraph open before or opened in them. *)
Definition closes_all (opened : bool) (out : list string) : Prop :=
  exists ms, tracks opened out ms false.

(** Chunks made of whole paragraphs. *)
Definition whole (out : list string) : Prop := closes_all false out.

(** What the template expects of a child, by its type: an inline child
    yields no paragraph marker, a block child whole paragraphs. *)
Definition child_ok (v : TextType * Gen string) : Prop :=
  match v.1 with
  | inline => all_runs quiet v.2
  | block => all_runs whole v.2
  end.

(** What awaiting the label slot of node [c] produces in heap [h]: the
    outcome of the promise, or the exception of a resolver that throws. *)
Definition label_outcome (s : Session) (c : MentionCell) (h : Heap)
  : res string :=
  match m_label c with
  | inl l => Val l
  | inr resolver =>
      match m_labelPromise c with
      | Some p =>
          match labelPromises h !! p with
          | Some pr => p_outcome pr
          | None => Exn
          end
      | None =>
          match resolver s with
          | Returns outcome => outcome
          | Throws => Exn
          end
      end
  end.

(** What awaiting the actor slot produces. *)
Definition actor_outcome (s : Session) (c : MentionCell) (h : Heap)
  : res (option Object) :=
  match m_actor c with
  | inl a => Val (Some (ActorObject a))
  | inr resolver =>
      match m_actorPromise c with
      | Some p =>
          match actorPromises h !! p with
          | Some pr => p_outcome pr
          | None => Exn
          end
      | None =>
          match resolver s with
          | Returns outcome => outcome
          | Throws => Exn
          end
      end
  end.

(** The call of the label resolver that [#getLabel] makes for session [s]
    on node [c], if it makes one: it does when the label is deferred and the
    slot is empty. *)
Definition starts_label (s : Session) (c : MentionCell)
  : option (Call string) :=
  match m_label c, m_labelPromise c with
  | inr resolver, None => Some (resolver s)
  | _, _ => None
  end.

(** Likewise for [#getActor]. *)
Definition starts_actor (s : Session) (c : MentionCell)
  : option (Call (option Object)) :=
  match m_actor c, m_actorPromise c with
  | inr resolver, None => Some (resolver s)
  | _, _ => None
  end.

(** The number of resolver calls in it, and the slot after it: filled with
    the promise [fresh] when the call returned one. *)
Definition calls_made {A} (call : option (Call A)) : nat :=
  match call with Some _ => 1 | None => 0 end.

Definition slot_after {A} (call : option (Call A)) (slot : option nat)
    (fresh : nat) : option nat :=
  match call with
  | Some (Returns _) => Some fresh
  | _ => slot
  end.

(** The label slot of node [r] holds the promise [p], which the resolver of
    the node returned and whose outcome is [v], and the label resolver was
    called [n] times so far. *)
Definition label_stored (r p : nat) (v : res string) (n : nat) (h : Heap)
  : Prop :=
  exists c pr resolver,
    mentionCells h !! r = Some c /\ m_label c = inr resolver /\
    m_labelPromise c = Some p /\
    labelPromises h !! p = Some pr /\ p_outcome pr = v /\ p_owner pr = r /\
    label_resolutions r h = n.

(** Likewise for the actor slot. *)
Definition actor_stored (r p : nat) (v : res (option Object)) (n : nat)
    (h : Heap) : Prop :=
  exists c pr resolver,
    mentionCells h !! r = Some c /\ m_actor c = inr resolver /\
    m_actorPromise c = Some p /\
    actorPromises h !! p = Some pr /\ p_outcome pr = v /\ p_owner pr = r /\
    actor_resolutions r h = n.

(** Only a deferred slot is ever filled. *)
Definition slots_deferred (h : Heap) : Prop :=
  forall r c, mentionCells h !! r = Some c ->
    (forall p, m_labelPromise c = Some p -> exists f, m_label c = inr f) /\
    (forall p, m_actorPromise c = Some p -> exists f, m_actor c = inr f).

(** While the label (actor) of node [r] is [lab], the calls of its resolver
    that threw number [n]. *)
Definition label_throws_are (r : nat) (lab : string + (Session -> Call string))
    (n : nat) (h : Heap) : Prop :=
  forall c, mentionCells h !! r = Some c -> m_label c = lab ->
            m_labelThrows c = n.

Definition actor_throws_are (r : nat)
    (act : Actor + (Session -> Call (option Object))) (n : nat) (h : Heap)
  : Prop :=
  forall c, mentionCells h !! r = Some c -> m_actor c = act ->
            m_actorThrows c = n.

(** A resolver that never throws before it returns its promise, as every
    function declared [async] is. *)
Definition returns_always {S A} (f : S -> Call A) : Prop :=
  forall s, f s <> Throws.

(** A call of one of the two resolving methods, run to its end with
    nothing else going on. *)
Inductive NodeCall :=
| HtmlCall (s : Session)
| TagsCall (s : Session).

Definition call_session (k : NodeCall) : Session :=
  match k with HtmlCall s => s | TagsCall s => s end.

(** The heap after the call [k] on the tree [t], and after a sequence of
    calls, one after the other. *)
Definition after_call {platform : Platform} (t : Text) (h : Heap)
    (k : NodeCall) : Heap :=
  match k with
  | HtmlCall s => (run (getHtml s t) h).1
  | TagsCall s => (run (getTags s t) h).1
  end.

Definition after_calls {platform : Platform} (t : Text)
    (ks : list NodeCall) (h : Heap) : Heap :=
  fold_left (after_call t) ks h.

(** A mention node with a deferred actor, just built. *)
Definition deferred_fresh (c : MentionCell) : bool :=
  unstarted c &&
  match m_actor c, m_cachedObject c with
  | inr _, None => true
  | _, _ => false
  end.

(** A markdown node that has not resolved its handles. *)
Definition markdown_fresh (c : MarkdownCell) : bool :=
  bool_decide (md_actors c = None).

(** After the spec: invoking the parser's render directly on the source,
    as the one chunk it returns or the error it throws. *)
Definition direct_render {platform : Platform} (md : MarkdownIt)
    (content : string) : list string * res unit :=
  match md_render md content None with
  | Val (html, _) => ([html], Val tt)
  | Exn => ([], Exn)
  end.

(** ** Notions for further properties *)

(** [lines.join(sep)] *)
Fixpoint join_with (sep : string) (lines : list string) : string :=
  match lines with
  | [] => EmptyString
  | x :: rest =>
      match rest with
      | [] => x
      | _ :: _ => x +:+ sep +:+ join_with sep rest
      end
  end.

(** The elements of [l] with [sep] between them. *)
Definition intersperse {A} (sep : A) (l : list A) : list A :=
  match l with
  | [] => []
  | x :: rest => x :: flat_map (fun y => [sep; y]) rest
  end.

Fixpoint all_chars (f : ascii -> bool) (s : string) : bool :=
  match s with
  | EmptyString => true
  | String c r => f c && all_chars f r
  end.

(** The characters that delimit markup and attribute values: the angle
    brackets, the double quote and the apostrophe. *)
Definition markup_char (c : ascii) : bool :=
  let n := nat_of_ascii c in
  (n =? 60) || (n =? 62) || (n =? 34) || (n =? 39).

(** A chunk in which none of them occurs. *)
Definition escaped (chunk : string) : bool :=
  all_chars (fun c => negb (markup_char c)) chunk.

(** The lines of a paragraph chunk that are rendered: those with something
    other than white space. *)
Definition rendered_lines (para : string) : list string :=
  List.filter (fun line => negb (Js.is_empty (Js.trim line)))
              (Js.split_lf para).

(** One paragraph: the rendered lines, escaped, with line breaks between
    them. *)
Definition paragraph_html (para : string) : list string :=
  "<p>" :: intersperse "<br>" (map Js.encode (rendered_lines para))
  ++ ["</p>"].
(** A tag name made of words without white space, one space between two
    words and none at either end; [after_space] tells that a word has to
    start. *)
Fixpoint spaced (after_space : bool) (s : string) : bool :=
  match s with
  | EmptyString => negb after_space
  | String c r =>
      if Ascii.eqb c Js.SP then negb after_space && spaced true r
      else negb (Js.is_ws c) && spaced false r
  end.

Definition tidy (s : string) : bool := Js.is_empty s || spaced true s.
(** What a call on a mention node yields and how it ends, by what awaiting
    the label and the actor produce. *)
Definition mention_result {Y} (out : string -> option Object -> list Y)
    (label : res string) (actor : res (option Object)) : list Y * res unit :=
  match label with
  | Exn => ([], Exn)
  | Val l =>
      match actor with
      | Exn => ([], Exn)
      | Val a => (out l a, Val tt)
      end
  end.
(** What the hashtag loop of [MarkdownText.getTags] yields for the tokens
    [hashtags], and how it ends. *)
Fixpoint hashtags_result {platform : Platform} (s : Session)
    (hashtags : list string) : list Tag * res unit :=
  match hashtags with
  | [] => ([], Val tt)
  | hashtag :: rest =>
      match hashtag_object s (Js.toLowerCase (Js.substring1 hashtag)) with
      | Val t => let r := hashtags_result s rest in (t :: r.1, r.2)
      | Exn => ([], Exn)
      end
  end.

(** The name of a Mention tag. *)
Definition mention_name (t : Tag) : option string :=
  match t with
  | Mention name _ => Some name
  | _ => None
  end.
(** Every mention node the tree refers to is among the first [n] of the
    heap. *)
Fixpoint refs_below_inline (n : nat) (t : Inline) : bool :=
  match t with
  | MentionText r => r <? n
  | StrongText t' | EmText t' | CodeText t' => refs_below_inline n t'
  | LinkText label _ => refs_below_inline n label
  | PlainText _ | HashtagText _ | CustomEmojiText _ => true
  end.

Fixpoint refs_below (n : nat) (t : Text) : bool :=
  match t with
  | InlineNode i => refs_below_inline n i
  | TemplatedText _ values => forallb (refs_below n) values
  | MarkdownText _ => true
  end.

(** An interpolated value that is a text tree refers to nodes of [h]. *)
Definition value_within (h : Heap) (v : Value) : bool :=
  match v with
  | VText t => refs_below (length (mentionCells h)) t
  | _ => true
  end.

(** What an interpolated value has cached when the template is built. *)
Definition cached_of_value (h : Heap) (v : Value) : list Object :=
  match v with
  | VText t => getCachedObjects t h
  | VActor a => [ActorObject a]
  | _ => []
  end.

(** A tree without mention and markdown nodes and without deferred custom
    emojis.  Hashtags are left out as well: their getHtml calls
    [encodeURIComponent], which throws on a lone surrogate, a code unit
    outside the strings of this development. *)
Fixpoint static_inline (t : Inline) : bool :=
  match t with
  | PlainText _ => true
  | MentionText _ | HashtagText _ => false
  | StrongText t' | EmText t' | CodeText t' => static_inline t'
  | LinkText label _ => static_inline label
  | CustomEmojiText (inl _) => true
  | CustomEmojiText (inr _) => false
  end.

Fixpoint static (t : Text) : bool :=
  match t with
  | InlineNode i => static_inline i
  | TemplatedText _ values => forallb static values
  | MarkdownText _ => false
  end.

(** A generator that yields [out] and returns, whatever the heap, and
    leaves the heap alone. *)
Definition steady {Y} (g : Gen Y) (out : list Y) : Prop :=
  forall h, run g h = (h, (out, Val tt)).
(** Node [r] has settled on the label [lo] and, if the label resolved, on
    the actor [ao]: whatever the session, the slots produce these outcomes
    and call no resolver. *)
Definition decided (r : nat) (lo : res string) (ao : res (option Object))
    (h : Heap) : Prop :=
  exists c, mentionCells h !! r = Some c /\
    forall s,
      (label_outcome s c h = lo /\ starts_label s c = None) /\
      (lo <> Exn -> actor_outcome s c h = ao /\ starts_actor s c = None).

(** *** The cache of a mention node under overlapping callers *)

(** A node as the constructor leaves its cache: a deferred actor comes with
    no cached object. *)
Definition fits_constructor (c : MentionCell) : bool :=
  match m_actor c, m_cachedObject c with
  | inr _, Some _ => false
  | _, _ => true
  end.

(** A heap of nodes just built. *)
Definition as_built (h : Heap) : bool :=
  unresolved h && forallb fits_constructor (mentionCells h).

(** The cache of node [r] follows its actor slot: while the slot is empty
    the cache is as the constructor left it, and while a promise of the node
    is pending a deferred node has cached nothing. *)
Definition cache_ok (h : Heap) (r : nat) (c : MentionCell) : Prop :=
  (m_actorPromise c = None -> fits_constructor c = true) /\
  (forall p pr, actorPromises h !! p = Some pr -> p_owner pr = r ->
                p_settled pr = false -> m_cachedObject c = None).

Definition Cached (h : Heap) : Prop :=
  Inv h /\ forall r c, mentionCells h !! r = Some c -> cache_ok h r c.

(** Node [r] has cached the object [o]. *)
Definition holds (r : nat) (o : Object) (h : Heap) : Prop :=
  exists c, mentionCells h !! r = Some c /\ m_cachedObject c = Some o.

(** A property of heaps that every primitive operation on the heap keeps:
    the two slot accessors, the assignment of the actors of a markdown node,
    and the settling of a promise. *)
Definition prim_closed (I : Heap -> Prop) : Prop :=
  (forall s r h, I h -> I (getLabel s r h).1) /\
  (forall s r h, I h -> I (getActor_ s r h).1) /\
  (forall r actors h, I h -> I (store_actors r actors h)) /\
  (forall p h, I h -> I (settle_label p h)) /\
  (forall p h, I h -> I (settle_actor p h)).

(** Every stretch of a generator keeps [I]. *)
Inductive keeps (I : Heap -> Prop) {Y} : Gen Y -> Prop :=
| keeps_Return : keeps I Return
| keeps_Raise : keeps I Raise
| keeps_Yield y k : keeps I k -> keeps I (Yield y k)
| keeps_Effect f k :
    (forall h, I h -> I (f h)) -> (forall h, keeps I (k h)) ->
    keeps I (Effect f k)
| keeps_AwaitLabel p k : (forall v, keeps I (k v)) -> keeps I (AwaitLabel p k)
| keeps_AwaitActor p k : (forall v, keeps I (k v)) -> keeps I (AwaitActor p k).

Definition task_keeps (I : Heap -> Prop) (t : Task) : Prop :=
  match t with
  | HtmlTask g _ => keeps I g
  | TagsTask g _ => keeps I g
  end.

(** *** Trees over some of the nodes, and schedules that leave a node alone *)

(** Every mention node of the inline tree satisfies [okm]. *)
Fixpoint inline_within (okm : nat -> bool) (t : Inline) : bool :=
  match t with
  | PlainText _ => true
  | MentionText r => okm r
  | HashtagText _ => true
  | StrongText t' => inline_within okm t'
  | EmText t' => inline_within okm t'
  | LinkText label _ => inline_within okm label
  | CodeText t' => inline_within okm t'
  | CustomEmojiText _ => true
  end.

(** Every mention node of the tree satisfies [okm] and every markdown node
    [okd]. *)
Fixpoint within (okm okd : nat -> bool) (t : Text) : bool :=
  match t with
  | InlineNode i => inline_within okm i
  | TemplatedText _ values => forallb (within okm okd) values
  | MarkdownText r => okd r
  end.

(** The tree contains the mention node [r] (the markdown node [r]),
    directly or below templates and decorators. *)
Definition has_mention (r : nat) (t : Text) : bool :=
  negb (within (fun r' => negb (r' =? r)) (fun _ => true) t).

Definition has_markdown (r : nat) (t : Text) : bool :=
  negb (within (fun _ => true) (fun r' => negb (r' =? r)) t).

(** The schedule [es] resumes only generators of trees that satisfy [P];
    [ts] lists the trees of the generators created before [es], in the order
    of their creation.  Creating a generator, asking for the cached objects
    and settling promises are not restricted. *)
Fixpoint resumes_only (P : Text -> bool) (ts : list Text) (es : list Event)
  : bool :=
  match es with
  | [] => true
  | CallHtml _ t :: es' => resumes_only P (ts ++ [t]) es'
  | CallTags _ t :: es' => resumes_only P (ts ++ [t]) es'
  | Resume i :: es' =>
      match ts !! i with
      | Some t => P t
      | None => true
      end && resumes_only P ts es'
  | _ :: es' => resumes_only P ts es'
  end.

(** [prim_closed], asked only of the accessors of the mention nodes in [okm]
    and of the assignments to the markdown nodes in [okd]. *)
Definition prim_closed_on (okm okd : nat -> bool) (I : Heap -> Prop) : Prop :=
  (forall s r h, okm r = true -> I h -> I (getLabel s r h).1) /\
  (forall s r h, okm r = true -> I h -> I (getActor_ s r h).1) /\
  (forall r actors h, okd r = true -> I h -> I (store_actors r actors h)) /\
  (forall p h, I h -> I (settle_label p h)) /\
  (forall p h, I h -> I (settle_actor p h)).

(** The generators listed keep [I], as far as their trees satisfy [P]. *)
Definition tasks_keep (I : Heap -> Prop) (P : Text -> bool)
    (ts : list Text) (tasks : list Task) : Prop :=
  Forall2 (fun t task => P t = true -> task_keeps I task) ts tasks.

(** *** Trees whose nodes are as their constructors left them *)

(** The mention node [r] was built with a deferred actor and nothing has
    been started on it; the markdown node [r] has not resolved its
    handles. *)
Definition fresh_mention (h : Heap) (r : nat) : bool :=
  match mentionCells h !! r with
  | Some c => deferred_fresh c
  | None => true
  end.

Definition fresh_markdown (h : Heap) (r : nat) : bool :=
  match markdownCells h !! r with
  | Some c => markdown_fresh c
  | None => true
  end.

(** Every mention and markdown node of the tree is so. *)
Definition fresh_tree (h : Heap) (t : Text) : bool :=
  within (fresh_mention h) (fresh_markdown h) t.

(** The tree [t'] shares no mention node and no markdown node with [t]. *)
Definition apart (t t' : Text) : bool :=
  within (fun r => negb (has_mention r t)) (fun r => negb (has_markdown r t))
         t'.

(** Nothing is cached in the mention node [r], its actor slot is empty and
    none of the promises is its own. *)
Definition mention_untouched (r : nat) (h : Heap) : Prop :=
  (forall c, mentionCells h !! r = Some c ->
             m_cachedObject c = None /\ m_actorPromise c = None) /\
  (forall p pr, actorPromises h !! p = Some pr -> p_owner pr <> r).

(** The markdown node [r] has stored no actors. *)
Definition markdown_untouched (r : nat) (h : Heap) : Prop :=
  forall c, markdownCells h !! r = Some c -> md_actors c = None.

(** *** Chunks of several lines *)

(** A line without a line feed. *)
Fixpoint no_lf (l : string) : bool :=
  match l with
  | EmptyString => true
  | String c r => negb (Ascii.eqb c Js.LF) && no_lf r
  end.

(** A line of spaces and tabs with at most a carriage return behind them:
    with the line feed that ends it, it is one line end of a boundary. *)
Fixpoint blankish (l : string) : bool :=
  match l with
  | EmptyString => true
  | String c r =>
      if Js.is_hws c then blankish r
      else Ascii.eqb c Js.CR && Js.is_empty r
  end.

(** The lines of a chunk that no boundary reaches into: every line but the
    last has no line feed and is not [blankish], and the last is a
    [one_line]. *)
Fixpoint chunk_lines (ls : list string) : bool :=
  match ls with
  | [] => false
  | l :: rest =>
      match rest with
      | [] => one_line l
      | _ :: _ => no_lf l && negb (blankish l) && chunk_lines rest
      end
  end.

(** The chunk made of these lines, with a line feed between two lines. *)
Definition lines_text (ls : list string) : string :=
  join_with (Js.str1 Js.LF) ls.

(** ** A sample environment for concrete evaluations *)

(** A stand-in for the libraries: absolute URLs start with a scheme
    [http], resolution against a base appends the path, and the parser wraps
    the source in one paragraph, reporting lines that start with a hash sign
    or an at sign to the registered plugins. *)
Definition sample_words (c : ascii) (content : string) : list string :=
  filter (fun w => bool_decide (Js.starts_with (Js.str1 c) w = true))
         (Js.split_lf content).

Definition sample_platform : Platform := {|
  URL_parse := fun s => if Js.starts_with "http" s then Some (mkURL s) else None;
  URL_resolve := fun path base => Some (mkURL (base +:+ path));
  md_render := fun md content env =>
    let e := default discovery_env env in
    Val ("<p>" +:+ Js.encode content +:+ "</p>",
         mkEnv (if mentionPlugin md then sample_words "@" content else [])
               (if hashtagPlugin md then sample_words "#" content else [])
               (env_origin e) (env_actors e)) |}.

Definition alice : Actor :=
  mkActor (Some (mkURL "https://remote.example/users/alice")) None.

Definition bot_actor : Actor :=
  mkActor (Some (mkURL "https://bot.example/ap/actor/bot"))
          (Some (UrlOfURL (mkURL "https://bot.example/"))).

(** A session in which every lookup finds nothing. *)
Definition sample_session : Session :=
  mkSession "https://bot.example" (mkURL "https://bot.example/ap/actor/bot")
            "@bot@bot.example" (Val bot_actor) (Val tt)
            (fun _ => Val None) (fun _ => Val "@alice@remote.example").

(** A session in which every lookup finds [alice]. *)
Definition finding_session : Session :=
  mkSession "https://bot.example" (mkURL "https://bot.example/ap/actor/bot")
            "@bot@bot.example" (Val bot_actor) (Val tt)
            (fun _ => Val (Some (ActorObject alice)))
            (fun _ => Val "@alice@remote.example").

(** A session whose lookups throw. *)
Definition failing_session : Session :=
  mkSession "https://bot.example" (mkURL "https://bot.example/ap/actor/bot")
            "@bot@bot.example" (Val bot_actor) (Val tt)
            (fun _ => Exn) (fun _ => Val "@alice@remote.example").

(** ** Sample nodes *)

Definition alice_url : URL := mkURL "https://remote.example/users/alice".

(** [mention(new URL(...))]: label and actor are both deferred. *)
Definition deferred_mention : Heap * Inline := mention (inr alice_url) empty_heap.

(** Two generators and a cache query overlap on one mention node: both
    generators are created and started before any promise settles. *)
Definition overlapping_calls : list Event :=
  let t := InlineNode deferred_mention.2 in
  [CallHtml finding_session t; CallTags finding_session t; CallCached t;
   Resume 0; Resume 1; CallCached t; SettleLabel 0; Resume 1; Resume 0;
   Resume 0; Resume 1; SettleActor 0; Resume 0; Resume 1; Resume 0;
   CallCached t].

(** The node after these calls: both slots hold the first promise. *)
Definition resolved_mention_cell : MentionCell :=
  mkMention (inr (async (handle_of (inr alice_url))))
            (inr (async (self_or_lookup (is_bot_url (Some alice_url))
                                        (href alice_url))))
            (Some (ActorObject alice)) (Some 0) (Some 0) 0 0.

(** A template with a plain word, a strong hashtag and a markdown child. *)
Definition sample_markdown : Heap * res Text :=
  new_MarkdownText (platform := sample_platform) "#botkit"
    (mkOptions None None None) empty_heap.

Definition sample_template : Text :=
  TemplatedText
    ["Hello, <"; ">!" +:+ Js.str1 Js.LF +:+ Js.str1 Js.LF +:+ "Goodbye, ";
     EmptyString; EmptyString]
    [InlineNode (EmText (PlainText "World"));
     InlineNode (StrongText (new_HashtagText "Foo Bar"));
     MarkdownText 0].

(** A template whose hashtag child carries a paragraph marker. *)
Definition leaking_template : Text :=
  TemplatedText [EmptyString; EmptyString]
                [InlineNode (new_HashtagText "<p>")].

(** A session in which the handle of an actor cannot be determined. *)
Definition offline_session : Session :=
  mkSession "https://bot.example" (mkURL "https://bot.example/ap/actor/bot")
            "@bot@bot.example" (Val bot_actor) (Val tt)
            (fun _ => Val None) (fun _ => Exn).

(** A label resolver written without [async] that asks for the handle
    before it makes its promise: when the handle cannot be determined it
    throws, and no promise exists. *)
Definition eager_label (a : Actor) : Session -> Call string :=
  fun s =>
    match getActorHandle s (inl a) with
    | Val handle => Returns (Val handle)
    | Exn => Throws
    end.

(** [new MentionText(label, actor)] with that resolver. *)
Definition eager_mention : Heap * Inline :=
  new_MentionText (inr (eager_label alice)) (inl alice) empty_heap.

Definition bob_url : URL := mkURL "https://remote.example/users/bob".

(** Two mentions by URL, built one after the other: nodes 0 and 1. *)
Definition two_mentions : Heap * (Inline * Inline) :=
  let first := mention (inr alice_url) empty_heap in
  let second := mention (inr bob_url) first.1 in
  (second.1, (first.2, second.2)).

(** Generators are created on both nodes, and only the one on the second
    node is resumed, to its end. *)
Definition second_only : list Event :=
  let t0 := InlineNode two_mentions.2.1 in
  let t1 := InlineNode two_mentions.2.2 in
  [CallHtml finding_session t0; CallTags finding_session t1; CallCached t0;
   Resume 1; SettleLabel 0; Resume 1; Resume 1; SettleActor 0; Resume 1;
   Resume 1; SettleActor 0; CallCached t0].

(** * Lemmas *)

(** Induction on text trees that reaches the children of a template. *)
Lemma Text_tree_ind (P : Text -> Prop) :
  (forall i, P (InlineNode i)) ->
  (forall strings values, Forall P values -> P (TemplatedText strings values)) ->
  (forall r, P (MarkdownText r)) ->
  forall t, P t.
Proof.
  intros Hi Ht Hm.
  fix IH 1. intros [i|strings values|r]; [apply Hi| |apply Hm].
  apply Ht. induction values as [|v vs IHvs]; constructor; [apply IH|apply IHvs].
Qed.

Lemma owned_by_app {A} r (ps qs : list (Promise A)) :
  owned_by r (ps ++ qs) = owned_by r ps ++ owned_by r qs.
Proof. apply filter_app. Qed.

Lemma owned_by_insert_length {A} r p (pr pr' : Promise A) ps :
  ps !! p = Some pr -> p_owner pr' = p_owner pr ->
  length (owned_by r (<[p := pr']> ps)) = length (owned_by r ps).
Proof.
  revert p. induction ps as [|x ps IH]; intros [|p] Hp Ho; simpl in *; try done.
  - injection Hp as ->. unfold owned_by. rewrite !filter_cons.
    rewrite Ho. destruct (decide (p_owner pr = r)); done.
  - unfold owned_by in *. rewrite !filter_cons.
    destruct (decide (p_owner x = r)); simpl; rewrite (IH p); done.
Qed.

Lemma own_promise_insert {A} r slot p (pr pr' : Promise A) ps :
  ps !! p = Some pr -> p_owner pr' = p_owner pr ->
  own_promise r slot ps -> own_promise r slot (<[p := pr']> ps).
Proof.
  intros Hp Ho Hown q Hq. destruct (Hown q Hq) as (x & Hx & Hxo).
  destruct (decide (q = p)) as [->|Hne].
  - exists pr'. rewrite list_lookup_insert_eq by (eapply lookup_lt_Some; eauto).
    split; [done|]. congruence.
  - exists x. by rewrite list_lookup_insert_ne.
Qed.

Lemma own_promise_app {A} r slot (ps qs : list (Promise A)) :
  own_promise r slot ps -> own_promise r slot (ps ++ qs).
Proof.
  intros Hown q Hq. destruct (Hown q Hq) as (x & Hx & Hxo).
  exists x. split; [|done]. by apply lookup_app_l_Some.
Qed.

Lemma own_promise_None {A} r (ps : list (Promise A)) : own_promise r None ps.
Proof. by intros p. Qed.

Lemma Inv_unresolved h : unresolved h = true -> Inv h.
Proof.
  unfold unresolved. rewrite !andb_true_iff, !bool_decide_eq_true.
  intros [[Hl Ha] Hc] r c Hr.
  apply length_zero_iff_nil in Hl, Ha.
  rewrite forallb_forall in Hc.
  assert (Hu : unstarted c = true).
  { apply Hc, list_elem_of_In. eapply list_elem_of_lookup_2; eauto. }
  unfold unstarted in Hu. rewrite andb_true_iff, !bool_decide_eq_true in Hu.
  destruct Hu as [H1 H2].
  unfold cell_ok, label_promises, actor_promises.
  rewrite Hl, Ha, H1, H2. repeat split; try done; apply own_promise_None.
Qed.

Lemma Inv_settle_label p h : Inv h -> Inv (settle_label p h).
Proof.
  intros HI. unfold settle_label.
  destruct (labelPromises h !! p) as [pr|] eqn:E; [|done].
  intros r c Hr. simpl in Hr. destruct (HI r c Hr) as (H1 & H2 & H3 & H4).
  unfold cell_ok, label_promises, actor_promises in *. simpl.
  rewrite (owned_by_insert_length r p pr) by done.
  repeat split; try done. by apply (own_promise_insert r _ p pr).
Qed.

Lemma Inv_cache_actor owner v h : Inv h -> Inv (cache_actor owner v h).
Proof.
  intros HI. unfold cache_actor.
  destruct v as [[obj|]|]; try done.
  destruct (mentionCells h !! owner) as [c|] eqn:E; [|done].
  intros r c' Hr. simpl in Hr.
  destruct (decide (r = owner)) as [->|Hne].
  - rewrite list_lookup_insert_eq in Hr by (eapply lookup_lt_Some; eauto).
    injection Hr as <-. apply (HI owner c E).
  - rewrite list_lookup_insert_ne in Hr by done. apply (HI r c' Hr).
Qed.

Lemma Inv_settle_actor p h : Inv h -> Inv (settle_actor p h).
Proof.
  intros HI. unfold settle_actor.
  destruct (actorPromises h !! p) as [pr|] eqn:E; [|done].
  destruct (p_settled pr); [done|].
  apply Inv_cache_actor.
  intros r c Hr. simpl in Hr. destruct (HI r c Hr) as (H1 & H2 & H3 & H4).
  unfold cell_ok, label_promises, actor_promises in *. simpl.
  rewrite (owned_by_insert_length r p pr) by done.
  repeat split; try done. by apply (own_promise_insert r _ p pr).
Qed.

Lemma Inv_store_actors r actors h : Inv h -> Inv (store_actors r actors h).
Proof.
  intros HI. unfold store_actors.
  destruct (markdownCells h !! r); [|done].
  intros r' c Hr. apply (HI r' c Hr).
Qed.

Lemma owned_by_one {A} r (pr : Promise A) r' :
  p_owner pr = r' ->
  length (owned_by r [pr]) = if decide (r' = r) then 1 else 0.
Proof.
  intros <-. unfold owned_by. rewrite filter_cons, filter_nil.
  destruct (decide (p_owner pr = r)); done.
Qed.

(** A cell that differs from a good one in its cache and its counts of
    throws only is as good. *)
Lemma cell_ok_slots h r c c' :
  m_labelPromise c' = m_labelPromise c ->
  m_actorPromise c' = m_actorPromise c ->
  cell_ok h r c -> cell_ok h r c'.
Proof. unfold cell_ok. by intros -> ->. Qed.

Lemma Inv_getLabel s r h : Inv h -> Inv (getLabel s r h).1.
Proof.
  intros HI. unfold getLabel.
  destruct (mentionCells h !! r) as [c|] eqn:E; [|done].
  destruct (m_label c) as [l|resolver]; [done|].
  destruct (m_labelPromise c) as [p|] eqn:Ep; [done|].
  destruct (HI r c E) as (H1 & H2 & H3 & H4).
  rewrite Ep in H1. simpl in H1.
  destruct (resolver s) as [outcome|]; intros r' c' Hr; simpl in Hr.
  - destruct (decide (r' = r)) as [->|Hne].
    + rewrite list_lookup_insert_eq in Hr by (eapply lookup_lt_Some; eauto).
      injection Hr as <-.
      unfold cell_ok, label_promises, actor_promises in *. simpl.
      rewrite owned_by_app, length_app, (owned_by_one r _ r) by done.
      rewrite decide_True by done. rewrite H1.
      repeat split; try done.
      intros q [= <-]. eexists. split; [by apply list_lookup_middle|done].
    + rewrite list_lookup_insert_ne in Hr by done.
      destruct (HI r' c' Hr) as (G1 & G2 & G3 & G4).
      unfold cell_ok, label_promises, actor_promises in *. simpl.
      rewrite owned_by_app, length_app, (owned_by_one r' _ r) by done.
      rewrite decide_False by done. rewrite Nat.add_0_r.
      repeat split; try done. by apply own_promise_app.
  - destruct (decide (r' = r)) as [->|Hne].
    + rewrite list_lookup_insert_eq in Hr by (eapply lookup_lt_Some; eauto).
      injection Hr as <-.
      apply (cell_ok_slots h r c); [by rewrite Ep|done|].
      apply (HI r c E).
    + rewrite list_lookup_insert_ne in Hr by done. apply (HI r' c' Hr).
Qed.

Lemma Inv_getActor s r h : Inv h -> Inv (getActor_ s r h).1.
Proof.
  intros HI. unfold getActor_.
  destruct (mentionCells h !! r) as [c|] eqn:E; [|done].
  destruct (m_actor c) as [l|resolver]; [done|].
  destruct (m_actorPromise c) as [p|] eqn:Ep; [done|].
  destruct (HI r c E) as (H1 & H2 & H3 & H4).
  rewrite Ep in H2. simpl in H2.
  destruct (resolver s) as [outcome|]; intros r' c' Hr; simpl in Hr.
  - destruct (decide (r' = r)) as [->|Hne].
    + rewrite list_lookup_insert_eq in Hr by (eapply lookup_lt_Some; eauto).
      injection Hr as <-.
      unfold cell_ok, label_promises, actor_promises in *. simpl.
      rewrite owned_by_app, length_app, (owned_by_one r _ r) by done.
      rewrite decide_True by done. rewrite H2.
      repeat split; try done.
      intros q [= <-]. eexists. split; [by apply list_lookup_middle|done].
    + rewrite list_lookup_insert_ne in Hr by done.
      destruct (HI r' c' Hr) as (G1 & G2 & G3 & G4).
      unfold cell_ok, label_promises, actor_promises in *. simpl.
      rewrite owned_by_app, length_app, (owned_by_one r' _ r) by done.
      rewrite decide_False by done. rewrite Nat.add_0_r.
      repeat split; try done. by apply own_promise_app.
  - destruct (decide (r' = r)) as [->|Hne].
    + rewrite list_lookup_insert_eq in Hr by (eapply lookup_lt_Some; eauto).
      injection Hr as <-.
      apply (cell_ok_slots h r c); [done|by rewrite Ep|].
      apply (HI r c E).
    + rewrite list_lookup_insert_ne in Hr by done. apply (HI r' c' Hr).
Qed.

Create HintDb gens discriminated.
#[local] Hint Constructors good : gens.

Lemma good_suspend {Y} (g : Gen Y) : good g -> good (suspend g).
Proof. intros. constructor; auto. Qed.

Lemma good_yields {Y} (ys : list Y) k : good k -> good (yields ys k).
Proof. induction ys; simpl; auto with gens. Qed.

Lemma good_andThen {Y} (g k : Gen Y) : good g -> good k -> good (andThen g k).
Proof. induction 1; intros; simpl; auto with gens. Qed.

Lemma good_chain {Y} (gs : list (Gen Y)) : Forall good gs -> good (chain gs).
Proof.
  induction 1; simpl; [constructor|]. apply good_andThen; assumption.
Qed.

Lemma good_act_awaitLabel {Y} s r (k : res string -> Gen Y) :
  (forall v, good (k v)) ->
  good (act (getLabel s r) (fun a => awaitLabel a k)).
Proof.
  intros Hk. constructor; [intros h; apply Inv_getLabel|].
  intros h. destruct (getLabel s r h).2; simpl; auto with gens.
Qed.

Lemma good_act_awaitActor {Y} s r (k : res (option Object) -> Gen Y) :
  (forall v, good (k v)) ->
  good (act (getActor_ s r) (fun a => awaitActor a k)).
Proof.
  intros Hk. constructor; [intros h; apply Inv_getActor|].
  intros h. destruct (getActor_ s r h).2; simpl; auto with gens.
Qed.

Lemma good_mention_gen {Y} s r (out : string -> option Object -> list Y) :
  good (mention_gen s r out).
Proof.
  unfold mention_gen. apply good_act_awaitLabel. intros [label|]; [|constructor].
  apply good_act_awaitActor. intros [actor|]; [|constructor].
  apply good_yields. constructor.
Qed.

#[local] Hint Resolve good_suspend good_yields good_andThen good_mention_gen
  : gens.

Section GoodGenerators.
Context {platform : Platform}.

Lemma good_getHtml_inline s t : good (getHtml_inline s t).
Proof.
  induction t; simpl; auto 10 with gens.
  unfold emoji_html. constructor; [done|]. intros _.
  destruct (getEmoji emoji s) as [e|]; [|constructor].
  destruct (emoji_name e); auto with gens.
Qed.

Lemma good_getTags_inline s t : good (getTags_inline s t).
Proof.
  induction t; simpl; auto with gens.
  - unfold hashtag_tags. constructor; [done|]. intros _.
    destruct (hashtag_object _ _); auto with gens.
  - unfold emoji_tags. constructor; [done|]. intros _.
    destruct (getEmoji emoji s); auto with gens.
Qed.

Lemma good_getMentionedActors {Y} s r c
    (k : res (list (string * Object)) -> Gen Y) :
  (forall v, good (k v)) -> good (getMentionedActors s r c k).
Proof.
  intros Hk. unfold getMentionedActors.
  destruct (md_mentions c); [|auto with gens].
  destruct (md_actors c); [auto with gens|].
  apply good_suspend. destruct (getDocumentLoader s); [|auto with gens].
  apply good_suspend. destruct (lookup_all s l); [|auto with gens].
  constructor; [intros h; apply Inv_store_actors|]. auto with gens.
Qed.

Lemma good_render_chunk c env : good (render_chunk c env).
Proof.
  unfold render_chunk. destruct (md_render _ _ _) as [[html e]|]; auto with gens.
Qed.

Lemma good_markdown_hashtags s l : good (markdown_hashtags s l).
Proof.
  induction l; simpl; [constructor|].
  destruct (hashtag_object _ _); auto with gens.
Qed.

Lemma good_templated_html strings values opened :
  Forall (fun v => good v.2) values ->
  good (templated_html strings values opened).
Proof.
  revert values opened. induction strings as [|str strings IH];
    intros values opened Hv; simpl.
  - destruct opened; auto with gens.
  - apply good_yields. destruct Hv as [|[ty html] values Hg Hv]; [auto|].
    apply good_yields, good_andThen; auto.
Qed.

Lemma good_getHtml s t : good (getHtml s t).
Proof.
  induction t as [i|strings values IH|r] using Text_tree_ind; simpl.
  - apply good_getHtml_inline.
  - apply good_suspend, good_templated_html.
    induction IH; constructor; auto.
  - unfold markdown_html. constructor; [done|]. intros h.
    destruct (markdownCells h !! r) as [c|]; [|constructor].
    destruct (md_mentions c); [|apply good_render_chunk].
    apply good_getMentionedActors. intros [actors|]; [|constructor].
    apply good_render_chunk.
Qed.

Lemma good_getTags s t : good (getTags s t).
Proof.
  induction t as [i|strings values IH|r] using Text_tree_ind; simpl.
  - apply good_getTags_inline.
  - apply good_suspend, good_chain.
    induction IH; constructor; auto.
  - unfold markdown_tags. constructor; [done|]. intros h.
    destruct (markdownCells h !! r) as [c|]; [|constructor].
    destruct (md_mentions c); [|constructor].
    apply good_getMentionedActors. intros [actors|]; [|constructor].
    apply good_yields. destruct (md_hashtags c); [|constructor].
    apply good_markdown_hashtags.
Qed.

End GoodGenerators.

(** *** The invariant along any run of the machine *)

Lemma resume_ok {Y} (g : Gen Y) out h :
  good g -> Inv h -> Inv (resume g out h).1 /\ good (resume g out h).2.1.
Proof.
  intros Hg HI. destruct Hg; simpl; auto with gens.
  - destruct (labelPromises h !! p) as [pr|]; [|split; simpl; auto with gens].
    destruct (p_settled pr); split; simpl; auto with gens.
  - destruct (actorPromises h !! p) as [pr|]; [|split; simpl; auto with gens].
    destruct (p_settled pr); split; simpl; auto with gens.
Qed.

Lemma resume_task_ok t h :
  task_good t -> Inv h ->
  Inv (resume_task t h).1 /\ task_good (resume_task t h).2.
Proof.
  destruct t as [g out|g out]; simpl; intros Hg HI;
    destruct (resume_ok g out h Hg HI); auto.
Qed.

Section MachineInvariant.
Context {platform : Platform}.

Lemma step_ok e w : World_ok w -> World_ok (step e w).
Proof.
  intros [HI Ht]. destruct e as [s t|s t|t|i|p|p]; simpl.
  - split; [done|]. apply Forall_app; split; [done|].
    constructor; [apply good_getHtml|constructor].
  - split; [done|]. apply Forall_app; split; [done|].
    constructor; [apply good_getTags|constructor].
  - split; done.
  - destruct (tasks w !! i) as [t|] eqn:E; [|split; done].
    assert (Hg : task_good t) by (eapply Forall_lookup_1; eauto).
    destruct (resume_task_ok t (heap w) Hg HI) as [HI' Hg'].
    split; simpl; [done|]. apply Forall_insert; done.
  - split; [apply Inv_settle_label|]; done.
  - split; [apply Inv_settle_actor|]; done.
Qed.

Lemma exec_ok es w : World_ok w -> World_ok (exec es w).
Proof.
  revert w. induction es as [|e es IH]; intros w Hw; simpl; [done|].
  apply IH, step_ok, Hw.
Qed.

End MachineInvariant.

Lemma start_ok h : unresolved h = true -> World_ok (start h).
Proof. intros Hu. split; [apply Inv_unresolved, Hu|constructor]. Qed.

Lemma slot_count_le slot : slot_count slot <= 1.
Proof. destruct slot; simpl; lia. Qed.

(** ** Running generators: general facts *)

Lemma run_yields {Y} (ys : list Y) k h :
  run (yields ys k) h = ((run k h).1, (ys ++ (run k h).2.1, (run k h).2.2)).
Proof.
  induction ys as [|y ys IH]; simpl.
  - destruct (run k h) as [h' [out st]]; done.
  - rewrite IH. done.
Qed.

Lemma run_andThen {Y} (g k : Gen Y) h :
  run (andThen g k) h =
  match (run g h).2.2 with
  | Val _ =>
      let r := run k (run g h).1 in
      (r.1, ((run g h).2.1 ++ r.2.1, r.2.2))
  | Exn => run g h
  end.
Proof.
  revert h. induction g as [| |y g IH|f c IH|p c IH|p c IH]; intros h; simpl.
  - destruct (run k h) as [h' [out st]]; done.
  - done.
  - rewrite IH. destruct (run g h) as [h' [out [[]|]]]; done.
  - apply IH.
  - destruct (labelPromises (settle_label p h) !! p); [apply IH|done].
  - destruct (actorPromises (settle_actor p h) !! p); [apply IH|done].
Qed.

Lemma all_runs_Return {Y} (P : list Y -> Prop) : P [] -> all_runs P Return.
Proof. intros HP h _. exact HP. Qed.

Lemma all_runs_Raise {Y} (P : list Y -> Prop) : all_runs P Raise.
Proof. intros h. simpl. done. Qed.

Lemma all_runs_Yield {Y} (P : list Y -> Prop) y k :
  all_runs (fun out => P (y :: out)) k -> all_runs P (Yield y k).
Proof. intros Hk h. simpl. apply Hk. Qed.

Lemma all_runs_Effect {Y} (P : list Y -> Prop) f k :
  (forall h, all_runs P (k h)) -> all_runs P (Effect f k).
Proof. intros Hk h. simpl. apply Hk. Qed.

Lemma all_runs_suspend {Y} (P : list Y -> Prop) g :
  all_runs P g -> all_runs P (suspend g).
Proof. intros Hg. apply all_runs_Effect. intros _. exact Hg. Qed.

Lemma all_runs_AwaitLabel {Y} (P : list Y -> Prop) p k :
  (forall v, all_runs P (k v)) -> all_runs P (AwaitLabel p k).
Proof.
  intros Hk h. simpl.
  destruct (labelPromises (settle_label p h) !! p); [apply Hk|done].
Qed.

Lemma all_runs_AwaitActor {Y} (P : list Y -> Prop) p k :
  (forall v, all_runs P (k v)) -> all_runs P (AwaitActor p k).
Proof.
  intros Hk h. simpl.
  destruct (actorPromises (settle_actor p h) !! p); [apply Hk|done].
Qed.

Lemma all_runs_yields {Y} (P : list Y -> Prop) ys k :
  all_runs (fun out => P (ys ++ out)) k -> all_runs P (yields ys k).
Proof. intros Hk h. rewrite run_yields. simpl. apply Hk. Qed.

Lemma all_runs_andThen {Y} (P Q : list Y -> Prop) g k :
  all_runs Q g ->
  (forall out, Q out -> all_runs (fun out' => P (out ++ out')) k) ->
  all_runs P (andThen g k).
Proof.
  intros Hg Hk h. rewrite run_andThen.
  specialize (Hg h). destruct (run g h) as [h' [out [[]|]]]; simpl in *.
  - intros Hr. apply (Hk out (Hg eq_refl) h' Hr).
  - done.
Qed.

Lemma all_runs_mention_gen {Y} (P : list Y -> Prop) s r
    (out : string -> option Object -> list Y) :
  (forall label actor, P (out label actor)) ->
  all_runs P (mention_gen s r out).
Proof.
  intros HP. unfold mention_gen, act. apply all_runs_Effect. intros h.
  assert (Hk : forall v : res string, all_runs P
    match v with
    | Val label =>
        Effect (fun h0 => (getActor_ s r h0).1)
          (fun h0 => awaitActor (getActor_ s r h0).2
             (fun v0 => match v0 with
                        | Val actor => yields (out label actor) Return
                        | Exn => Raise
                        end))
    | Exn => Raise
    end).
  { intros [label|]; [|apply all_runs_Raise].
    apply all_runs_Effect. intros h0.
    assert (Hk : forall v0 : res (option Object), all_runs P
      match v0 with
      | Val actor => yields (out label actor) Return
      | Exn => Raise
      end).
    { intros [actor|]; [|apply all_runs_Raise].
      apply all_runs_yields, all_runs_Return. rewrite app_nil_r. apply HP. }
    destruct (getActor_ s r h0).2; simpl.
    - apply all_runs_Effect. intros _. apply Hk.
    - apply all_runs_AwaitActor, Hk.
    - apply all_runs_Raise. }
  destruct (getLabel s r h).2; simpl.
  - apply all_runs_Effect. intros _. apply Hk.
  - apply all_runs_AwaitLabel, Hk.
  - apply all_runs_Raise.
Qed.

(** ** Scanning for paragraph markers: general facts *)

Lemma append_nil (b : string) : EmptyString +:+ b = b.
Proof. reflexivity. Qed.

Lemma append_cons c (a b : string) : String c a +:+ b = String c (a +:+ b).
Proof. reflexivity. Qed.

Lemma scan_app st a b :
  scan st (a +:+ b) =
  ((scan (scan st a).1 b).1, (scan st a).2 ++ (scan (scan st a).1 b).2).
Proof.
  revert st. induction a as [|c a IH]; intros st.
  - rewrite append_nil. simpl. destruct (scan st b); done.
  - rewrite append_cons. simpl. rewrite IH. simpl. rewrite app_assoc. done.
Qed.

Lemma scan_join st chunks : scan st (join chunks) = scan_chunks st chunks.
Proof.
  revert st. induction chunks as [|c rest IH]; intros st; simpl; [done|].
  rewrite scan_app, IH. done.
Qed.

Lemma scan_chunks_app st a b :
  scan_chunks st (a ++ b) =
  ((scan_chunks (scan_chunks st a).1 b).1,
   (scan_chunks st a).2 ++ (scan_chunks (scan_chunks st a).1 b).2).
Proof.
  revert st. induction a as [|c a IH]; intros st; simpl.
  - destruct (scan_chunks st b); done.
  - rewrite IH. simpl. rewrite app_assoc. done.
Qed.

(** Decide the comparisons of two character literals in the goal, and
    those recorded in hypotheses. *)
Ltac eqb_literals :=
  repeat match goal with
  | H : Ascii.eqb ?a ?b = _ |- context [Ascii.eqb ?a ?b] => rewrite H
  | |- context [Ascii.eqb (Ascii ?a0 ?a1 ?a2 ?a3 ?a4 ?a5 ?a6 ?a7)
                          (Ascii ?b0 ?b1 ?b2 ?b3 ?b4 ?b5 ?b6 ?b7)] =>
      let t := constr:(Ascii.eqb (Ascii a0 a1 a2 a3 a4 a5 a6 a7)
                                 (Ascii b0 b1 b2 b3 b4 b5 b6 b7)) in
      let v := eval vm_compute in t in
      change t with v
  end.

Ltac markers_step :=
  cbn [markers Js.starts_with]; eqb_literals; cbn [andb app].

(** The automaton finds exactly the markers. *)
Lemma scan_markers st s : (scan st s).2 = markers (pending st +:+ s).
Proof.
  revert st. induction s as [|c s IH]; intros st.
  - destruct st; reflexivity.
  - cbn [scan]. cbn [fst snd]. rewrite IH. unfold scan_char.
    destruct (Ascii.eqb "<" c) eqn:Elt.
    { apply Ascii.eqb_eq in Elt. subst c. destruct st; reflexivity. }
    assert (E0 : markers (String c s) = markers s) by (markers_step; done).
    destruct st; cbn [pending fst snd].
    + rewrite !append_nil. rewrite E0. done.
    + destruct (Ascii.eqb "p" c) eqn:Ep.
      { apply Ascii.eqb_eq in Ep. subst c. reflexivity. }
      destruct (Ascii.eqb "/" c) eqn:Es.
      { apply Ascii.eqb_eq in Es. subst c. reflexivity. }
      cbn [pending fst snd]. rewrite !append_nil.
      change ("<" +:+ String c s) with (String "<" (String c s)).
      markers_step. done.
    + destruct (Ascii.eqb ">" c) eqn:Eg.
      * apply Ascii.eqb_eq in Eg. subst c. reflexivity.
      * cbn [pending fst snd]. rewrite !append_nil.
        change ("<p" +:+ String c s) with (String "<" (String "p" (String c s))).
        markers_step. done.
    + destruct (Ascii.eqb "p" c) eqn:Ep.
      { apply Ascii.eqb_eq in Ep. subst c. reflexivity. }
      cbn [pending fst snd]. rewrite !append_nil.
      change ("</" +:+ String c s) with (String "<" (String "/" (String c s))).
      markers_step. done.
    + destruct (Ascii.eqb ">" c) eqn:Eg.
      * apply Ascii.eqb_eq in Eg. subst c. reflexivity.
      * cbn [pending fst snd]. rewrite !append_nil.
        change ("</p" +:+ String c s)
          with (String "<" (String "/" (String "p" (String c s)))).
        markers_step. done.
Qed.

Lemma markers_scan s : markers s = (scan S0 s).2.
Proof. rewrite scan_markers. done. Qed.

Lemma inert_scan c : inert c = true -> scan S0 c = (S0, []).
Proof.
  unfold inert. destruct (scan S0 c) as [[] [|m ms]]; done.
Qed.

Lemma quiet_nil : quiet [].
Proof. reflexivity. Qed.

Lemma quiet_cons c rest : inert c = true -> quiet rest -> quiet (c :: rest).
Proof.
  unfold quiet. intros Hc Hr. simpl. rewrite (inert_scan c Hc). simpl.
  rewrite Hr. done.
Qed.

Lemma quiet_app a b : quiet a -> quiet b -> quiet (a ++ b).
Proof.
  unfold quiet. intros Ha Hb. rewrite scan_chunks_app, Ha. simpl.
  rewrite Hb. done.
Qed.

Lemma scan_encode_char c : scan S0 (Js.encode_char c) = (S0, []).
Proof.
  unfold Js.encode_char.
  destruct (nat_of_ascii c =? 60) eqn:E60; [reflexivity|].
  destruct (nat_of_ascii c =? 62); [reflexivity|].
  destruct (nat_of_ascii c =? 34); [reflexivity|].
  destruct (nat_of_ascii c =? 39); [reflexivity|].
  destruct (nat_of_ascii c =? 38); [reflexivity|].
  unfold Js.str1. cbn [scan]. unfold scan_char.
  destruct (Ascii.eqb "<" c) eqn:Elt; [|done].
  apply Ascii.eqb_eq in Elt. subst c. done.
Qed.

Lemma inert_encode s : inert (Js.encode s) = true.
Proof.
  unfold inert. replace (scan S0 (Js.encode s)) with (S0, @nil Marker); [done|].
  induction s as [|c s IH]; [done|].
  cbn [Js.encode]. rewrite scan_app, scan_encode_char. simpl. rewrite <- IH. done.
Qed.

Create HintDb quiet discriminated.
#[local] Hint Resolve quiet_nil quiet_cons quiet_app inert_encode : quiet.

Lemma quiet_plain_more lines : quiet (plain_more lines).
Proof. induction lines; simpl; auto with quiet. Qed.

Lemma quiet_plain_html text : quiet (plain_html text).
Proof.
  unfold plain_html. destruct (Js.split_lf text); simpl;
    auto using quiet_plain_more with quiet.
Qed.

Lemma quiet_mention_html label actor : quiet (mention_html label actor).
Proof.
  unfold mention_html. destruct (mention_url actor); [|auto with quiet].
  destruct (Js.startsWith_at label); simpl; auto 10 with quiet.
Qed.

Lemma quiet_hashtag_html s tag :
  inert tag = true -> quiet (hashtag_html s tag).
Proof. intros Ht. unfold hashtag_html. auto 10 with quiet. Qed.

(** The paragraph state along a concatenation of marker lists. *)
Lemma paragraphs_app opened ms1 ms2 :
  paragraphs opened (ms1 ++ ms2) =
  match paragraphs opened ms1 with
  | Some mid => paragraphs mid ms2
  | None => None
  end.
Proof.
  revert opened. induction ms1 as [|[] ms1 IH]; intros [|]; simpl; auto.
Qed.

(** Paragraphs in turn open as often as they close. *)
Lemma paragraphs_count a b ms :
  paragraphs a ms = Some b ->
  opens ms + Nat.b2n a = closes ms + Nat.b2n b.
Proof.
  unfold opens, closes. revert a.
  induction ms as [|[] ms IH]; intros [|]; simpl; intros H; try done.
  - injection H as <-. done.
  - injection H as <-. done.
  - specialize (IH _ H). simpl in IH. lia.
  - specialize (IH _ H). simpl in IH. lia.
Qed.

(** *** What the paragraph engine yields *)

Lemma tracks_quiet a chunks : quiet chunks -> tracks a chunks [] a.
Proof. intros Hq. split; [exact Hq|done]. Qed.

Lemma tracks_app a b c chunks1 chunks2 ms1 ms2 :
  tracks a chunks1 ms1 b -> tracks b chunks2 ms2 c ->
  tracks a (chunks1 ++ chunks2) (ms1 ++ ms2) c.
Proof.
  intros [H1 P1] [H2 P2]. split.
  - rewrite scan_chunks_app, H1. simpl. rewrite H2. done.
  - rewrite paragraphs_app, P1. exact P2.
Qed.

Lemma tracks_open : tracks false ["<p>"] [POpen] true.
Proof. split; reflexivity. Qed.

Lemma tracks_close : tracks true ["</p>"] [PClose] false.
Proof. split; reflexivity. Qed.

Lemma tracks_cons_inert a c rest ms b :
  inert c = true -> tracks a rest ms b -> tracks a (c :: rest) ms b.
Proof.
  intros Hc Hr. apply (tracks_app a a b [c] rest [] ms); [|exact Hr].
  apply tracks_quiet. auto with quiet.
Qed.

Lemma tracks_opening (opening opened : bool) :
  (opening = true -> opened = false) ->
  tracks opened (if opening then ["<p>"] else [])
         (if opening then [POpen] else []) (opening || opened).
Proof.
  destruct opening; simpl.
  - intros ->; [apply tracks_open|done].
  - intros _. apply tracks_quiet, quiet_nil.
Qed.

Lemma tracks_closing (closing opened : bool) :
  (closing = true -> opened = true) ->
  tracks opened (if closing then ["</p>"] else [])
         (if closing then [PClose] else [])
         (if closing then false else opened).
Proof.
  destruct closing; simpl.
  - intros ->; [apply tracks_close|done].
  - intros _. apply tracks_quiet, quiet_nil.
Qed.

Lemma render_lines_tracks lines l opened :
  tracks opened (render_lines lines l opened).1
         (if has_line lines && (l <? 1) && negb opened then [POpen] else [])
         (opened || (has_line lines && (l <? 1))).
Proof.
  revert l opened. induction lines as [|line rest IH]; intros l opened.
  - simpl. rewrite orb_false_r. apply tracks_quiet, quiet_nil.
  - cbn [render_lines has_line existsb].
    destruct (Js.is_empty (Js.trim line)) eqn:E; cbn [negb orb]; [apply IH|].
    cbn [fst snd andb].
    specialize (IH (S l) ((l <? 1) && negb opened || opened)).
    assert (Hs : (S l <? 1) = false) by (apply Nat.ltb_ge; lia).
    rewrite Hs, andb_false_r in IH. cbn [andb] in IH. rewrite orb_false_r in IH.
    replace (opened || (l <? 1)) with ((l <? 1) && negb opened || opened)
      by (destruct (l <? 1), opened; done).
    rewrite <- (app_nil_r (if (l <? 1) && negb opened then [POpen] else [])).
    eapply tracks_app.
    + apply tracks_opening. destruct (l <? 1), opened; done.
    + destruct (0 <? l); simpl; repeat apply tracks_cons_inert;
        auto with quiet.
Qed.

Lemma render_lines_state lines l opened :
  (render_lines lines l opened).2 = opened || (has_line lines && (l <? 1)).
Proof.
  revert l opened. induction lines as [|line rest IH]; intros l opened.
  - simpl. rewrite orb_false_r. done.
  - cbn [render_lines has_line existsb].
    destruct (Js.is_empty (Js.trim line)); cbn [negb orb snd andb]; [apply IH|].
    rewrite IH.
    assert (Hs : (S l <? 1) = false) by (apply Nat.ltb_ge; lia).
    rewrite Hs, andb_false_r. destruct (l <? 1), opened; done.
Qed.

(** The paragraphs of one literal: when the first of them starts with no
    paragraph open ([p] is positive or [opened] is false), one paragraph
    opens for each chunk that has a line. *)
Lemma render_paragraphs_tracks paras p opened :
  exists ms,
    tracks opened (render_paragraphs paras p opened).1 ms
           (render_paragraphs paras p opened).2 /\
    (1 <= p \/ opened = false ->
     opens ms = length (List.filter nonblank paras)).
Proof.
  revert p opened. induction paras as [|para rest IH]; intros p opened.
  - exists []. split; [apply tracks_quiet, quiet_nil|done].
  - cbn [render_paragraphs fst snd].
    set (closing := (0 <? p) && opened).
    set (o1 := if closing then false else opened).
    pose proof (render_lines_tracks (Js.split_lf para) 0 o1) as Hl.
    change (0 <? 1) with true in Hl. rewrite !andb_true_r in Hl.
    fold (nonblank para) in Hl.
    set (r1 := render_lines (Js.split_lf para) 0 o1) in *.
    destruct (IH (S p) r1.2) as (ms & Ht & Hc).
    assert (Hr1 : r1.2 = o1 || nonblank para).
    { unfold r1. rewrite render_lines_state.
      change (0 <? 1) with true. rewrite andb_true_r. done. }
    exists ((if closing then [PClose] else [])
            ++ (if nonblank para && negb o1 then [POpen] else []) ++ ms).
    split.
    + eapply tracks_app.
      * apply tracks_closing. unfold closing. destruct (0 <? p), opened; done.
      * eapply tracks_app; [|exact Ht].
        fold o1. rewrite Hr1. exact Hl.
    + intros Hstart.
      assert (Ho1 : o1 = false).
      { unfold o1, closing. destruct Hstart as [Hp| ->].
        - assert (E : (0 <? p) = true) by (apply Nat.ltb_lt; lia).
          rewrite E. destruct opened; done.
        - rewrite andb_false_r. done. }
      unfold opens in *. rewrite !List.filter_app, !length_app.
      rewrite Hc by (left; lia). rewrite Ho1. cbn [List.filter].
      destruct closing, (nonblank para); simpl; lia.
Qed.

Lemma all_runs_impl {Y} (P Q : list Y -> Prop) g :
  (forall out, P out -> Q out) -> all_runs P g -> all_runs Q g.
Proof. intros HPQ Hg h Hr. apply HPQ, Hg, Hr. Qed.

Lemma closes_all_app a b chunks1 ms1 chunks2 :
  tracks a chunks1 ms1 b -> closes_all b chunks2 ->
  closes_all a (chunks1 ++ chunks2).
Proof.
  intros H1 [ms2 H2]. exists (ms1 ++ ms2). eapply tracks_app; eauto.
Qed.

Lemma before_value_tracks ty opened :
  exists ms, tracks opened (before_value ty opened).1 ms
                    (before_value ty opened).2 /\
             (before_value ty opened).2 =
             match ty with inline => true | block => false end.
Proof.
  destruct ty, opened; simpl.
  - exists [PClose]. split; [apply tracks_close|done].
  - exists []. split; [apply tracks_quiet, quiet_nil|done].
  - exists []. split; [apply tracks_quiet, quiet_nil|done].
  - exists [POpen]. split; [apply tracks_open|done].
Qed.

Lemma templated_html_closes strings values opened :
  Forall child_ok values ->
  all_runs (closes_all opened) (templated_html strings values opened).
Proof.
  revert values opened. induction strings as [|str strings IH];
    intros values opened Hv.
  - simpl. destruct opened.
    + apply all_runs_Yield, all_runs_Return. exists [PClose]. apply tracks_close.
    + apply all_runs_Return. exists []. apply tracks_quiet, quiet_nil.
  - cbn [templated_html]. apply all_runs_yields.
    unfold render_literal.
    destruct (render_paragraphs_tracks (Js.split_paragraphs str) 0 opened)
      as (ms1 & Ht1 & _).
    set (r := render_paragraphs (Js.split_paragraphs str) 0 opened) in *.
    destruct Hv as [|[ty html] values Hc Hv].
    + eapply all_runs_impl; [|apply (IH [] r.2); constructor].
      intros out Hout. eapply closes_all_app; eauto.
    + destruct (before_value_tracks ty r.2) as (msb & Htb & Hb).
      set (b := before_value ty r.2) in *.
      apply all_runs_yields.
      unfold child_ok in Hc. simpl in Hc.
      destruct ty.
      * eapply all_runs_andThen; [exact Hc|].
        intros out [msc Hout].
        eapply all_runs_impl; [|apply (IH values b.2 Hv)].
        intros out' Hout'.
        eapply closes_all_app; [exact Ht1|].
        eapply closes_all_app; [exact Htb|].
        rewrite Hb in *. eapply closes_all_app; [exact Hout|exact Hout'].
      * eapply all_runs_andThen; [exact Hc|].
        intros out Hout.
        eapply all_runs_impl; [|apply (IH values b.2 Hv)].
        intros out' Hout'.
        eapply closes_all_app; [exact Ht1|].
        eapply closes_all_app; [exact Htb|].
        rewrite Hb in *.
        eapply closes_all_app; [apply tracks_quiet, Hout|exact Hout'].
Qed.

Section ParagraphBalance.
Context {platform : Platform}.

Lemma quiet_getHtml_inline s t :
  marker_free_inline t = true -> all_runs quiet (getHtml_inline s t).
Proof.
  induction t as [text|r|tag|t IH|t IH|label IH target|t IH|emoji];
    cbn [getHtml_inline marker_free_inline]; intros Hf.
  - apply all_runs_suspend, all_runs_yields, all_runs_Return.
    rewrite app_nil_r. apply quiet_plain_html.
  - apply all_runs_mention_gen. apply quiet_mention_html.
  - apply all_runs_suspend, all_runs_yields, all_runs_Return.
    rewrite app_nil_r. apply quiet_hashtag_html, Hf.
  - apply all_runs_suspend, all_runs_Yield.
    eapply all_runs_andThen; [apply IH, Hf|].
    intros out Hout. apply all_runs_Yield, all_runs_Return.
    apply quiet_cons; [done|]. apply quiet_app; auto with quiet.
  - apply all_runs_suspend, all_runs_Yield.
    eapply all_runs_andThen; [apply IH, Hf|].
    intros out Hout. apply all_runs_Yield, all_runs_Return.
    apply quiet_cons; [done|]. apply quiet_app; auto with quiet.
  - apply all_runs_suspend, all_runs_yields.
    eapply all_runs_andThen; [apply IH, Hf|].
    intros out Hout. apply all_runs_Yield, all_runs_Return.
    apply quiet_app; [auto 10 with quiet|].
    apply quiet_app; auto with quiet.
  - apply all_runs_suspend, all_runs_Yield.
    eapply all_runs_andThen; [apply IH, Hf|].
    intros out Hout. apply all_runs_Yield, all_runs_Return.
    apply quiet_cons; [done|]. apply quiet_app; auto with quiet.
  - unfold emoji_html. apply all_runs_Effect. intros _.
    destruct (getEmoji emoji s) as [e|]; [|apply all_runs_Raise].
    destruct (emoji_name e) as [name|]; [|apply all_runs_Return, quiet_nil].
    apply all_runs_yields, all_runs_Return. auto 10 with quiet.
Qed.

Lemma all_runs_getMentionedActors {Y} (P : list Y -> Prop) s r c
    (k : res (list (string * Object)) -> Gen Y) :
  (forall v, all_runs P (k v)) -> all_runs P (getMentionedActors s r c k).
Proof.
  intros Hk. unfold getMentionedActors.
  destruct (md_mentions c); [|apply all_runs_suspend, Hk].
  destruct (md_actors c); [apply all_runs_suspend, Hk|].
  apply all_runs_suspend.
  destruct (getDocumentLoader s); [|apply all_runs_suspend, Hk].
  apply all_runs_suspend.
  destruct (lookup_all s l); [|apply all_runs_suspend, Hk].
  apply all_runs_Effect. intros _. apply all_runs_suspend, Hk.
Qed.

(** The parser returns whole paragraphs. *)
Hypothesis parser_whole : forall md content env html env',
  md_render md content env = Val (html, env') -> whole [html].

Lemma whole_render_chunk c env : all_runs whole (render_chunk c env).
Proof.
  unfold render_chunk.
  destruct (md_render _ _ _) as [[html e]|] eqn:E; [|apply all_runs_Raise].
  apply all_runs_Yield, all_runs_Return. eapply parser_whole, E.
Qed.

Lemma getHtml_child_ok s t :
  marker_free t = true -> child_ok (type_of t, getHtml s t).
Proof.
  induction t as [i|strings values IH|r] using Text_tree_ind;
    unfold child_ok; simpl; intros Hf.
  - apply quiet_getHtml_inline, Hf.
  - apply all_runs_suspend, templated_html_closes.
    induction IH as [|v values Hv _ IHvs]; simpl in *; constructor.
    + apply Hv. apply andb_true_iff in Hf. tauto.
    + apply IHvs. apply andb_true_iff in Hf. tauto.
  - unfold markdown_html. apply all_runs_Effect. intros h.
    destruct (markdownCells h !! r) as [c|]; [|apply all_runs_Raise].
    destruct (md_mentions c); [|apply whole_render_chunk].
    apply all_runs_getMentionedActors.
    intros [actors|]; [apply whole_render_chunk|apply all_runs_Raise].
Qed.

End ParagraphBalance.

(** *** The pieces of a literal *)

Lemma is_hws_cases c : Js.is_hws c = true -> c = Js.SP \/ c = Js.TAB.
Proof.
  unfold Js.is_hws. rewrite orb_true_iff, !Ascii.eqb_eq. done.
Qed.

Lemma split_lf_cons s : exists h t, Js.split_lf s = h :: t.
Proof.
  induction s as [|c s (h & t & IH)]; simpl; [eauto|].
  destruct (Ascii.eqb c Js.LF); [eauto|]. rewrite IH. eauto.
Qed.

Lemma nonblank_hws c m :
  Js.is_hws c = true -> nonblank (String c m) = nonblank m.
Proof.
  intros Hc. unfold nonblank.
  destruct (split_lf_cons m) as (h & t & E).
  assert (Hs : Js.split_lf (String c m) = String c h :: t).
  { cbn [Js.split_lf]. rewrite E.
    destruct (is_hws_cases c Hc) as [-> | ->]; reflexivity. }
  rewrite Hs, E. cbn [existsb].
  assert (Ht : Js.trim (String c h) = Js.trim h).
  { unfold Js.trim. destruct (is_hws_cases c Hc) as [-> | ->]; reflexivity. }
  rewrite Ht. done.
Qed.

Lemma line_end_blank s m rest :
  Js.line_end s = Some (m, rest) -> nonblank m = false.
Proof.
  revert m rest. induction s as [|c s IH]; intros m rest; simpl; [done|].
  destruct (Js.is_hws c) eqn:Hc.
  - destruct (Js.line_end s) as [[m' rest']|]; [|done].
    intros [= <- <-]. rewrite nonblank_hws by done. eapply IH; eauto.
  - destruct (Ascii.eqb c Js.LF); [intros [= <- <-]; reflexivity|].
    destruct (Ascii.eqb c Js.CR); [|done].
    destruct s as [|c' s']; [done|].
    destruct (Ascii.eqb c' Js.LF); [|done]. intros [= <- <-]. reflexivity.
Qed.

Lemma line_ends_blank last s :
  nonblank last = false -> nonblank (Js.line_ends last s).1 = false.
Proof.
  funelim (Js.line_ends last s); intros Hl; simpl; [|done].
  apply H. eapply line_end_blank; eauto.
Qed.

Lemma match_sep_blank s cap rest :
  Js.match_sep s = Some (cap, rest) -> nonblank cap = false.
Proof.
  unfold Js.match_sep.
  destruct (Js.line_end s) as [[m1 r1]|]; [|done].
  destruct (Js.line_end r1) as [[m2 r2]|] eqn:E2; [|done].
  intros [= H]. pose proof (line_ends_blank m2 r2 (line_end_blank _ _ _ E2)) as Hb.
  rewrite H in Hb. exact Hb.
Qed.

Lemma odds_cons2 {A} (x y : A) l : odds (x :: y :: l) = y :: odds l.
Proof. destruct l; reflexivity. Qed.

Lemma evens_cons2 {A} (x y : A) l : evens (x :: y :: l) = x :: evens l.
Proof. reflexivity. Qed.

(** The captures spliced into the pieces are blank. *)
Lemma split_blank_captures cur s :
  Forall (fun cap => nonblank cap = false) (odds (Js.split_blank cur s)).
Proof.
  funelim (Js.split_blank cur s).
  - constructor.
  - rewrite odds_cons2. constructor; [|assumption].
    eapply match_sep_blank; eauto.
  - assumption.
Qed.

Lemma filter_evens_odds {A} (f : A -> bool) l :
  length (List.filter f l) =
  length (List.filter f (evens l)) + length (List.filter f (odds l)).
Proof.
  assert (H : forall n (l : list A), length l <= n ->
    length (List.filter f l) =
    length (List.filter f (evens l)) + length (List.filter f (odds l))).
  { induction n as [|n IH]; intros [|x [|y l']] Hl; simpl in *;
      try lia; try (destruct (f x); simpl; lia).
    change (match l' with [] => [] | x0 :: rest => x0 ::
              match rest with [] => [] | _ :: rest' => evens rest' end end)
      with (evens l').
    assert (Hl' : length l' <= n) by lia.
    assert (Hl'' : length l' <= S n) by lia.
    specialize (IH l' Hl'). 
    assert (Ho : match l' with [] => [] | _ :: rest' => evens rest' end = odds l')
      by reflexivity.
    rewrite Ho.
    destruct (f x), (f y); simpl; lia. }
  apply (H (length l)). lia.
Qed.

(** One paragraph per chunk that has a line. *)
Lemma nonblank_pieces literal :
  length (List.filter nonblank (Js.split_paragraphs literal)) =
  length (List.filter nonblank (chunks_of literal)).
Proof.
  rewrite filter_evens_odds. unfold chunks_of.
  assert (H : List.filter nonblank (odds (Js.split_paragraphs literal)) = []).
  { pose proof (split_blank_captures EmptyString literal) as Hc.
    unfold Js.split_paragraphs.
    induction Hc as [|c l Hb _ IH]; simpl; [done|]. rewrite Hb. exact IH. }
  rewrite H. simpl. lia.
Qed.

Lemma filter_all {A} (f : A -> bool) l :
  forallb f l = true -> List.filter f l = l.
Proof.
  induction l as [|x l IH]; simpl; [done|].
  rewrite andb_true_iff. intros [-> Hl]. rewrite IH; done.
Qed.

(** *** Literals written as chunks and boundaries: the split finds them *)

Lemma split_blank_match cur c r cap rest :
  Js.match_sep (String c r) = Some (cap, rest) ->
  Js.split_blank cur (String c r) = cur :: cap :: Js.split_blank EmptyString rest.
Proof.
  intros Hm. remember (String c r) as s eqn:Es.
  funelim (Js.split_blank cur s); try discriminate;
    match goal with H : String _ _ = String _ _ |- _ => injection H as -> -> end;
    congruence.
Qed.

Lemma split_blank_nomatch cur c r :
  Js.match_sep (String c r) = None ->
  Js.split_blank cur (String c r) = Js.split_blank (cur +:+ Js.str1 c) r.
Proof.
  intros Hm. remember (String c r) as s eqn:Es.
  funelim (Js.split_blank cur s); try discriminate;
    match goal with H : String _ _ = String _ _ |- _ => injection H as -> -> end;
    congruence.
Qed.

Lemma line_ends_step last s m rest :
  Js.line_end s = Some (m, rest) -> Js.line_ends last s = Js.line_ends m rest.
Proof.
  intros Hm. funelim (Js.line_ends last s); [|congruence].
  assert (Some (m0, rest0) = Some (m, rest)) as [= -> ->] by congruence. done.
Qed.

Lemma line_ends_stop last s :
  Js.line_end s = None -> Js.line_ends last s = (last, s).
Proof.
  intros Hm. funelim (Js.line_ends last s); [congruence|done].
Qed.

Lemma line_end_of_text e rest :
  line_end_text e -> Js.line_end (e +:+ rest) = Some (e, rest).
Proof.
  induction 1 as [| |c m Hc _ IH].
  - reflexivity.
  - reflexivity.
  - rewrite append_cons. cbn [Js.line_end]. rewrite Hc, IH. done.
Qed.

(** A one-line chunk does not start a line end, whatever follows. *)
Lemma line_end_one_line c rest :
  one_line c = true -> Js.line_end (c +:+ rest) = None.
Proof.
  induction c as [|x c IH]; [discriminate|].
  intros Hc. rewrite append_cons. cbn [Js.line_end].
  destruct c as [|y c'].
  - cbn [one_line] in Hc. rewrite !andb_true_iff, !negb_true_iff in Hc.
    destruct Hc as [[-> ->] ->]. done.
  - assert (Hx : Ascii.eqb x Js.LF = false /\ one_line (String y c') = true).
    { cbn [one_line] in Hc. rewrite andb_true_iff, negb_true_iff in Hc. done. }
    destruct Hx as [Hx Hr]. rewrite (IH Hr), Hx.
    destruct (Js.is_hws x); [done|].
    destruct (Ascii.eqb x Js.CR); [|done].
    rewrite append_cons.
    assert (Hy : Ascii.eqb y Js.LF = false).
    { destruct c'; cbn [one_line] in Hr;
        rewrite !andb_true_iff, !negb_true_iff in Hr; tauto. }
    rewrite Hy. done.
Qed.

Lemma match_sep_one_line c rest :
  one_line c = true -> Js.match_sep (c +:+ rest) = None.
Proof.
  intros Hc. unfold Js.match_sep. rewrite line_end_one_line by done. done.
Qed.

Lemma append_assoc (a b c : string) : (a +:+ b) +:+ c = a +:+ (b +:+ c).
Proof.
  induction a as [|x a IH]; [done|]. rewrite !append_cons, IH. done.
Qed.

Lemma append_nil_r (a : string) : a +:+ EmptyString = a.
Proof. induction a as [|x a IH]; [done|]. rewrite append_cons, IH. done. Qed.

(** Behind a boundary the scan of line ends stops where what follows does
    not start one. *)
Lemma line_ends_boundary last b rest :
  boundary b -> Js.line_end rest = None ->
  exists cap, Js.line_ends last (b +:+ rest) = (cap, rest).
Proof.
  intros Hb Hrest. revert last.
  induction Hb as [e1 e2 H1 H2|e b He Hb IH]; intros last.
  - exists e2. rewrite append_assoc.
    rewrite (line_ends_step last _ e1 (e2 +:+ rest)) by
      (apply line_end_of_text, H1).
    rewrite (line_ends_step e1 _ e2 rest) by (apply line_end_of_text, H2).
    apply line_ends_stop, Hrest.
  - destruct (IH e) as [cap Hcap]. exists cap. rewrite append_assoc.
    rewrite (line_ends_step last _ e (b +:+ rest)) by
      (apply line_end_of_text, He).
    exact Hcap.
Qed.

Lemma boundary_starts b :
  boundary b -> exists e t, b = e +:+ t /\ line_end_text e.
Proof. destruct 1; eauto. Qed.

Lemma match_sep_boundary b rest :
  boundary b -> Js.line_end rest = None ->
  exists cap, Js.match_sep (b +:+ rest) = Some (cap, rest).
Proof.
  intros Hb Hrest. unfold Js.match_sep.
  destruct Hb as [e1 e2 H1 H2|e b He Hb].
  - exists e2. rewrite append_assoc, (line_end_of_text e1 _ H1).
    rewrite (line_end_of_text e2 _ H2). rewrite line_ends_stop by done. done.
  - destruct (line_ends_boundary e b rest Hb Hrest) as [cap Hcap].
    exists cap. rewrite append_assoc, (line_end_of_text e _ He).
    destruct (boundary_starts b Hb) as (e' & t & -> & He').
    rewrite append_assoc in *. rewrite (line_end_of_text e' _ He').
    rewrite (line_ends_step e _ e' (t +:+ rest)) in Hcap by
      (apply line_end_of_text, He').
    rewrite Hcap. done.
Qed.

Lemma line_end_text_cons e : line_end_text e -> exists x e', e = String x e'.
Proof. destruct 1; eauto. Qed.

Lemma one_line_tail x y c :
  one_line (String x (String y c)) = true -> one_line (String y c) = true.
Proof.
  cbn [one_line]. rewrite andb_true_iff. tauto.
Qed.

(** Scanning a one-line chunk that ends the literal or is followed by a
    boundary and something that does not start a line end. *)
Lemma split_blank_chunk_end cur c :
  one_line c = true -> Js.split_blank cur c = [cur +:+ c].
Proof.
  revert cur. induction c as [|x c IH]; intros cur Hc; [discriminate|].
  pose proof (match_sep_one_line _ EmptyString Hc) as Hm.
  rewrite append_nil_r in Hm. rewrite (split_blank_nomatch _ _ _ Hm).
  destruct c as [|y c'].
  - simp split_blank. done.
  - rewrite (IH _ (one_line_tail _ _ _ Hc)).
    unfold Js.str1. rewrite append_assoc. done.
Qed.

Lemma split_blank_chunk cur c b rest :
  one_line c = true -> boundary b -> Js.line_end rest = None ->
  exists cap,
    Js.split_blank cur (c +:+ b +:+ rest)
    = (cur +:+ c) :: cap :: Js.split_blank EmptyString rest.
Proof.
  intros Hc Hb Hrest. destruct (match_sep_boundary b rest Hb Hrest) as [cap Hcap].
  exists cap. revert cur. induction c as [|x c IH]; intros cur; [discriminate|].
  pose proof (match_sep_one_line _ (b +:+ rest) Hc) as Hm.
  rewrite append_cons in *. rewrite (split_blank_nomatch _ _ _ Hm).
  destruct c as [|y c'].
  - rewrite append_nil.
    destruct (boundary_starts b Hb) as (e & t & -> & He).
    destruct (line_end_text_cons e He) as (z & e' & ->).
    rewrite !append_assoc, append_cons in *.
    rewrite (split_blank_match _ _ _ _ _ Hcap). done.
  - rewrite (IH (one_line_tail _ _ _ Hc)).
    unfold Js.str1. rewrite append_assoc. done.
Qed.

Lemma assemble_starts c more : exists t, assemble c more = c +:+ t.
Proof.
  destruct more as [|[sep c'] more]; simpl; [|eauto].
  exists EmptyString. rewrite append_nil_r. done.
Qed.

(** A template of one literal and no values. *)
Lemma single_literal_paragraphs {platform : Platform} (s : Session)
    (literal : string) (h : Heap) :
  let r1 := run (getHtml s (TemplatedText [literal] [])) h in
  r1.1 = h /\ r1.2.2 = Val tt /\ balanced (join r1.2.1) /\
  opens (markers (join r1.2.1))
    = length (List.filter nonblank (chunks_of literal)) /\
  closes (markers (join r1.2.1))
    = length (List.filter nonblank (chunks_of literal)) /\
  (forallb nonblank (chunks_of literal) = true ->
   opens (markers (join r1.2.1)) = length (chunks_of literal) /\
   closes (markers (join r1.2.1)) = length (chunks_of literal)).
Proof.
  intros r1. subst r1. cbn [getHtml map suspend run]. unfold id.
  cbn [templated_html]. rewrite run_yields. unfold render_literal.
  destruct (render_paragraphs_tracks (Js.split_paragraphs literal) 0 false)
    as (ms & [Hscan Hpar] & Hopens).
  specialize (Hopens (or_intror eq_refl)).
  set (rp := render_paragraphs (Js.split_paragraphs literal) 0 false) in *.
  set (tail := if rp.2 then Yield "</p>" Return else Return).
  assert (Htail : run tail h
                  = (h, ((if rp.2 then ["</p>"] else []), Val tt))).
  { unfold tail. destruct rp.2; reflexivity. }
  rewrite Htail. cbn [fst snd].
  assert (Hm : markers (join (rp.1 ++ (if rp.2 then ["</p>"] else [])))
               = ms ++ (if rp.2 then [PClose] else [])).
  { rewrite markers_scan, scan_join, scan_chunks_app, Hscan. cbn [fst snd].
    destruct rp.2; reflexivity. }
  assert (Hbal : paragraphs false (ms ++ (if rp.2 then [PClose] else []))
                 = Some false).
  { rewrite paragraphs_app, Hpar. destruct rp.2; reflexivity. }
  assert (Ho : opens (ms ++ (if rp.2 then [PClose] else []))
               = length (List.filter nonblank (chunks_of literal))).
  { rewrite <- nonblank_pieces, <- Hopens. unfold opens.
    rewrite List.filter_app, length_app. destruct rp.2; simpl; lia. }
  pose proof (paragraphs_count _ _ _ Hbal) as Hcount. simpl in Hcount.
  unfold balanced. rewrite Hm.
  split; [done|]. split; [done|]. split; [exact Hbal|].
  split; [exact Ho|]. split; [lia|].
  intros Hall. rewrite (filter_all _ _ Hall) in Ho. lia.
Qed.

(** ** Running a mention node on its own *)

Lemma run_yields_Return {Y} (ys : list Y) h :
  run (yields ys Return) h = (h, (ys, Val tt)).
Proof. rewrite run_yields. simpl. rewrite app_nil_r. done. Qed.

Lemma actorPromises_cache_actor owner v h :
  actorPromises (cache_actor owner v h) = actorPromises h.
Proof.
  unfold cache_actor. destruct v as [[o|]|]; try done.
  destruct (mentionCells h !! owner); done.
Qed.

Lemma settled_actor_lookup p h :
  actorPromises (settle_actor p h) !! p =
  mark_settled <$> actorPromises h !! p.
Proof.
  unfold settle_actor. destruct (actorPromises h !! p) as [pr|] eqn:E.
  - destruct (p_settled pr) eqn:Es.
    + rewrite E. simpl. destruct pr. simpl in Es. rewrite Es. done.
    + rewrite actorPromises_cache_actor. simpl.
      rewrite list_lookup_insert_eq by (eapply lookup_lt_Some; eauto). done.
  - rewrite E. done.
Qed.

Lemma settled_label_lookup p h :
  labelPromises (settle_label p h) !! p =
  mark_settled <$> labelPromises h !! p.
Proof.
  unfold settle_label. destruct (labelPromises h !! p) as [pr|] eqn:E.
  - simpl. rewrite list_lookup_insert_eq by (eapply lookup_lt_Some; eauto).
    done.
  - rewrite E. done.
Qed.

Lemma run_actor_phase {Y} s r c h (f : option Object -> list Y) :
  mentionCells h !! r = Some c ->
  (run (awaitActor (getActor_ s r h).2 (fun v =>
          match v with
          | Val actor => yields (f actor) Return
          | Exn => Raise
          end)) (getActor_ s r h).1).2 =
  match actor_outcome s c h with
  | Val actor => (f actor, Val tt)
  | Exn => ([], Exn)
  end.
Proof.
  intros Hc. unfold actor_outcome, getActor_.
  rewrite Hc. destruct (m_actor c) as [a|resolver]; cbn [fst snd awaitActor].
  - cbn [run]. rewrite run_yields_Return. done.
  - destruct (m_actorPromise c) as [p|]; cbn [fst snd awaitActor run].
    + rewrite settled_actor_lookup.
      destruct (actorPromises h !! p) as [pr|]; simpl; [|done].
      destruct (p_outcome pr); [rewrite run_yields_Return|]; done.
    + destruct (resolver s) as [outcome|]; cbn [fst snd awaitActor run];
        [|done].
      rewrite settled_actor_lookup. simpl.
      rewrite list_lookup_middle by done. simpl.
      destruct outcome; [rewrite run_yields_Return|]; done.
Qed.

Lemma run_mention_gen {Y} s r c h (out : string -> option Object -> list Y) :
  mentionCells h !! r = Some c ->
  (run (mention_gen s r out) h).2 =
  match label_outcome s c h with
  | Exn => ([], Exn)
  | Val label =>
      match actor_outcome s c h with
      | Exn => ([], Exn)
      | Val actor => (out label actor, Val tt)
      end
  end.
Proof.
  intros Hc. unfold mention_gen, act. cbn [run].
  unfold label_outcome, getLabel. rewrite Hc.
  destruct (m_label c) as [l|resolver] eqn:El; cbn [fst snd awaitLabel run].
  - unfold id. rewrite (run_actor_phase s r c h (out l) Hc).
    destruct (actor_outcome s c h); done.
  - destruct (m_labelPromise c) as [p|] eqn:Ep; cbn [fst snd awaitLabel run].
    + rewrite settled_label_lookup.
      destruct (labelPromises h !! p) as [pr|] eqn:Epr; simpl; [|done].
      destruct (p_outcome pr) as [label|]; [|done].
      unfold settle_label. rewrite Epr. cbn [run].
      erewrite (run_actor_phase s r c _ (out label)) by (simpl; exact Hc).
      unfold actor_outcome. simpl. done.
    + destruct (resolver s) as [outcome|]; cbn [fst snd awaitLabel run];
        [|done].
      rewrite settled_label_lookup. simpl.
      rewrite list_lookup_middle by done. simpl.
      destruct outcome as [label|]; [|done].
      unfold settle_label. simpl labelPromises.
      rewrite list_lookup_middle by done. cbn [run].
      erewrite (run_actor_phase s r _ _ (out label)).
      2:{ simpl. apply list_lookup_insert_eq. eapply lookup_lt_Some; eauto. }
      unfold actor_outcome. simpl. done.
Qed.

(** ** Leaving a loop early *)

Lemma for_await_some_true {Y} (test : Y -> bool) g h :
  (for_await_some test g h).2 = Val true <->
  existsb test (run g h).2.1 = true.
Proof.
  revert h. induction g as [| |y g IH|f c IH|p c IH|p c IH]; intros h; simpl.
  - split; discriminate.
  - split; discriminate.
  - destruct (test y); simpl; [done|]. apply IH.
  - apply IH.
  - destruct (labelPromises (settle_label p h) !! p); [apply IH|].
    simpl. split; discriminate.
  - destruct (actorPromises (settle_actor p h) !! p); [apply IH|].
    simpl. split; discriminate.
Qed.

Lemma for_await_some_false {Y} (test : Y -> bool) g h :
  (for_await_some test g h).2 = Val false <->
  existsb test (run g h).2.1 = false /\ (run g h).2.2 = Val tt.
Proof.
  revert h. induction g as [| |y g IH|f c IH|p c IH|p c IH]; intros h; simpl.
  - done.
  - split; [discriminate|intros [_ ?]; discriminate].
  - destruct (test y); simpl; [|apply IH].
    split; [discriminate|intros [? _]; discriminate].
  - apply IH.
  - destruct (labelPromises (settle_label p h) !! p); [apply IH|].
    simpl. split; [discriminate|intros [_ ?]; discriminate].
  - destruct (actorPromises (settle_actor p h) !! p); [apply IH|].
    simpl. split; [discriminate|intros [_ ?]; discriminate].
Qed.

(** ** Heaps as the constructors leave them *)

Lemma forallb_lookup {A} (f : A -> bool) (l : list A) i x :
  forallb f l = true -> l !! i = Some x -> f x = true.
Proof.
  intros Hf Hx. rewrite forallb_forall in Hf.
  apply Hf, list_elem_of_In. eapply list_elem_of_lookup_2; eauto.
Qed.

(** The constructors start no resolution. *)
Lemma unresolved_new_MentionText label actor h :
  unresolved h = true -> unresolved (new_MentionText label actor h).1 = true.
Proof.
  unfold unresolved. simpl. rewrite !andb_true_iff, forallb_app. simpl.
  rewrite !andb_true_iff. intuition.
Qed.

Lemma unresolved_new_MarkdownText {platform : Platform} content options h :
  unresolved h = true ->
  unresolved (new_MarkdownText content options h).1 = true.
Proof.
  intros Hu. unfold new_MarkdownText.
  destruct (discover_mentions _ _ _) as [[md1 ms]|]; [|done].
  destruct (discover_hashtags _ _ _) as [[md2 hs]|]; done.
Qed.

Lemma unresolved_new_TemplatedText strings values h :
  unresolved h = true ->
  unresolved (new_TemplatedText strings values h).1 = true.
Proof.
  unfold new_TemplatedText. simpl. revert h.
  induction values as [|v vs IH]; intros h Hu; simpl; [done|].
  apply IH. destruct v; simpl; try done.
  apply unresolved_new_MentionText, Hu.
Qed.

(** ** Facts about the sample environment and small helpers *)

(** The sample parser returns one whole paragraph. *)
Lemma sample_parser_whole md content env html env' :
  md_render (Platform := sample_platform) md content env = Val (html, env') ->
  whole [html].
Proof.
  simpl. intros [= <- _]. exists [POpen; PClose]. split; [|reflexivity].
  cbn [scan_chunks]. rewrite scan_app. cbn [fst snd].
  change (scan S0 "<p>") with (S0, [POpen]). cbn [fst snd].
  rewrite scan_app, (inert_scan _ (inert_encode content)). reflexivity.
Qed.

Lemma mentions_url_exists target tags :
  existsb (mentions_url target) tags = true <->
  exists name u, In (Mention name (Some u)) tags /\ href u = href target.
Proof.
  rewrite existsb_exists. split.
  - intros ([name [u|]| |] & Hin & Ht); simpl in Ht; try discriminate.
    apply String.eqb_eq in Ht. eauto.
  - intros (name & u & Hin & Hu). exists (Mention name (Some u)).
    split; [exact Hin|]. simpl. apply String.eqb_eq, Hu.
Qed.

(** ** Mention nodes: the heap after a call *)

Lemma mentionCells_settle_label p h :
  mentionCells (settle_label p h) = mentionCells h.
Proof. unfold settle_label. by destruct (labelPromises h !! p). Qed.

Lemma actorPromises_settle_label p h :
  actorPromises (settle_label p h) = actorPromises h.
Proof. unfold settle_label. by destruct (labelPromises h !! p). Qed.

Lemma markdownCells_settle_label p h :
  markdownCells (settle_label p h) = markdownCells h.
Proof. unfold settle_label. by destruct (labelPromises h !! p). Qed.

Lemma labelPromises_cache_actor owner v h :
  labelPromises (cache_actor owner v h) = labelPromises h.
Proof.
  unfold cache_actor. destruct v as [[o|]|]; try done.
  by destruct (mentionCells h !! owner).
Qed.

Lemma markdownCells_cache_actor owner v h :
  markdownCells (cache_actor owner v h) = markdownCells h.
Proof.
  unfold cache_actor. destruct v as [[o|]|]; try done.
  by destruct (mentionCells h !! owner).
Qed.

Lemma labelPromises_settle_actor p h :
  labelPromises (settle_actor p h) = labelPromises h.
Proof.
  unfold settle_actor. destruct (actorPromises h !! p) as [pr|]; [|done].
  destruct (p_settled pr); [done|]. by rewrite labelPromises_cache_actor.
Qed.

Lemma markdownCells_settle_actor p h :
  markdownCells (settle_actor p h) = markdownCells h.
Proof.
  unfold settle_actor. destruct (actorPromises h !! p) as [pr|]; [|done].
  destruct (p_settled pr); [done|]. by rewrite markdownCells_cache_actor.
Qed.

Lemma label_promises_settle_label r p h :
  label_promises r (settle_label p h) = label_promises r h.
Proof.
  unfold settle_label, label_promises.
  destruct (labelPromises h !! p) as [pr|] eqn:E; [|done]. simpl.
  by rewrite (owned_by_insert_length r p pr).
Qed.

Lemma actor_promises_settle_actor r p h :
  actor_promises r (settle_actor p h) = actor_promises r h.
Proof.
  unfold settle_actor, actor_promises.
  destruct (actorPromises h !! p) as [pr|] eqn:E; [|done].
  destruct (p_settled pr); [done|].
  rewrite actorPromises_cache_actor. simpl.
  by rewrite (owned_by_insert_length r p pr).
Qed.

(** The callback writes the cached object of its node and nothing else. *)
Lemma cache_actor_cell owner v h r c :
  mentionCells h !! r = Some c ->
  exists c2,
    mentionCells (cache_actor owner v h) !! r = Some c2 /\
    m_label c2 = m_label c /\ m_actor c2 = m_actor c /\
    m_labelPromise c2 = m_labelPromise c /\
    m_actorPromise c2 = m_actorPromise c /\
    m_labelThrows c2 = m_labelThrows c /\
    m_actorThrows c2 = m_actorThrows c /\
    m_cachedObject c2 =
      match v with
      | Val (Some o) => if decide (owner = r) then Some o else m_cachedObject c
      | _ => m_cachedObject c
      end.
Proof.
  intros Hc. unfold cache_actor.
  destruct v as [[o|]|]; try (exists c; by repeat split).
  destruct (decide (owner = r)) as [->|Hne].
  - rewrite Hc. eexists. split.
    + simpl. apply list_lookup_insert_eq. eapply lookup_lt_Some; eauto.
    + by repeat split.
  - destruct (mentionCells h !! owner) as [c0|] eqn:E0;
      [|exists c; by repeat split].
    exists c. split; [|by repeat split].
    simpl. by rewrite list_lookup_insert_ne.
Qed.

Lemma settle_actor_cell p h r c :
  mentionCells h !! r = Some c ->
  exists c2,
    mentionCells (settle_actor p h) !! r = Some c2 /\
    m_label c2 = m_label c /\ m_actor c2 = m_actor c /\
    m_labelPromise c2 = m_labelPromise c /\
    m_actorPromise c2 = m_actorPromise c /\
    m_labelThrows c2 = m_labelThrows c /\
    m_actorThrows c2 = m_actorThrows c.
Proof.
  intros Hc. unfold settle_actor.
  destruct (actorPromises h !! p) as [pr|]; [|exists c; by repeat split].
  destruct (p_settled pr); [exists c; by repeat split|].
  edestruct (cache_actor_cell (p_owner pr) (p_outcome pr)
               (mkHeap (mentionCells h) (markdownCells h) (labelPromises h)
                       (<[p := mark_settled pr]> (actorPromises h))) r c)
    as (c2 & H1 & H2 & H3 & H4 & H5 & H6 & H7 & _); [exact Hc|].
  exists c2. by repeat split.
Qed.

(** Awaiting the label of node [r] in a call with session [s]: the caller
    goes on with the outcome of the label; the node keeps everything but the
    label slot and its count of throws; the resolver is called exactly when
    the label is deferred and the slot empty; and what the slot does for the
    next caller is decided by that call: a promise it returned is stored and
    produces its outcome without a further call, and otherwise the next
    caller finds the slot as this one did. *)
Lemma label_phase {Y} s r c h (K : res string -> Gen Y) :
  mentionCells h !! r = Some c -> K Exn = Raise ->
  exists h2 c2,
    run (awaitLabel (getLabel s r h).2 K) (getLabel s r h).1
    = run (K (label_outcome s c h)) h2 /\
    mentionCells h2 !! r = Some c2 /\
    (m_label c2 = m_label c /\ m_actor c2 = m_actor c /\
     m_cachedObject c2 = m_cachedObject c /\
     m_actorPromise c2 = m_actorPromise c /\
     m_actorThrows c2 = m_actorThrows c /\
     actorPromises h2 = actorPromises h) /\
    m_labelPromise c2
    = slot_after (starts_label s c) (m_labelPromise c)
                 (length (labelPromises h)) /\
    label_resolutions r h2
    = label_resolutions r h + calls_made (starts_label s c) /\
    (forall s',
       label_outcome s' c2 h2
       = match starts_label s c with
         | Some (Returns outcome) => outcome
         | _ => label_outcome s' c h
         end /\
       starts_label s' c2
       = match starts_label s c with
         | Some (Returns _) => None
         | _ => starts_label s' c
         end).
Proof.
  intros Hc HK. unfold label_outcome, starts_label, getLabel,
    label_resolutions, label_throws. rewrite Hc.
  destruct (m_label c) as [l|resolver] eqn:El; cbn [fst snd awaitLabel run].
  - exists h, c. unfold id. rewrite Hc, ?El. cbn [calls_made slot_after].
    rewrite !Nat.add_0_r. by repeat split.
  - destruct (m_labelPromise c) as [p|] eqn:Ep; cbn [fst snd awaitLabel run].
    + exists (settle_label p h), c. rewrite settled_label_lookup.
      rewrite mentionCells_settle_label, actorPromises_settle_label,
        label_promises_settle_label, Hc, ?El, ?Ep.
      cbn [calls_made slot_after]. rewrite !Nat.add_0_r.
      destruct (labelPromises h !! p) as [pr|] eqn:Epr; simpl.
      * repeat split; try done. rewrite settled_label_lookup, Epr. done.
      * rewrite HK. simpl.
        assert (Hs : settle_label p h = h)
          by (unfold settle_label; by rewrite Epr).
        rewrite Hs. repeat split; try done. by rewrite Epr.
    + destruct (resolver s) as [outcome|] eqn:Ers;
        cbn [fst snd awaitLabel run calls_made slot_after].
      * eexists _, _. rewrite settled_label_lookup. simpl.
        rewrite list_lookup_middle by done. simpl.
        split; [reflexivity|].
        rewrite mentionCells_settle_label, actorPromises_settle_label,
          label_promises_settle_label. simpl.
        rewrite list_lookup_insert_eq by (eapply lookup_lt_Some; eauto).
        split; [reflexivity|]. simpl. rewrite ?El.
        split; [by repeat split|]. split; [done|]. split.
        -- unfold label_promises. simpl.
           rewrite owned_by_app, length_app, (owned_by_one r _ r) by done.
           rewrite decide_True by done. lia.
        -- intros s'. split; [|done]. rewrite settled_label_lookup. simpl.
           by rewrite list_lookup_middle.
      * eexists _, _. rewrite HK. cbn [run].
        split; [reflexivity|]. simpl.
        rewrite list_lookup_insert_eq by (eapply lookup_lt_Some; eauto).
        split; [reflexivity|]. simpl. rewrite ?El.
        split; [by repeat split|]. split; [done|]. split; [|done].
        unfold label_promises. simpl. lia.
Qed.

(** Awaiting the actor of node [r], likewise; a lookup made for this call
    caches the object it finds, an actor or not. *)
Lemma actor_phase {Y} s r c h (K : res (option Object) -> Gen Y) :
  mentionCells h !! r = Some c -> K Exn = Raise ->
  exists h2 c2,
    run (awaitActor (getActor_ s r h).2 K) (getActor_ s r h).1
    = run (K (actor_outcome s c h)) h2 /\
    mentionCells h2 !! r = Some c2 /\
    (m_label c2 = m_label c /\ m_actor c2 = m_actor c /\
     m_labelPromise c2 = m_labelPromise c /\
     m_labelThrows c2 = m_labelThrows c /\
     labelPromises h2 = labelPromises h) /\
    m_actorPromise c2
    = slot_after (starts_actor s c) (m_actorPromise c)
                 (length (actorPromises h)) /\
    actor_resolutions r h2
    = actor_resolutions r h + calls_made (starts_actor s c) /\
    (forall s',
       actor_outcome s' c2 h2
       = match starts_actor s c with
         | Some (Returns outcome) => outcome
         | _ => actor_outcome s' c h
         end /\
       starts_actor s' c2
       = match starts_actor s c with
         | Some (Returns _) => None
         | _ => starts_actor s' c
         end) /\
    (m_actorPromise c = None ->
     m_cachedObject c2 =
       match m_actor c, actor_outcome s c h with
       | inr _, Val (Some o) => Some o
       | _, _ => m_cachedObject c
       end).
Proof.
  intros Hc HK. unfold actor_outcome, starts_actor, getActor_,
    actor_resolutions, actor_throws. rewrite Hc.
  destruct (m_actor c) as [a|resolver] eqn:Ea; cbn [fst snd awaitActor run].
  - exists h, c. unfold id. rewrite Hc, ?Ea. cbn [calls_made slot_after].
    rewrite !Nat.add_0_r. by repeat split.
  - destruct (m_actorPromise c) as [p|] eqn:Ep; cbn [fst snd awaitActor run].
    + destruct (settle_actor_cell p h r c Hc)
        as (c2 & H1 & H2 & H3 & H4 & H5 & H6 & H7).
      exists (settle_actor p h), c2. rewrite settled_actor_lookup.
      rewrite labelPromises_settle_actor, actor_promises_settle_actor,
        H1, H2, H3, H4, H5, H6, H7, ?Ea, ?Ep.
      cbn [calls_made slot_after]. rewrite !Nat.add_0_r.
      destruct (actorPromises h !! p) as [pr|] eqn:Epr; simpl.
      * repeat split; try done. rewrite settled_actor_lookup, Epr. done.
      * rewrite HK. simpl.
        assert (Hs : settle_actor p h = h)
          by (unfold settle_actor; by rewrite Epr).
        rewrite Hs in *. repeat split; try done. by rewrite Epr.
    + destruct (resolver s) as [outcome|] eqn:Ers;
        cbn [fst snd awaitActor run calls_made slot_after].
      * set (p := length (actorPromises h)).
        set (c1 := mkMention (m_label c) (inr resolver) (m_cachedObject c)
                             (m_labelPromise c) (Some p)
                             (m_labelThrows c) (m_actorThrows c)).
        set (h1 := set_mention r c1
                     (mkHeap (mentionCells h) (markdownCells h)
                        (labelPromises h)
                        (actorPromises h ++ [mkPromise outcome false r]))).
        assert (Hc1 : mentionCells h1 !! r = Some c1).
        { simpl. apply list_lookup_insert_eq. eapply lookup_lt_Some; eauto. }
        assert (Hp : actorPromises h1 !! p
                     = Some (mkPromise outcome false r)).
        { simpl. by apply list_lookup_middle. }
        assert (Hs : settle_actor p h1
                     = cache_actor r outcome
                         (mkHeap (mentionCells h1) (markdownCells h1)
                            (labelPromises h1)
                            (<[p := mark_settled (mkPromise outcome false r)]>
                               (actorPromises h1)))).
        { unfold settle_actor. by rewrite Hp. }
        destruct (cache_actor_cell r outcome
                    (mkHeap (mentionCells h1) (markdownCells h1)
                       (labelPromises h1)
                       (<[p := mark_settled (mkPromise outcome false r)]>
                          (actorPromises h1))) r c1)
          as (c2 & H1 & H2 & H3 & H4 & H5 & H6 & H7 & H8); [exact Hc1|].
        exists (settle_actor p h1), c2.
        rewrite settled_actor_lookup, Hp. simpl.
        rewrite labelPromises_settle_actor, actor_promises_settle_actor.
        rewrite Hs, H1, H2, H3, H4, H5, H6, H7, H8. simpl. rewrite ?Ea.
        split; [reflexivity|]. split; [reflexivity|].
        split; [by repeat split|]. split; [done|]. split; [|split].
        -- unfold actor_promises. simpl.
           rewrite owned_by_app, length_app, (owned_by_one r _ r) by done.
           rewrite decide_True by done. lia.
        -- intros s'. split; [|done].
           rewrite actorPromises_cache_actor. simpl.
           rewrite list_lookup_insert_eq; [done|].
           rewrite length_app. simpl. unfold p. lia.
        -- intros _. destruct outcome as [[o|]|]; try done.
           by rewrite decide_True.
      * eexists _, _. rewrite HK. cbn [run].
        split; [reflexivity|]. simpl.
        rewrite list_lookup_insert_eq by (eapply lookup_lt_Some; eauto).
        split; [reflexivity|]. simpl. rewrite ?Ea.
        split; [by repeat split|]. split; [done|]. split; [|done].
        unfold actor_promises. simpl. lia.
Qed.

Lemma run_mention_result {Y} s r c h (out : string -> option Object -> list Y) :
  mentionCells h !! r = Some c ->
  (run (mention_gen s r out) h).2
  = mention_result out (label_outcome s c h) (actor_outcome s c h).
Proof. intros Hc. by rewrite (run_mention_gen s r c h out Hc). Qed.

Lemma label_resolutions_fields h h' r c c' :
  mentionCells h !! r = Some c -> mentionCells h' !! r = Some c' ->
  labelPromises h' = labelPromises h -> m_labelThrows c' = m_labelThrows c ->
  label_resolutions r h' = label_resolutions r h.
Proof.
  intros Hc Hc' Ht Hn. unfold label_resolutions, label_promises, label_throws.
  by rewrite Hc, Hc', Ht, Hn.
Qed.

Lemma actor_resolutions_fields h h' r c c' :
  mentionCells h !! r = Some c -> mentionCells h' !! r = Some c' ->
  actorPromises h' = actorPromises h -> m_actorThrows c' = m_actorThrows c ->
  actor_resolutions r h' = actor_resolutions r h.
Proof.
  intros Hc Hc' Ht Hn. unfold actor_resolutions, actor_promises, actor_throws.
  by rewrite Hc, Hc', Ht, Hn.
Qed.

(** The node after one call of getHtml or getTags with session [s], run to
    its end: the label slot does what [label_phase] says, and the actor slot
    what [actor_phase] says when the label resolved, and nothing when it did
    not. *)
Lemma mention_gen_after {Y} s r c h (out : string -> option Object -> list Y) :
  mentionCells h !! r = Some c ->
  let h1 := (run (mention_gen s r out) h).1 in
  let actor_call := match label_outcome s c h with
                    | Val _ => starts_actor s c
                    | Exn => None
                    end in
  exists c',
    mentionCells h1 !! r = Some c' /\
    (m_label c' = m_label c /\ m_actor c' = m_actor c) /\
    (m_labelPromise c'
     = slot_after (starts_label s c) (m_labelPromise c)
                  (length (labelPromises h)) /\
     m_actorPromise c'
     = slot_after actor_call (m_actorPromise c) (length (actorPromises h))) /\
    (label_resolutions r h1
     = label_resolutions r h + calls_made (starts_label s c) /\
     actor_resolutions r h1
     = actor_resolutions r h + calls_made actor_call) /\
    (forall s',
       label_outcome s' c' h1
       = match starts_label s c with
         | Some (Returns outcome) => outcome
         | _ => label_outcome s' c h
         end /\
       starts_label s' c'
       = match starts_label s c with
         | Some (Returns _) => None
         | _ => starts_label s' c
         end) /\
    (forall s',
       actor_outcome s' c' h1
       = match actor_call with
         | Some (Returns outcome) => outcome
         | _ => actor_outcome s' c h
         end /\
       starts_actor s' c'
       = match actor_call with
         | Some (Returns _) => None
         | _ => starts_actor s' c
         end) /\
    (m_actorPromise c = None ->
     m_cachedObject c' =
       match label_outcome s c h, m_actor c, actor_outcome s c h with
       | Val _, inr _, Val (Some o) => Some o
       | _, _, _ => m_cachedObject c
       end).
Proof.
  intros Hc. cbn zeta. unfold mention_gen, act. cbn [run].
  edestruct (label_phase (Y := Y) s r c h) as
    (h2 & c2 & Hrun & Hc2 & (L1 & L2 & L3 & L4 & L5 & L6) & Lslot & Lcount
     & Lnext);
    [exact Hc| |rewrite Hrun]; [reflexivity|].
  assert (Hsa : forall s', starts_actor s' c2 = starts_actor s' c).
  { intros s'. unfold starts_actor. by rewrite L2, L4. }
  assert (Hao : forall s', actor_outcome s' c2 h2 = actor_outcome s' c h).
  { intros s'. unfold actor_outcome. by rewrite L2, L4, L6. }
  assert (Har : actor_resolutions r h2 = actor_resolutions r h)
    by (by apply (actor_resolutions_fields h h2 r c c2)).
  destruct (label_outcome s c h) as [label|] eqn:Elo.
  - cbn [run].
    edestruct (actor_phase (Y := Y) s r c2 h2) as
      (h3 & c3 & Hrun3 & Hc3 & (A1 & A2 & A3 & A4 & A5) & Aslot & Acount
       & Anext & Acache);
      [exact Hc2| |rewrite Hrun3]; [reflexivity|].
    assert (Hh3 : forall g : Gen Y,
               g = match actor_outcome s c2 h2 with
                   | Val actor => yields (out label actor) Return
                   | Exn => Raise
                   end -> (run g h3).1 = h3).
    { intros g ->. destruct (actor_outcome s c2 h2);
        [by rewrite run_yields_Return|done]. }
    rewrite (Hh3 _ eq_refl). exists c3. split; [exact Hc3|].
    split; [split; congruence|].
    split; [split; [congruence|]|].
    { rewrite Aslot, Hsa, L4, L6. done. }
    split; [split|].
    { rewrite <- Lcount. by apply (label_resolutions_fields h2 h3 r c2 c3). }
    { by rewrite Acount, Har, Hsa. }
    split; [|split].
    + intros s'. destruct (Lnext s') as [Hl Hs].
      rewrite <- Hl, <- Hs. unfold label_outcome, starts_label.
      by rewrite A1, A3, A5.
    + intros s'. destruct (Anext s') as [Ha Hs].
      rewrite Ha, Hs, !Hsa. split; [|done].
      destruct (starts_actor s c) as [[o|]|]; by rewrite ?Hao.
    + intros Hnone. rewrite Acache by (by rewrite L4).
      by rewrite L2, L3, Hao.
  - cbn [run fst]. exists c2. split; [exact Hc2|].
    split; [by split|]. split; [by split|].
    split; [split; [done|]|].
    { cbn [calls_made]. by rewrite Nat.add_0_r. }
    split; [exact Lnext|]. split; [|intros _; exact L3].
    intros s'. by rewrite Hao, Hsa.
Qed.

(** A call in which no resolver threw decides the outcomes for good. *)
Lemma label_outcome_decided s s' c h :
  starts_label s c <> Some Throws ->
  match starts_label s c with
  | Some (Returns outcome) => outcome
  | _ => label_outcome s' c h
  end = label_outcome s c h.
Proof.
  unfold starts_label, label_outcome. destruct (m_label c); [done|].
  destruct (m_labelPromise c); [done|]. by destruct (_ s).
Qed.

Lemma actor_outcome_decided s s' c h :
  starts_actor s c <> Some Throws ->
  match starts_actor s c with
  | Some (Returns outcome) => outcome
  | _ => actor_outcome s' c h
  end = actor_outcome s c h.
Proof.
  unfold starts_actor, actor_outcome. destruct (m_actor c); [done|].
  destruct (m_actorPromise c); [done|]. by destruct (_ s).
Qed.

Lemma starts_label_decided s s' c :
  starts_label s c <> Some Throws ->
  match starts_label s c with
  | Some (Returns _) => None
  | _ => starts_label s' c
  end = None.
Proof.
  unfold starts_label. destruct (m_label c); [done|].
  destruct (m_labelPromise c); [done|]. by destruct (_ s).
Qed.

Lemma starts_actor_decided s s' c :
  starts_actor s c <> Some Throws ->
  match starts_actor s c with
  | Some (Returns _) => None
  | _ => starts_actor s' c
  end = None.
Proof.
  unfold starts_actor. destruct (m_actor c); [done|].
  destruct (m_actorPromise c); [done|]. by destruct (_ s).
Qed.

(** ** Properties of the heap that every generator keeps *)

Create HintDb keeps discriminated.
#[local] Hint Constructors keeps : keeps.

Section Keeps.
Context {platform : Platform}.
Variable I : Heap -> Prop.
Variables okm okd : nat -> bool.
Hypothesis closed : prim_closed_on okm okd I.

Lemma keeps_suspend {Y} (g : Gen Y) : keeps I g -> keeps I (suspend g).
Proof. intros. constructor; auto. Qed.

Lemma keeps_yields {Y} (ys : list Y) k : keeps I k -> keeps I (yields ys k).
Proof. induction ys; simpl; auto with keeps. Qed.

Lemma keeps_andThen {Y} (g k : Gen Y) :
  keeps I g -> keeps I k -> keeps I (andThen g k).
Proof. induction 1; intros; simpl; auto with keeps. Qed.

Lemma keeps_chain {Y} (gs : list (Gen Y)) :
  Forall (keeps I) gs -> keeps I (chain gs).
Proof.
  induction 1; simpl; [constructor|]. apply keeps_andThen; assumption.
Qed.

Lemma keeps_mention_gen {Y} s r (out : string -> option Object -> list Y) :
  okm r = true -> keeps I (mention_gen s r out).
Proof.
  intros Hr. destruct closed as (Hl & Ha & _).
  assert (Hactor : forall label,
             keeps I (act (getActor_ s r) (fun a =>
                      awaitActor a (fun v =>
                      match v with
                      | Exn => Raise
                      | Val actor => yields (out label actor) Return
                      end)))).
  { intros label. constructor; [intros h'; by apply Ha|].
    intros h'. destruct (getActor_ s r h').2; simpl; constructor; try done.
    - intros _. destruct v as [actor|]; [|constructor].
      apply keeps_yields. constructor.
    - intros [actor|]; [|constructor]. apply keeps_yields. constructor. }
  unfold mention_gen. constructor; [intros h; by apply Hl|].
  intros h. destruct (getLabel s r h).2; simpl; constructor; try done.
  - intros _. destruct v as [label|]; [|constructor]. apply Hactor.
  - intros [label|]; [|constructor]. apply Hactor.
Qed.

#[local] Hint Resolve keeps_suspend keeps_yields keeps_andThen : keeps.

Lemma keeps_getHtml_inline s t :
  inline_within okm t = true -> keeps I (getHtml_inline s t).
Proof.
  induction t; simpl; intros Hw; auto 10 with keeps.
  - by apply keeps_mention_gen.
  - unfold emoji_html. constructor; [done|]. intros _.
    destruct (getEmoji emoji s) as [e|]; [|constructor].
    destruct (emoji_name e); auto with keeps.
Qed.

Lemma keeps_getTags_inline s t :
  inline_within okm t = true -> keeps I (getTags_inline s t).
Proof.
  induction t; simpl; intros Hw; auto with keeps.
  - by apply keeps_mention_gen.
  - unfold hashtag_tags. constructor; [done|]. intros _.
    destruct (hashtag_object _ _); auto with keeps.
  - unfold emoji_tags. constructor; [done|]. intros _.
    destruct (getEmoji emoji s); auto with keeps.
Qed.

Lemma keeps_getMentionedActors {Y} s r c
    (k : res (list (string * Object)) -> Gen Y) :
  okd r = true ->
  (forall v, keeps I (k v)) -> keeps I (getMentionedActors s r c k).
Proof.
  intros Hr Hk. destruct closed as (_ & _ & Hs & _).
  unfold getMentionedActors.
  destruct (md_mentions c); [|auto with keeps].
  destruct (md_actors c); [auto with keeps|].
  apply keeps_suspend. destruct (getDocumentLoader s); [|auto with keeps].
  apply keeps_suspend. destruct (lookup_all s l); [|auto with keeps].
  constructor; [intros h; by apply Hs|]. auto with keeps.
Qed.

Lemma keeps_render_chunk c env : keeps I (render_chunk c env).
Proof.
  unfold render_chunk. destruct (md_render _ _ _) as [[html e]|];
    auto with keeps.
Qed.

Lemma keeps_markdown_hashtags s l : keeps I (markdown_hashtags s l).
Proof.
  induction l; simpl; [constructor|].
  destruct (hashtag_object _ _); auto with keeps.
Qed.

Lemma keeps_templated_html strings values opened :
  Forall (fun v => keeps I v.2) values ->
  keeps I (templated_html strings values opened).
Proof.
  revert values opened. induction strings as [|str strings IH];
    intros values opened Hv; simpl.
  - destruct opened; auto with keeps.
  - apply keeps_yields. destruct Hv as [|[ty html] values Hg Hv]; [auto|].
    apply keeps_yields, keeps_andThen; auto.
Qed.

Lemma keeps_getHtml s t :
  within okm okd t = true -> keeps I (getHtml s t).
Proof.
  induction t as [i|strings values IH|r] using Text_tree_ind; simpl;
    intros Hw.
  - by apply keeps_getHtml_inline.
  - apply keeps_suspend, keeps_templated_html.
    induction IH as [|v vs Hv _ IHvs]; simpl in *; constructor;
      apply andb_prop in Hw as [Hw1 Hw2]; auto.
  - unfold markdown_html. constructor; [done|]. intros h.
    destruct (markdownCells h !! r) as [c|]; [|constructor].
    destruct (md_mentions c); [|apply keeps_render_chunk].
    apply keeps_getMentionedActors; [done|].
    intros [actors|]; [|constructor]. apply keeps_render_chunk.
Qed.

Lemma keeps_getTags s t :
  within okm okd t = true -> keeps I (getTags s t).
Proof.
  induction t as [i|strings values IH|r] using Text_tree_ind; simpl;
    intros Hw.
  - by apply keeps_getTags_inline.
  - apply keeps_suspend, keeps_chain.
    induction IH as [|v vs Hv _ IHvs]; simpl in *; constructor;
      apply andb_prop in Hw as [Hw1 Hw2]; auto.
  - unfold markdown_tags. constructor; [done|]. intros h.
    destruct (markdownCells h !! r) as [c|]; [|constructor].
    destruct (md_mentions c); [|constructor].
    apply keeps_getMentionedActors; [done|].
    intros [actors|]; [|constructor].
    apply keeps_yields. destruct (md_hashtags c); [|constructor].
    apply keeps_markdown_hashtags.
Qed.

Lemma resume_keeps {Y} (g : Gen Y) out h :
  keeps I g -> keeps I (resume g out h).2.1.
Proof.
  intros Hg. destruct Hg; simpl; auto with keeps.
  - destruct (labelPromises h !! p) as [pr|]; [|simpl; auto with keeps].
    destruct (p_settled pr); simpl; auto with keeps.
  - destruct (actorPromises h !! p) as [pr|]; [|simpl; auto with keeps].
    destruct (p_settled pr); simpl; auto with keeps.
Qed.

Lemma resume_heap {Y} (g : Gen Y) out h :
  keeps I g -> I h -> I (resume g out h).1.
Proof.
  intros Hg HI. destruct Hg; simpl; auto.
  - destruct (labelPromises h !! p) as [pr|]; [|done].
    by destruct (p_settled pr).
  - destruct (actorPromises h !! p) as [pr|]; [|done].
    by destruct (p_settled pr).
Qed.

(** Along a schedule that resumes only generators of trees within [okm] and
    [okd], the heap keeps [I]. *)
Lemma exec_keeps_only P es ts w :
  (forall t, P t = true -> within okm okd t = true) ->
  tasks_keep I P ts (tasks w) -> I (heap w) ->
  resumes_only P ts es = true ->
  I (heap (exec es w)).
Proof.
  intros HP. destruct closed as (_ & _ & _ & Hsl & Hsa).
  revert ts w. induction es as [|e es IH]; intros ts w Ht HI Hes; [done|].
  destruct e as [s t|s t|t|i|p|p]; cbn [resumes_only] in Hes;
    cbn [exec fold_left]; fold (exec es).
  - apply (IH (ts ++ [t])); [|done|done]. simpl.
    apply Forall2_app; [done|]. constructor; [|constructor].
    intros Hp. apply keeps_getHtml; auto.
  - apply (IH (ts ++ [t])); [|done|done]. simpl.
    apply Forall2_app; [done|]. constructor; [|constructor].
    intros Hp. apply keeps_getTags; auto.
  - by apply (IH ts).
  - apply andb_prop in Hes as [Hi Hes]. simpl.
    destruct (tasks w !! i) as [task|] eqn:E; [|by apply (IH ts)].
    destruct (Forall2_lookup_r _ _ _ _ _ Ht E) as (t & Et & Hk).
    rewrite Et in Hi. specialize (Hk Hi).
    apply (IH ts); [|simpl|done].
    + simpl. rewrite <- (list_insert_id ts i t Et).
      apply Forall2_insert; [done|]. intros _.
      destruct task as [g out|g out]; simpl in *; by apply resume_keeps.
    + destruct task as [g out|g out]; simpl in *; by apply resume_heap.
  - apply (IH ts); [done| |done]. by apply Hsl.
  - apply (IH ts); [done| |done]. by apply Hsa.
Qed.

End Keeps.

Lemma within_all t : within (fun _ => true) (fun _ => true) t = true.
Proof.
  assert (Hi : forall i, inline_within (fun _ => true) i = true)
    by (induction i; done).
  induction t as [i|strings values IH|r] using Text_tree_ind; simpl;
    [apply Hi| |done].
  induction IH as [|v vs Hv _ IHvs]; simpl; [done|]. by rewrite Hv.
Qed.

Lemma prim_closed_everywhere I :
  prim_closed I -> prim_closed_on (fun _ => true) (fun _ => true) I.
Proof.
  intros (H1 & H2 & H3 & H4 & H5).
  split; [|split; [|split; [|split]]]; auto.
Qed.

Section KeepsAll.
Context {platform : Platform}.
Variable I : Heap -> Prop.
Hypothesis closed : prim_closed I.

Lemma step_tasks_keep e w :
  Forall (task_keeps I) (tasks w) -> Forall (task_keeps I) (tasks (step e w)).
Proof.
  intros Ht. destruct e as [s t|s t|t|i|p|p]; simpl; try done.
  - apply Forall_app; split; [done|].
    constructor; [|constructor].
    apply (keeps_getHtml I _ _ (prim_closed_everywhere I closed)), within_all.
  - apply Forall_app; split; [done|].
    constructor; [|constructor].
    apply (keeps_getTags I _ _ (prim_closed_everywhere I closed)), within_all.
  - destruct (tasks w !! i) as [t|] eqn:E; [|done].
    assert (Hg : task_keeps I t) by (eapply Forall_lookup_1; eauto).
    simpl. apply Forall_insert; [done|].
    destruct t as [g out|g out]; simpl in *; by apply resume_keeps.
Qed.

Lemma step_heap_keeps e w :
  Forall (task_keeps I) (tasks w) -> I (heap w) -> I (heap (step e w)).
Proof.
  intros Ht HI. destruct closed as (_ & _ & _ & Hsl & Hsa).
  destruct e as [s t|s t|t|i|p|p]; simpl; try done.
  - destruct (tasks w !! i) as [t|] eqn:E; [|done].
    assert (Hg : task_keeps I t) by (eapply Forall_lookup_1; eauto).
    simpl. destruct t as [g out|g out]; simpl in *; by apply resume_heap.
  - by apply Hsl.
  - by apply Hsa.
Qed.

Lemma exec_keeps es w :
  Forall (task_keeps I) (tasks w) -> I (heap w) ->
  Forall (task_keeps I) (tasks (exec es w)) /\ I (heap (exec es w)).
Proof.
  revert w. induction es as [|e es IH]; intros w Ht HI; simpl; [done|].
  apply IH; [by apply step_tasks_keep|by apply step_heap_keeps].
Qed.

End KeepsAll.

(** ** The cache of a mention node along a schedule *)

Lemma owned_by_lookup {A} r (ps : list (Promise A)) p pr :
  ps !! p = Some pr -> p_owner pr = r -> 1 <= length (owned_by r ps).
Proof.
  revert p. induction ps as [|x ps IH]; intros [|p] Hp Ho; simpl in *;
    try done; unfold owned_by in *; rewrite filter_cons.
  - injection Hp as ->. rewrite decide_True by done. simpl. lia.
  - specialize (IH p Hp Ho). destruct (decide (p_owner x = r)); simpl; lia.
Qed.

Lemma owned_by_two {A} r (ps : list (Promise A)) p p' pr pr' :
  ps !! p = Some pr -> ps !! p' = Some pr' -> p <> p' ->
  p_owner pr = r -> p_owner pr' = r -> 2 <= length (owned_by r ps).
Proof.
  revert p p'. induction ps as [|x ps IH]; intros [|p] [|p'] Hp Hp' Hne Ho Ho';
    simpl in *; try done.
  - injection Hp as ->. pose proof (owned_by_lookup r ps p' pr' Hp' Ho').
    unfold owned_by in *. rewrite filter_cons, decide_True by done.
    simpl. lia.
  - injection Hp' as ->. pose proof (owned_by_lookup r ps p pr Hp Ho).
    unfold owned_by in *. rewrite filter_cons, decide_True by done.
    simpl. lia.
  - assert (Hne' : p <> p') by congruence.
    specialize (IH p p' Hp Hp' Hne' Ho Ho').
    unfold owned_by in *. rewrite filter_cons.
    destruct (decide (p_owner x = r)); simpl; lia.
Qed.

Lemma Cached_as_built h : as_built h = true -> Cached h.
Proof.
  unfold as_built. intros [Hu Hf]%andb_prop.
  split; [by apply Inv_unresolved|].
  intros r c Hc. split.
  - intros _. eapply forallb_lookup; eauto.
  - intros p pr Hp. unfold unresolved in Hu.
    rewrite !andb_true_iff, !bool_decide_eq_true in Hu.
    destruct Hu as [[_ Ha] _]. apply length_zero_iff_nil in Ha.
    by rewrite Ha in Hp.
Qed.

Lemma Cached_getLabel s r h : Cached h -> Cached (getLabel s r h).1.
Proof.
  intros [HI HC]. split; [by apply Inv_getLabel|].
  unfold getLabel.
  destruct (mentionCells h !! r) as [c|] eqn:E; [|done].
  destruct (m_label c) as [l|resolver]; [done|].
  destruct (m_labelPromise c) as [p|] eqn:Ep; [done|].
  destruct (resolver s) as [outcome|]; intros r' c' Hr; simpl in Hr;
    (destruct (decide (r' = r)) as [->|Hne];
     [rewrite list_lookup_insert_eq in Hr by (eapply lookup_lt_Some; eauto);
      injection Hr as <-; apply (HC r c E)
     |rewrite list_lookup_insert_ne in Hr by done; apply (HC r' c' Hr)]).
Qed.

Lemma Cached_getActor s r h : Cached h -> Cached (getActor_ s r h).1.
Proof.
  intros [HI HC]. split; [by apply Inv_getActor|].
  unfold getActor_.
  destruct (mentionCells h !! r) as [c|] eqn:E; [|done].
  destruct (m_actor c) as [a|resolver] eqn:Ea; [done|].
  destruct (m_actorPromise c) as [p|] eqn:Ep; [done|].
  destruct (HC r c E) as [Hfit _]. specialize (Hfit Ep).
  unfold fits_constructor in Hfit. rewrite Ea in Hfit.
  destruct (m_cachedObject c) eqn:Eo; [done|].
  destruct (resolver s) as [outcome|]; intros r' c' Hr; simpl in Hr.
  - destruct (decide (r' = r)) as [->|Hne].
    + rewrite list_lookup_insert_eq in Hr by (eapply lookup_lt_Some; eauto).
      injection Hr as <-. split; [done|]. intros; done.
    + rewrite list_lookup_insert_ne in Hr by done.
      destruct (HC r' c' Hr) as [H1 H2]. split; [done|].
      intros p pr Hp Ho Hs. simpl in Hp.
      apply lookup_app_Some in Hp as [Hp|[_ Hp]]; [by eapply H2|].
      destruct (p - length (actorPromises h)) as [|n]; [|done].
      simpl in Hp. injection Hp as <-. simpl in Ho. congruence.
  - destruct (decide (r' = r)) as [->|Hne].
    + rewrite list_lookup_insert_eq in Hr by (eapply lookup_lt_Some; eauto).
      injection Hr as <-. split; [done|]. intros; done.
    + rewrite list_lookup_insert_ne in Hr by done. apply (HC r' c' Hr).
Qed.

Lemma Cached_store_actors r actors h :
  Cached h -> Cached (store_actors r actors h).
Proof.
  intros [HI HC]. split; [by apply Inv_store_actors|].
  unfold store_actors. destruct (markdownCells h !! r); [|done].
  intros r' c Hr. apply (HC r' c Hr).
Qed.

Lemma Cached_settle_label p h : Cached h -> Cached (settle_label p h).
Proof.
  intros [HI HC]. split; [by apply Inv_settle_label|].
  intros r c. rewrite mentionCells_settle_label. intros Hr.
  destruct (HC r c Hr) as [H1 H2]. split; [done|].
  intros q pr. rewrite actorPromises_settle_label. apply H2.
Qed.

Lemma Cached_settle_actor p h : Cached h -> Cached (settle_actor p h).
Proof.
  intros [HI HC]. split; [by apply Inv_settle_actor|].
  unfold settle_actor.
  destruct (actorPromises h !! p) as [pr|] eqn:Ep; [|done].
  destruct (p_settled pr) eqn:Es; [done|].
  set (h1 := mkHeap (mentionCells h) (markdownCells h) (labelPromises h)
                    (<[p := mark_settled pr]> (actorPromises h))).
  assert (Hold : forall q pr', actorPromises h1 !! q = Some pr' ->
                   p_settled pr' = false ->
                   q <> p /\ actorPromises h !! q = Some pr').
  { intros q pr' Hq Hs. simpl in Hq. destruct (decide (q = p)) as [->|Hne].
    - rewrite list_lookup_insert_eq in Hq by (eapply lookup_lt_Some; eauto).
      injection Hq as <-. done.
    - by rewrite list_lookup_insert_ne in Hq. }
  intros r c2 Hr. unfold cache_ok. rewrite actorPromises_cache_actor.
  unfold cache_actor in Hr.
  destruct (p_outcome pr) as [[obj|]|] eqn:Eout.
  - destruct (mentionCells h1 !! p_owner pr) as [c0|] eqn:E0.
    + simpl in Hr, E0. destruct (decide (r = p_owner pr)) as [->|Hne].
      * rewrite list_lookup_insert_eq in Hr by (eapply lookup_lt_Some; eauto).
        injection Hr as <-. destruct (HI _ _ E0) as (_ & Hcount & _ & _).
        pose proof (owned_by_lookup _ _ _ _ Ep eq_refl) as Hone.
        unfold actor_promises in Hcount.
        split; simpl.
        -- intros Hnone. rewrite Hnone in Hcount. simpl in Hcount. lia.
        -- intros q pr' Hq Ho Hs. destruct (Hold q pr' Hq Hs) as [Hne Hq'].
           pose proof (owned_by_two _ _ _ _ _ _ Ep Hq' (not_eq_sym Hne)
                         eq_refl Ho) as Htwo.
           pose proof (slot_count_le (m_actorPromise c0)). lia.
      * rewrite list_lookup_insert_ne in Hr by done.
        destruct (HC r c2 Hr) as [H1 H2]. split; [done|].
        intros q pr' Hq Ho Hs. destruct (Hold q pr' Hq Hs) as [_ Hq'].
        by eapply H2.
    + destruct (HC r c2 Hr) as [H1 H2]. split; [done|].
      intros q pr' Hq Ho Hs. destruct (Hold q pr' Hq Hs) as [_ Hq'].
      by eapply H2.
  - destruct (HC r c2 Hr) as [H1 H2]. split; [done|].
    intros q pr' Hq Ho Hs. destruct (Hold q pr' Hq Hs) as [_ Hq'].
    by eapply H2.
  - destruct (HC r c2 Hr) as [H1 H2]. split; [done|].
    intros q pr' Hq Ho Hs. destruct (Hold q pr' Hq Hs) as [_ Hq'].
    by eapply H2.
Qed.

Lemma holds_getLabel s r o r' h : holds r o h -> holds r o (getLabel s r' h).1.
Proof.
  intros (c & Hc & Ho). unfold getLabel.
  destruct (mentionCells h !! r') as [c'|] eqn:E; [|by exists c].
  destruct (m_label c') as [l|resolver]; [by exists c|].
  destruct (m_labelPromise c') as [p|] eqn:Ep; [by exists c|].
  unfold holds.
  destruct (resolver s) as [outcome|]; simpl;
    (destruct (decide (r = r')) as [->|Hne];
     [eexists;
      rewrite list_lookup_insert_eq by (eapply lookup_lt_Some; eauto);
      split; [done|]; simpl; congruence
     |exists c; by rewrite list_lookup_insert_ne]).
Qed.

Lemma holds_getActor s r o r' h : holds r o h -> holds r o (getActor_ s r' h).1.
Proof.
  intros (c & Hc & Ho). unfold getActor_.
  destruct (mentionCells h !! r') as [c'|] eqn:E; [|by exists c].
  destruct (m_actor c') as [l|resolver]; [by exists c|].
  destruct (m_actorPromise c') as [p|] eqn:Ep; [by exists c|].
  unfold holds.
  destruct (resolver s) as [outcome|]; simpl;
    (destruct (decide (r = r')) as [->|Hne];
     [eexists;
      rewrite list_lookup_insert_eq by (eapply lookup_lt_Some; eauto);
      split; [done|]; simpl; congruence
     |exists c; by rewrite list_lookup_insert_ne]).
Qed.

Lemma holds_store_actors r o r' actors h :
  holds r o h -> holds r o (store_actors r' actors h).
Proof.
  intros (c & Hc & Ho). unfold store_actors.
  destruct (markdownCells h !! r'); by exists c.
Qed.

Lemma holds_settle_label r o p h : holds r o h -> holds r o (settle_label p h).
Proof.
  intros (c & Hc & Ho). exists c. by rewrite mentionCells_settle_label.
Qed.

(** The callback of a promise cannot overwrite a cached object: while the
    promise of a node is pending the node has cached nothing. *)
Lemma holds_settle_actor r o p h :
  Cached h -> holds r o h -> holds r o (settle_actor p h).
Proof.
  intros [HI HC] (c & Hc & Ho). unfold settle_actor.
  destruct (actorPromises h !! p) as [pr|] eqn:Ep; [|by exists c].
  destruct (p_settled pr) eqn:Es; [by exists c|].
  destruct (cache_actor_cell (p_owner pr) (p_outcome pr)
              (mkHeap (mentionCells h) (markdownCells h) (labelPromises h)
                      (<[p := mark_settled pr]> (actorPromises h))) r c Hc)
    as (c2 & Hc2 & _ & _ & _ & _ & _ & _ & Hcached).
  exists c2. split; [done|]. rewrite Hcached.
  destruct (p_outcome pr) as [[obj|]|]; try done.
  destruct (decide (p_owner pr = r)) as [Hr|]; [|done].
  destruct (HC r c Hc) as [_ H2]. rewrite (H2 p pr Ep Hr Es) in Ho. done.
Qed.

Lemma prim_closed_holds r o :
  prim_closed (fun h => Cached h /\ holds r o h).
Proof.
  split; [|split; [|split; [|split]]].
  - intros s r' h [HC Hh]. split; [by apply Cached_getLabel|].
    by apply holds_getLabel.
  - intros s r' h [HC Hh]. split; [by apply Cached_getActor|].
    by apply holds_getActor.
  - intros r' actors h [HC Hh]. split; [by apply Cached_store_actors|].
    by apply holds_store_actors.
  - intros p h [HC Hh]. split; [by apply Cached_settle_label|].
    by apply holds_settle_label.
  - intros p h [HC Hh]. split; [by apply Cached_settle_actor|].
    by apply holds_settle_actor.
Qed.

Lemma prim_closed_Cached : prim_closed Cached.
Proof.
  split; [|split; [|split; [|split]]]; intros.
  - by apply Cached_getLabel.
  - by apply Cached_getActor.
  - by apply Cached_store_actors.
  - by apply Cached_settle_label.
  - by apply Cached_settle_actor.
Qed.

Lemma exec_app {platform : Platform} es1 es2 w :
  exec (es1 ++ es2) w = exec es2 (exec es1 w).
Proof. unfold exec. apply fold_left_app. Qed.

Lemma mention_cached_holds r o h : mention_cached r h = [o] <-> holds r o h.
Proof.
  unfold mention_cached, holds. split.
  - destruct (mentionCells h !! r) as [c|]; [|done].
    destruct (m_cachedObject c) as [o'|] eqn:E; [|done].
    intros [= ->]. by exists c.
  - intros (c & -> & ->). done.
Qed.


(** ** Mention nodes: calls one after the other *)

Section AfterCalls.
Context {platform : Platform}.

(** [mention_gen_after] for a call of either method. *)
Lemma mention_after_call k r c h :
  mentionCells h !! r = Some c ->
  let s := call_session k in
  let h1 := after_call (InlineNode (MentionText r)) h k in
  let actor_call := match label_outcome s c h with
                    | Val _ => starts_actor s c
                    | Exn => None
                    end in
  exists c',
    mentionCells h1 !! r = Some c' /\
    (m_label c' = m_label c /\ m_actor c' = m_actor c) /\
    (m_labelPromise c'
     = slot_after (starts_label s c) (m_labelPromise c)
                  (length (labelPromises h)) /\
     m_actorPromise c'
     = slot_after actor_call (m_actorPromise c) (length (actorPromises h))) /\
    (label_resolutions r h1
     = label_resolutions r h + calls_made (starts_label s c) /\
     actor_resolutions r h1
     = actor_resolutions r h + calls_made actor_call) /\
    (forall s',
       label_outcome s' c' h1
       = match starts_label s c with
         | Some (Returns outcome) => outcome
         | _ => label_outcome s' c h
         end /\
       starts_label s' c'
       = match starts_label s c with
         | Some (Returns _) => None
         | _ => starts_label s' c
         end) /\
    (forall s',
       actor_outcome s' c' h1
       = match actor_call with
         | Some (Returns outcome) => outcome
         | _ => actor_outcome s' c h
         end /\
       starts_actor s' c'
       = match actor_call with
         | Some (Returns _) => None
         | _ => starts_actor s' c
         end) /\
    (m_actorPromise c = None ->
     m_cachedObject c' =
       match label_outcome s c h, m_actor c, actor_outcome s c h with
       | Val _, inr _, Val (Some o) => Some o
       | _, _, _ => m_cachedObject c
       end).
Proof.
  intros Hc. destruct k as [s|s]; cbn zeta;
    cbn [after_call call_session getHtml getTags getHtml_inline
         getTags_inline];
    by apply mention_gen_after.
Qed.

Lemma decided_after_call k r lo ao h :
  decided r lo ao h ->
  let h1 := after_call (InlineNode (MentionText r)) h k in
  decided r lo ao h1 /\
  label_resolutions r h1 = label_resolutions r h /\
  actor_resolutions r h1 = actor_resolutions r h.
Proof.
  intros (c & Hc & Hd). cbn zeta.
  destruct (mention_after_call k r c h Hc)
    as (c' & Hc' & _ & _ & [Hnl Hna] & Hl & Ha & _).
  cbn zeta in *. destruct (Hd (call_session k)) as [[Hlo Hsl] Hact].
  rewrite Hlo, Hsl in *. cbn [calls_made] in Hnl.
  assert (Hcall : match lo with
                  | Val _ => starts_actor (call_session k) c
                  | Exn => None
                  end = None).
  { destruct lo; [|done]. by destruct Hact. }
  rewrite Hcall in *. cbn [calls_made] in Hna.
  split; [|split; lia].
  exists c'. split; [exact Hc'|]. intros s0.
  destruct (Hl s0) as [-> ->]. destruct (Ha s0) as [-> ->].
  apply Hd.
Qed.

Lemma decided_after_calls ks r lo ao h :
  decided r lo ao h ->
  let h' := after_calls (InlineNode (MentionText r)) ks h in
  decided r lo ao h' /\
  label_resolutions r h' = label_resolutions r h /\
  actor_resolutions r h' = actor_resolutions r h.
Proof.
  revert h. induction ks as [|k ks IH]; intros h Hd; [done|].
  destruct (decided_after_call k r lo ao h Hd) as (Hd1 & Hl1 & Ha1).
  destruct (IH _ Hd1) as (Hd2 & Hl2 & Ha2). cbn zeta in *.
  unfold after_calls in *. cbn [fold_left].
  split; [exact Hd2|]. split; congruence.
Qed.

Lemma decided_result {Y} s r lo ao h
    (out : string -> option Object -> list Y) :
  decided r lo ao h ->
  (run (mention_gen s r out) h).2 = mention_result out lo ao.
Proof.
  intros (c & Hc & Hd). rewrite (run_mention_result s r c h out Hc).
  destruct (Hd s) as [[-> _] Hact]. destruct lo as [l|]; [|done].
  by destruct Hact as [-> _].
Qed.

End AfterCalls.

(** ** Mention nodes: a stored promise stays *)

Lemma slots_deferred_unresolved h : unresolved h = true -> slots_deferred h.
Proof.
  unfold unresolved. rewrite !andb_true_iff. intros [_ Hc] r c Hr.
  pose proof (forallb_lookup _ _ _ _ Hc Hr) as Hu.
  unfold unstarted in Hu. apply andb_prop in Hu as [Hl Ha].
  apply bool_decide_eq_true in Hl, Ha. rewrite Hl, Ha. by split.
Qed.

Lemma slots_deferred_set r c' h lp ap :
  slots_deferred h ->
  ((forall p, m_labelPromise c' = Some p -> exists f, m_label c' = inr f) /\
   (forall p, m_actorPromise c' = Some p -> exists f, m_actor c' = inr f)) ->
  slots_deferred
    (set_mention r c' (mkHeap (mentionCells h) (markdownCells h) lp ap)).
Proof.
  intros Hh Hc' r0 c Hr0. simpl in Hr0.
  destruct (decide (r0 = r)) as [->|Hne].
  - destruct (mentionCells h !! r) eqn:E.
    + rewrite list_lookup_insert_eq in Hr0 by (eapply lookup_lt_Some; eauto).
      by injection Hr0 as <-.
    + rewrite list_insert_ge in Hr0 by (by apply lookup_ge_None).
      congruence.
  - rewrite list_lookup_insert_ne in Hr0 by done. by apply (Hh r0).
Qed.

Lemma prim_closed_slots_deferred : prim_closed slots_deferred.
Proof.
  split; [|split; [|split; [|split]]].
  - intros s r h Hd. unfold getLabel.
    destruct (mentionCells h !! r) as [c|] eqn:E; [|done].
    destruct (m_label c) as [l|resolver] eqn:El; [done|].
    destruct (m_labelPromise c) as [p|] eqn:Ep; [done|].
    destruct (Hd r c E) as [_ Ha].
    destruct (resolver s) as [outcome|]; cbn [fst].
    + apply slots_deferred_set; [done|]. simpl. split; [eauto|done].
    + destruct h as [mc dc lp ap].
      apply (slots_deferred_set _ _ (mkHeap mc dc lp ap)); [done|].
      simpl. split; [done|done].
  - intros s r h Hd. unfold getActor_.
    destruct (mentionCells h !! r) as [c|] eqn:E; [|done].
    destruct (m_actor c) as [l|resolver] eqn:El; [done|].
    destruct (m_actorPromise c) as [p|] eqn:Ep; [done|].
    destruct (Hd r c E) as [Hl _].
    destruct (resolver s) as [outcome|]; cbn [fst].
    + apply slots_deferred_set; [done|]. simpl. split; [done|eauto].
    + destruct h as [mc dc lp ap].
      apply (slots_deferred_set _ _ (mkHeap mc dc lp ap)); [done|].
      simpl. split; [done|done].
  - intros r actors h Hd. unfold store_actors.
    by destruct (markdownCells h !! r).
  - intros p h Hd r c. rewrite mentionCells_settle_label. apply Hd.
  - intros p h Hd r c Hr.
    destruct (mentionCells h !! r) as [c0|] eqn:E.
    + destruct (settle_actor_cell p h r c0 E)
        as (c2 & H1 & H2 & H3 & H4 & H5 & _).
      rewrite H1 in Hr. injection Hr as <-. rewrite H2, H3, H4, H5.
      by apply (Hd r c0).
    + assert (Hlen : length (mentionCells (settle_actor p h))
                     = length (mentionCells h)).
      { unfold settle_actor. destruct (actorPromises h !! p) as [pr|]; [|done].
        destruct (p_settled pr); [done|]. unfold cache_actor.
        destruct (p_outcome pr) as [[o|]|]; try done. simpl.
        destruct (mentionCells h !! p_owner pr); [|done].
        simpl. by rewrite length_insert. }
      apply lookup_ge_None in E. rewrite <- Hlen in E.
      apply lookup_ge_None in E. congruence.
Qed.

Lemma label_resolutions_other r r' c' h lp ap :
  r' <> r ->
  label_resolutions r
    (set_mention r' c' (mkHeap (mentionCells h) (markdownCells h) lp ap))
  = length (owned_by r lp) + label_throws r h.
Proof.
  intros Hne. unfold label_resolutions, label_promises, label_throws. simpl.
  by rewrite list_lookup_insert_ne.
Qed.

Lemma actor_resolutions_other r r' c' h lp ap :
  r' <> r ->
  actor_resolutions r
    (set_mention r' c' (mkHeap (mentionCells h) (markdownCells h) lp ap))
  = length (owned_by r ap) + actor_throws r h.
Proof.
  intros Hne. unfold actor_resolutions, actor_promises, actor_throws. simpl.
  by rewrite list_lookup_insert_ne.
Qed.

Lemma label_resolutions_set r r' c' h :
  r' <> r -> label_resolutions r (set_mention r' c' h) = label_resolutions r h.
Proof.
  intros Hne. unfold label_resolutions, label_promises, label_throws. simpl.
  by rewrite list_lookup_insert_ne.
Qed.

Lemma actor_resolutions_set r r' c' h :
  r' <> r -> actor_resolutions r (set_mention r' c' h) = actor_resolutions r h.
Proof.
  intros Hne. unfold actor_resolutions, actor_promises, actor_throws. simpl.
  by rewrite list_lookup_insert_ne.
Qed.

Lemma prim_closed_label_stored r p v n : prim_closed (label_stored r p v n).
Proof.
  split; [|split; [|split; [|split]]].
  - intros s r' h (c & pr & f & Hc & Hf & Hp & Hpr & Hv & Ho & Hn).
    unfold getLabel.
    destruct (mentionCells h !! r') as [c'|] eqn:E; [|by exists c, pr, f].
    destruct (m_label c') as [l|resolver] eqn:El; [by exists c, pr, f|].
    destruct (m_labelPromise c') as [q|] eqn:Ep; [by exists c, pr, f|].
    assert (Hne : r' <> r) by (intros ->; congruence).
    destruct (resolver s) as [outcome|]; exists c, pr, f.
    + cbn [fst]. rewrite label_resolutions_other by done. simpl.
      rewrite list_lookup_insert_ne by done.
      rewrite owned_by_app, length_app, (owned_by_one r _ r') by done.
      rewrite decide_False by done.
      rewrite lookup_app_l by (eapply lookup_lt_Some; eauto).
      repeat split; try done.
      unfold label_resolutions, label_promises in Hn. lia.
    + cbn [fst]. rewrite label_resolutions_set by done. simpl.
      rewrite list_lookup_insert_ne by done. by repeat split.
  - intros s r' h (c & pr & f & Hc & Hf & Hp & Hpr & Hv & Ho & Hn).
    unfold getActor_.
    destruct (mentionCells h !! r') as [c'|] eqn:E; [|by exists c, pr, f].
    destruct (m_actor c') as [l|resolver] eqn:El; [by exists c, pr, f|].
    destruct (m_actorPromise c') as [q|] eqn:Ep; [by exists c, pr, f|].
    destruct (decide (r' = r)) as [->|Hne].
    + rewrite Hc in E. injection E as <-.
      destruct (resolver s) as [outcome|]; eexists _, pr, f; cbn [fst];
        unfold label_resolutions, label_promises, label_throws in *; simpl;
        rewrite list_lookup_insert_eq by (eapply lookup_lt_Some; eauto);
        rewrite Hc in Hn; by repeat split.
    + destruct (resolver s) as [outcome|]; exists c, pr, f; cbn [fst].
      * rewrite label_resolutions_other by done. simpl.
        rewrite list_lookup_insert_ne by done. by repeat split.
      * rewrite label_resolutions_set by done. simpl.
        rewrite list_lookup_insert_ne by done. by repeat split.
  - intros r' actors h Hs. unfold store_actors.
    by destruct (markdownCells h !! r').
  - intros q h (c & pr & f & Hc & Hf & Hp & Hpr & Hv & Ho & Hn).
    destruct (decide (q = p)) as [->|Hne].
    + exists c, (mark_settled pr), f.
      rewrite mentionCells_settle_label, settled_label_lookup, Hpr.
      unfold label_resolutions, label_throws in *.
      rewrite label_promises_settle_label, mentionCells_settle_label.
      by repeat split.
    + exists c, pr, f. rewrite mentionCells_settle_label.
      unfold label_resolutions, label_throws in *.
      rewrite label_promises_settle_label, mentionCells_settle_label.
      repeat split; try done.
      unfold settle_label. destruct (labelPromises h !! q); [|done].
      simpl. by rewrite list_lookup_insert_ne.
  - intros q h (c & pr & f & Hc & Hf & Hp & Hpr & Hv & Ho & Hn).
    destruct (settle_actor_cell q h r c Hc)
      as (c2 & H1 & H2 & H3 & H4 & H5 & H6 & H7).
    exists c2, pr, f. rewrite labelPromises_settle_actor.
    unfold label_resolutions, label_promises, label_throws in *.
    rewrite labelPromises_settle_actor, H1, H2, H4, H6.
    rewrite Hc in Hn. by repeat split.
Qed.

Lemma prim_closed_actor_stored r p v n : prim_closed (actor_stored r p v n).
Proof.
  split; [|split; [|split; [|split]]].
  - intros s r' h (c & pr & f & Hc & Hf & Hp & Hpr & Hv & Ho & Hn).
    unfold getLabel.
    destruct (mentionCells h !! r') as [c'|] eqn:E; [|by exists c, pr, f].
    destruct (m_label c') as [l|resolver] eqn:El; [by exists c, pr, f|].
    destruct (m_labelPromise c') as [q|] eqn:Ep; [by exists c, pr, f|].
    destruct (decide (r' = r)) as [->|Hne].
    + rewrite Hc in E. injection E as <-.
      destruct (resolver s) as [outcome|]; eexists _, pr, f; cbn [fst];
        unfold actor_resolutions, actor_promises, actor_throws in *; simpl;
        rewrite list_lookup_insert_eq by (eapply lookup_lt_Some; eauto);
        rewrite Hc in Hn; by repeat split.
    + destruct (resolver s) as [outcome|]; exists c, pr, f; cbn [fst].
      * rewrite actor_resolutions_other by done. simpl.
        rewrite list_lookup_insert_ne by done. by repeat split.
      * rewrite actor_resolutions_set by done. simpl.
        rewrite list_lookup_insert_ne by done. by repeat split.
  - intros s r' h (c & pr & f & Hc & Hf & Hp & Hpr & Hv & Ho & Hn).
    unfold getActor_.
    destruct (mentionCells h !! r') as [c'|] eqn:E; [|by exists c, pr, f].
    destruct (m_actor c') as [l|resolver] eqn:El; [by exists c, pr, f|].
    destruct (m_actorPromise c') as [q|] eqn:Ep; [by exists c, pr, f|].
    assert (Hne : r' <> r) by (intros ->; congruence).
    destruct (resolver s) as [outcome|]; exists c, pr, f.
    + cbn [fst]. rewrite actor_resolutions_other by done. simpl.
      rewrite list_lookup_insert_ne by done.
      rewrite owned_by_app, length_app, (owned_by_one r _ r') by done.
      rewrite decide_False by done.
      rewrite lookup_app_l by (eapply lookup_lt_Some; eauto).
      repeat split; try done.
      unfold actor_resolutions, actor_promises in Hn. lia.
    + cbn [fst]. rewrite actor_resolutions_set by done. simpl.
      rewrite list_lookup_insert_ne by done. by repeat split.
  - intros r' actors h Hs. unfold store_actors.
    by destruct (markdownCells h !! r').
  - intros q h (c & pr & f & Hc & Hf & Hp & Hpr & Hv & Ho & Hn).
    exists c, pr, f. rewrite mentionCells_settle_label,
      actorPromises_settle_label.
    unfold actor_resolutions, actor_promises, actor_throws in *.
    rewrite actorPromises_settle_label, mentionCells_settle_label.
    by repeat split.
  - intros q h (c & pr & f & Hc & Hf & Hp & Hpr & Hv & Ho & Hn).
    destruct (settle_actor_cell q h r c Hc)
      as (c2 & H1 & H2 & H3 & H4 & H5 & H6 & H7).
    assert (Hlook : exists pr', actorPromises (settle_actor q h) !! p
                               = Some pr' /\ p_outcome pr' = v /\
                               p_owner pr' = r).
    { destruct (decide (q = p)) as [->|Hne].
      - exists (mark_settled pr). by rewrite settled_actor_lookup, Hpr.
      - exists pr. split; [|done]. unfold settle_actor.
        destruct (actorPromises h !! q) as [pr0|]; [|done].
        destruct (p_settled pr0); [done|].
        rewrite actorPromises_cache_actor. simpl.
        by rewrite list_lookup_insert_ne. }
    destruct Hlook as (pr' & Hpr' & Hv' & Ho').
    exists c2, pr', f.
    unfold actor_resolutions, actor_throws in *.
    rewrite actor_promises_settle_actor, H1, H3, H5, H7.
    rewrite Hc in Hn. by repeat split.
Qed.

(** A call of the accessor on a stored promise hands that promise out and
    leaves the heap alone. *)
Lemma getLabel_stored s r p v n h :
  label_stored r p v n h -> getLabel s r h = (h, Later p).
Proof.
  intros (c & pr & f & Hc & Hf & Hp & _). unfold getLabel.
  by rewrite Hc, Hf, Hp.
Qed.

Lemma getActor_stored s r p v n h :
  actor_stored r p v n h -> getActor_ s r h = (h, Later p).
Proof.
  intros (c & pr & f & Hc & Hf & Hp & _). unfold getActor_.
  by rewrite Hc, Hf, Hp.
Qed.

(** The generators of a world reached from the start keep whatever the
    primitive operations keep. *)
Lemma exec_start_keeps {platform : Platform} I es h :
  prim_closed I -> Forall (task_keeps I) (tasks (exec es (start h))).
Proof.
  intros HI.
  assert (G : forall es w, Forall (task_keeps I) (tasks w) ->
                Forall (task_keeps I) (tasks (exec es w))).
  { clear es. induction es as [|e es IH]; intros w Hw; [done|].
    simpl. apply IH. by apply (step_tasks_keep I HI). }
  apply G. constructor.
Qed.

Lemma exec_from_keeps {platform : Platform} I es es' h :
  prim_closed I -> I (heap (exec es (start h))) ->
  I (heap (exec es' (exec es (start h)))).
Proof.
  intros HI Hh.
  destruct (exec_keeps I HI es' (exec es (start h))) as [_ H];
    [by apply exec_start_keeps|done|done].
Qed.


Lemma returns_always_async {S A} (f : S -> res A) : returns_always (async f).
Proof. by intros s. Qed.

Lemma cell_after_set r r' c' (h : Heap) c :
  <[r' := c']> (mentionCells h) !! r = Some c ->
  (r = r' /\ c = c' /\ is_Some (mentionCells h !! r)) \/
  (r <> r' /\ mentionCells h !! r = Some c).
Proof.
  intros Hr. destruct (decide (r = r')) as [->|Hne].
  - left. destruct (mentionCells h !! r') eqn:E.
    + rewrite list_lookup_insert_eq in Hr by (eapply lookup_lt_Some; eauto).
      injection Hr as <-. eauto.
    + rewrite list_insert_ge in Hr by (by apply lookup_ge_None). congruence.
  - right. by rewrite list_lookup_insert_ne in Hr.
Qed.

Lemma prim_closed_label_throws r lab n :
  (forall f, lab = inr f -> returns_always f) ->
  prim_closed (label_throws_are r lab n).
Proof.
  intros Hlab. split; [|split; [|split; [|split]]].
  - intros s r' h HQ. unfold getLabel.
    destruct (mentionCells h !! r') as [c'|] eqn:E; [|done].
    destruct (m_label c') as [l|resolver] eqn:El; [done|].
    destruct (m_labelPromise c') as [q|] eqn:Ep; [done|].
    destruct (resolver s) as [outcome|] eqn:Ers; intros c Hc Hl;
      simpl in Hc; apply cell_after_set in Hc as [(-> & -> & _)|[Hne Hc]];
      try (by apply (HQ c)); simpl in *.
    + apply (HQ c' E). congruence.
    + subst lab. by destruct (Hlab resolver eq_refl s).
  - intros s r' h HQ. unfold getActor_.
    destruct (mentionCells h !! r') as [c'|] eqn:E; [|done].
    destruct (m_actor c') as [l|resolver] eqn:El; [done|].
    destruct (m_actorPromise c') as [q|] eqn:Ep; [done|].
    destruct (resolver s) as [outcome|] eqn:Ers; intros c Hc Hl;
      simpl in Hc; apply cell_after_set in Hc as [(-> & -> & _)|[Hne Hc]];
      try (by apply (HQ c)); simpl in *; by apply (HQ c' E).
  - intros r' actors h HQ. unfold store_actors.
    by destruct (markdownCells h !! r').
  - intros p h HQ c. rewrite mentionCells_settle_label. apply HQ.
  - intros p h HQ c Hc Hl.
    destruct (mentionCells h !! r) as [c0|] eqn:E.
    + destruct (settle_actor_cell p h r c0 E)
        as (c2 & H1 & H2 & H3 & H4 & H5 & H6 & H7).
      rewrite H1 in Hc. injection Hc as <-. rewrite H6.
      apply (HQ c0 E). congruence.
    + assert (Hlen : length (mentionCells (settle_actor p h))
                     = length (mentionCells h)).
      { unfold settle_actor. destruct (actorPromises h !! p) as [pr|]; [|done].
        destruct (p_settled pr); [done|]. unfold cache_actor.
        destruct (p_outcome pr) as [[o|]|]; try done. simpl.
        destruct (mentionCells h !! p_owner pr); [|done].
        simpl. by rewrite length_insert. }
      apply lookup_ge_None in E. rewrite <- Hlen in E.
      apply lookup_ge_None in E. congruence.
Qed.

Lemma prim_closed_actor_throws r act n :
  (forall f, act = inr f -> returns_always f) ->
  prim_closed (actor_throws_are r act n).
Proof.
  intros Hact. split; [|split; [|split; [|split]]].
  - intros s r' h HQ. unfold getLabel.
    destruct (mentionCells h !! r') as [c'|] eqn:E; [|done].
    destruct (m_label c') as [l|resolver] eqn:El; [done|].
    destruct (m_labelPromise c') as [q|] eqn:Ep; [done|].
    destruct (resolver s) as [outcome|] eqn:Ers; intros c Hc Hl;
      simpl in Hc; apply cell_after_set in Hc as [(-> & -> & _)|[Hne Hc]];
      try (by apply (HQ c)); simpl in *; by apply (HQ c' E).
  - intros s r' h HQ. unfold getActor_.
    destruct (mentionCells h !! r') as [c'|] eqn:E; [|done].
    destruct (m_actor c') as [l|resolver] eqn:El; [done|].
    destruct (m_actorPromise c') as [q|] eqn:Ep; [done|].
    destruct (resolver s) as [outcome|] eqn:Ers; intros c Hc Hl;
      simpl in Hc; apply cell_after_set in Hc as [(-> & -> & _)|[Hne Hc]];
      try (by apply (HQ c)); simpl in *.
    + apply (HQ c' E). congruence.
    + subst act. by destruct (Hact resolver eq_refl s).
  - intros r' actors h HQ. unfold store_actors.
    by destruct (markdownCells h !! r').
  - intros p h HQ c. rewrite mentionCells_settle_label. apply HQ.
  - intros p h HQ c Hc Hl.
    destruct (mentionCells h !! r) as [c0|] eqn:E.
    + destruct (settle_actor_cell p h r c0 E)
        as (c2 & H1 & H2 & H3 & H4 & H5 & H6 & H7).
      rewrite H1 in Hc. injection Hc as <-. rewrite H7.
      apply (HQ c0 E). congruence.
    + assert (Hlen : length (mentionCells (settle_actor p h))
                     = length (mentionCells h)).
      { unfold settle_actor. destruct (actorPromises h !! p) as [pr|]; [|done].
        destruct (p_settled pr); [done|]. unfold cache_actor.
        destruct (p_outcome pr) as [[o|]|]; try done. simpl.
        destruct (mentionCells h !! p_owner pr); [|done].
        simpl. by rewrite length_insert. }
      apply lookup_ge_None in E. rewrite <- Hlen in E.
      apply lookup_ge_None in E. congruence.
Qed.

Lemma prim_closed_Inv : prim_closed Inv.
Proof.
  split; [|split; [|split; [|split]]]; intros.
  - by apply Inv_getLabel.
  - by apply Inv_getActor.
  - by apply Inv_store_actors.
  - by apply Inv_settle_label.
  - by apply Inv_settle_actor.
Qed.

(** Running a generator alone keeps what its stretches keep. *)
Lemma run_keeps {Y} I (g : Gen Y) h :
  (forall p h, I h -> I (settle_label p h)) ->
  (forall p h, I h -> I (settle_actor p h)) ->
  keeps I g -> I h -> I (run g h).1.
Proof.
  intros Hsl Hsa Hg. revert h.
  induction Hg as [| |y k Hk IH|f k Hf Hk IH|p k Hk IH|p k Hk IH];
    intros h Hh; cbn [run fst]; auto.
  - destruct (labelPromises (settle_label p h) !! p); [|done].
    apply IH, Hsl, Hh.
  - destruct (actorPromises (settle_actor p h) !! p); [|done].
    apply IH, Hsa, Hh.
Qed.

Lemma after_call_keeps {platform : Platform} I t h k :
  prim_closed I -> I h -> I (after_call t h k).
Proof.
  intros HI Hh. pose proof HI as (_ & _ & _ & Hsl & Hsa).
  destruct k as [s|s]; cbn [after_call]; apply run_keeps; try done.
  - apply (keeps_getHtml I _ _ (prim_closed_everywhere I HI)), within_all.
  - apply (keeps_getTags I _ _ (prim_closed_everywhere I HI)), within_all.
Qed.

(** A filled slot holds a promise of the node, with the outcome that
    awaiting the slot produces. *)
Lemma label_stored_of_slot s r c p h :
  Inv h -> slots_deferred h ->
  mentionCells h !! r = Some c -> m_labelPromise c = Some p ->
  label_stored r p (label_outcome s c h) (label_resolutions r h) h.
Proof.
  intros HI Hd Hc Hp. destruct (HI r c Hc) as (_ & _ & Hown & _).
  destruct (Hown p Hp) as (pr & Hpr & Ho).
  destruct (Hd r c Hc) as [Hl _]. destruct (Hl p Hp) as [f Hf].
  exists c, pr, f. unfold label_outcome. rewrite Hf, Hp, Hpr.
  by repeat split.
Qed.

Lemma actor_stored_of_slot s r c p h :
  Inv h -> slots_deferred h ->
  mentionCells h !! r = Some c -> m_actorPromise c = Some p ->
  actor_stored r p (actor_outcome s c h) (actor_resolutions r h) h.
Proof.
  intros HI Hd Hc Hp. destruct (HI r c Hc) as (_ & _ & _ & Hown).
  destruct (Hown p Hp) as (pr & Hpr & Ho).
  destruct (Hd r c Hc) as [_ Ha]. destruct (Ha p Hp) as [f Hf].
  exists c, pr, f. unfold actor_outcome. rewrite Hf, Hp, Hpr.
  by repeat split.
Qed.

(** What [run] does to the heap, the machine does too: created as one more
    generator of a world and resumed alone, the environment settling each
    promise as the generator comes to wait for it. *)
Lemma run_is_reached {platform : Platform} {Y}
    (mk : Gen Y -> list Y -> Task) (g : Gen Y) (out : list Y) (w : World)
    (i : nat) :
  (forall g out h,
     resume_task (mk g out) h
     = ((resume g out h).1, mk (resume g out h).2.1 (resume g out h).2.2)) ->
  tasks w !! i = Some (mk g out) ->
  exists es, heap (exec es w) = (run g (heap w)).1.
Proof.
  intros Hmk. revert out w.
  induction g as [| |y g IH|f c IH|p c IH|p c IH]; intros out w Hi.
  - by exists [].
  - by exists [].
  - destruct (IH (out ++ [y])
                (mkWorld (heap w) (<[i := mk g (out ++ [y])]> (tasks w))
                         (cachedLog w))) as [es Hes].
    { simpl. apply list_lookup_insert_eq. eapply lookup_lt_Some; eauto. }
    exists (Resume i :: es). cbn [exec fold_left step]. rewrite Hi, Hmk.
    exact Hes.
  - destruct (IH (heap w) out
                (mkWorld (f (heap w)) (<[i := mk (c (heap w)) out]> (tasks w))
                         (cachedLog w))) as [es Hes].
    { simpl. apply list_lookup_insert_eq. eapply lookup_lt_Some; eauto. }
    exists (Resume i :: es). cbn [exec fold_left step]. rewrite Hi, Hmk.
    exact Hes.
  - cbn [run]. pose proof (settled_label_lookup p (heap w)) as Hl.
    destruct (labelPromises (settle_label p (heap w)) !! p) as [pr|] eqn:E;
      [|by exists []].
    assert (Hs : p_settled pr = true).
    { destruct (labelPromises (heap w) !! p); [|discriminate].
      injection Hl as ->. done. }
    destruct (IH (p_outcome pr) out
                (mkWorld (settle_label p (heap w))
                         (<[i := mk (c (p_outcome pr)) out]> (tasks w))
                         (cachedLog w))) as [es Hes].
    { simpl. apply list_lookup_insert_eq. eapply lookup_lt_Some; eauto. }
    exists (SettleLabel p :: Resume i :: es). cbn [exec fold_left step].
    cbn [tasks heap]. rewrite Hi, Hmk. cbn [resume]. rewrite E, Hs.
    exact Hes.
  - cbn [run]. pose proof (settled_actor_lookup p (heap w)) as Hl.
    destruct (actorPromises (settle_actor p (heap w)) !! p) as [pr|] eqn:E;
      [|by exists []].
    assert (Hs : p_settled pr = true).
    { destruct (actorPromises (heap w) !! p); [|discriminate].
      injection Hl as ->. done. }
    destruct (IH (p_outcome pr) out
                (mkWorld (settle_actor p (heap w))
                         (<[i := mk (c (p_outcome pr)) out]> (tasks w))
                         (cachedLog w))) as [es Hes].
    { simpl. apply list_lookup_insert_eq. eapply lookup_lt_Some; eauto. }
    exists (SettleActor p :: Resume i :: es). cbn [exec fold_left step].
    cbn [tasks heap]. rewrite Hi, Hmk. cbn [resume]. rewrite E, Hs.
    exact Hes.
Qed.

(** A call run alone is one schedule of the machine. *)
Lemma after_call_is_reached {platform : Platform} t k w :
  exists es, heap (exec es w) = after_call t (heap w) k.
Proof.
  destruct k as [s|s]; cbn [after_call].
  - destruct (run_is_reached HtmlTask (getHtml s t) []
                (step (CallHtml s t) w) (length (tasks w)))
      as [es Hes]; [done| |].
    { simpl. by apply list_lookup_middle. }
    by exists (CallHtml s t :: es).
  - destruct (run_is_reached TagsTask (getTags s t) []
                (step (CallTags s t) w) (length (tasks w)))
      as [es Hes]; [done| |].
    { simpl. by apply list_lookup_middle. }
    by exists (CallTags s t :: es).
Qed.

(** ** Nodes no generator has run on *)

Lemma prim_closed_mention_untouched r :
  prim_closed_on (fun r' => negb (r' =? r)) (fun _ => true)
                 (mention_untouched r).
Proof.
  split; [|split; [|split; [|split]]].
  - intros s r' h Hr [Hcell Hown]. apply negb_true_iff, Nat.eqb_neq in Hr.
    unfold getLabel.
    destruct (mentionCells h !! r') as [c'|] eqn:E; [|done].
    destruct (m_label c') as [l|resolver] eqn:El; [done|].
    destruct (m_labelPromise c') as [q|] eqn:Ep; [done|].
    destruct (resolver s) as [outcome|]; (split; [|done]); intros c Hc;
      simpl in Hc; rewrite list_lookup_insert_ne in Hc by done;
      by apply Hcell.
  - intros s r' h Hr [Hcell Hown]. apply negb_true_iff, Nat.eqb_neq in Hr.
    unfold getActor_.
    destruct (mentionCells h !! r') as [c'|] eqn:E; [|done].
    destruct (m_actor c') as [l|resolver] eqn:El; [done|].
    destruct (m_actorPromise c') as [q|] eqn:Ep; [done|].
    destruct (resolver s) as [outcome|]; split;
      try (intros c Hc; simpl in Hc;
           rewrite list_lookup_insert_ne in Hc by done; by apply Hcell);
      try done.
    intros p pr Hp. simpl in Hp.
    apply lookup_app_Some in Hp as [Hp|[_ Hp]]; [by eapply Hown|].
    destruct (p - length (actorPromises h)) as [|n]; [|done].
    simpl in Hp. injection Hp as <-. done.
  - intros r' actors h _ Hu. unfold store_actors.
    by destruct (markdownCells h !! r').
  - intros p h [Hcell Hown]. split.
    + intros c. rewrite mentionCells_settle_label. apply Hcell.
    + intros q pr. rewrite actorPromises_settle_label. apply Hown.
  - intros p h [Hcell Hown]. unfold settle_actor.
    destruct (actorPromises h !! p) as [pr|] eqn:Ep; [|done].
    destruct (p_settled pr); [done|].
    assert (Hne : p_owner pr <> r) by (by eapply Hown).
    split.
    + intros c Hc. unfold cache_actor in Hc.
      destruct (p_outcome pr) as [[o|]|]; try (by apply Hcell).
      simpl in Hc.
      destruct (mentionCells h !! p_owner pr); [|by apply Hcell].
      simpl in Hc. rewrite list_lookup_insert_ne in Hc by done.
      by apply Hcell.
    + intros q pr'. rewrite actorPromises_cache_actor. simpl. intros Hq.
      destruct (decide (q = p)) as [->|Hqp].
      * rewrite list_lookup_insert_eq in Hq by (eapply lookup_lt_Some; eauto).
        injection Hq as <-. done.
      * rewrite list_lookup_insert_ne in Hq by done. by eapply Hown.
Qed.

Lemma prim_closed_markdown_untouched r :
  prim_closed_on (fun _ => true) (fun r' => negb (r' =? r))
                 (markdown_untouched r).
Proof.
  split; [|split; [|split; [|split]]].
  - intros s r' h _ Hu. unfold getLabel.
    destruct (mentionCells h !! r') as [c'|]; [|done].
    destruct (m_label c'); [done|]. destruct (m_labelPromise c'); [done|].
    by destruct (_ s).
  - intros s r' h _ Hu. unfold getActor_.
    destruct (mentionCells h !! r') as [c'|]; [|done].
    destruct (m_actor c'); [done|]. destruct (m_actorPromise c'); [done|].
    by destruct (_ s).
  - intros r' actors h Hr Hu. apply negb_true_iff, Nat.eqb_neq in Hr.
    unfold store_actors. destruct (markdownCells h !! r') as [c'|]; [|done].
    intros c Hc. simpl in Hc. rewrite list_lookup_insert_ne in Hc by done.
    by apply Hu.
  - intros p h Hu c. rewrite markdownCells_settle_label. apply Hu.
  - intros p h Hu c. rewrite markdownCells_settle_actor. apply Hu.
Qed.

Lemma resumes_only_impl (P Q : Text -> bool) ts es :
  (forall t, P t = true -> Q t = true) ->
  resumes_only P ts es = true -> resumes_only Q ts es = true.
Proof.
  intros HPQ. revert ts.
  induction es as [|[s t|s t|t|i|p|p] es IH]; intros ts; simpl; auto.
  intros [Hi Hes]%andb_prop. rewrite (IH _ Hes), andb_true_r.
  destruct (ts !! i); auto.
Qed.

(** A node of a tree within [okm] and [okd] satisfies them. *)
Lemma within_has_mention okm okd r t :
  within okm okd t = true -> has_mention r t = true -> okm r = true.
Proof.
  unfold has_mention.
  assert (Hi : forall i, inline_within okm i = true ->
             negb (inline_within (fun r' => negb (r' =? r)) i) = true ->
             okm r = true).
  { induction i; simpl; auto; try done.
    intros Hok Hr. apply negb_true_iff, negb_false_iff, Nat.eqb_eq in Hr.
    by subst. }
  induction t as [i|strings values IH|r'] using Text_tree_ind; simpl;
    [apply Hi| |done].
  induction IH as [|v vs Hv _ IHvs]; simpl; [done|].
  intros [H1 H2]%andb_prop Hn. apply negb_true_iff, andb_false_iff in Hn.
  destruct Hn as [Hn|Hn].
  - apply Hv; [done|]. by rewrite Hn.
  - apply IHvs; [done|]. by rewrite Hn.
Qed.

Lemma within_has_markdown okm okd r t :
  within okm okd t = true -> has_markdown r t = true -> okd r = true.
Proof.
  unfold has_markdown.
  assert (Hi : forall i, inline_within (fun _ => true) i = true)
    by (induction i; done).
  induction t as [i|strings values IH|r'] using Text_tree_ind; simpl.
  - intros _. by rewrite Hi.
  - induction IH as [|v vs Hv _ IHvs]; simpl; [done|].
    intros [H1 H2]%andb_prop Hn. apply negb_true_iff, andb_false_iff in Hn.
    destruct Hn as [Hn|Hn].
    + apply Hv; [done|]. by rewrite Hn.
    + apply IHvs; [done|]. by rewrite Hn.
  - intros Hok Hr. apply negb_true_iff, negb_false_iff, Nat.eqb_eq in Hr.
    by subst.
Qed.

Lemma has_mention_template r strings values :
  has_mention r (TemplatedText strings values)
  = existsb (has_mention r) values.
Proof.
  unfold has_mention. simpl. induction values as [|v vs IH]; [done|].
  simpl. by rewrite negb_andb, IH.
Qed.

Lemma has_markdown_template r strings values :
  has_markdown r (TemplatedText strings values)
  = existsb (has_markdown r) values.
Proof.
  unfold has_markdown. simpl. induction values as [|v vs IH]; [done|].
  simpl. by rewrite negb_andb, IH.
Qed.

(** The cached objects of a tree are those of its mention and markdown
    nodes. *)
Lemma nothing_cached_by_nodes t h :
  (forall r, has_mention r t = true -> mention_cached r h = []) ->
  (forall r, has_markdown r t = true -> markdown_cached r h = []) ->
  getCachedObjects t h = [].
Proof.
  assert (Hi : forall i,
             (forall r, has_mention r (InlineNode i) = true ->
                        mention_cached r h = []) ->
             getCachedObjects_inline i h = []).
  { induction i; simpl; intros Hm; try done.
    - apply Hm. unfold has_mention. simpl. by rewrite Nat.eqb_refl.
    - apply IHi. intros r Hr. by apply Hm. }
  induction t as [i|strings values IH|r] using Text_tree_ind;
    cbn [getCachedObjects]; intros Hm Hd.
  - by apply Hi.
  - assert (Hm' : forall r, existsb (has_mention r) values = true ->
                            mention_cached r h = []).
    { intros r Hr. apply Hm. by rewrite has_mention_template. }
    assert (Hd' : forall r, existsb (has_markdown r) values = true ->
                            markdown_cached r h = []).
    { intros r Hr. apply Hd. by rewrite has_markdown_template. }
    clear Hm Hd.
    induction IH as [|v vs Hv _ IHvs]; simpl; [done|].
    rewrite Hv, IHvs; [done| | | |].
    + intros r Hr. apply Hm'. simpl. by rewrite Hr, orb_true_r.
    + intros r Hr. apply Hd'. simpl. by rewrite Hr, orb_true_r.
    + intros r Hr. apply Hm'. simpl. by rewrite Hr.
    + intros r Hr. apply Hd'. simpl. by rewrite Hr.
  - apply Hd. unfold has_markdown. simpl. by rewrite Nat.eqb_refl.
Qed.

Section Untouched.
Context {platform : Platform}.

(** A mention node built with a deferred actor has nothing cached as long
    as no generator of a tree that contains it is resumed. *)
Lemma mention_stays_uncached h0 es r :
  unresolved h0 = true -> fresh_mention h0 r = true ->
  resumes_only (fun t => negb (has_mention r t)) [] es = true ->
  mention_cached r (heap (exec es (start h0))) = [].
Proof.
  intros Hu Hf Hes.
  assert (H0 : mention_untouched r h0).
  { split.
    - intros c Hc. unfold fresh_mention in Hf. rewrite Hc in Hf.
      unfold deferred_fresh, unstarted in Hf.
      rewrite !andb_true_iff, !bool_decide_eq_true in Hf.
      destruct Hf as [[_ Hp] Hm].
      destruct (m_actor c), (m_cachedObject c); done.
    - intros p pr Hp. unfold unresolved in Hu.
      rewrite !andb_true_iff, !bool_decide_eq_true in Hu.
      destruct Hu as [[_ Ha] _]. apply length_zero_iff_nil in Ha.
      by rewrite Ha in Hp. }
  pose proof (exec_keeps_only (mention_untouched r) _ _
                (prim_closed_mention_untouched r)
                (fun t => negb (has_mention r t)) es [] (start h0)) as Hk.
  assert (Hun : mention_untouched r (heap (exec es (start h0)))).
  { apply Hk; [|constructor|done|done].
    intros t Ht. unfold has_mention in Ht.
    by apply negb_true_iff, negb_false_iff in Ht. }
  destruct Hun as [Hcell _]. unfold mention_cached.
  destruct (mentionCells (heap (exec es (start h0))) !! r) as [c|] eqn:E;
    [|done].
  by destruct (Hcell c eq_refl) as [-> _].
Qed.

(** A markdown node has nothing cached as long as no generator of a tree
    that contains it is resumed. *)
Lemma markdown_stays_uncached h0 es r :
  fresh_markdown h0 r = true ->
  resumes_only (fun t => negb (has_markdown r t)) [] es = true ->
  markdown_cached r (heap (exec es (start h0))) = [].
Proof.
  intros Hf Hes.
  assert (H0 : markdown_untouched r h0).
  { intros c Hc. unfold fresh_markdown in Hf. rewrite Hc in Hf.
    by apply bool_decide_eq_true in Hf. }
  pose proof (exec_keeps_only (markdown_untouched r) _ _
                (prim_closed_markdown_untouched r)
                (fun t => negb (has_markdown r t)) es [] (start h0)) as Hk.
  assert (Hcell : markdown_untouched r (heap (exec es (start h0)))).
  { apply Hk; [|constructor|done|done].
    intros t Ht. unfold has_markdown in Ht.
    by apply negb_true_iff, negb_false_iff in Ht. }
  unfold markdown_cached.
  destruct (markdownCells (heap (exec es (start h0))) !! r) as [c|] eqn:E;
    [|done].
  by rewrite (Hcell c E).
Qed.

End Untouched.

(** ** The template around a hashtag *)

Lemma run_leaking_template {platform : Platform} (s : Session) (h : Heap) :
  run (getHtml s leaking_template) h
  = (h, (["<p>"] ++ hashtag_html s "<p>" ++ ["</p>"], Val tt)).
Proof.
  unfold leaking_template.
  change (new_HashtagText "<p>") with (HashtagText "<p>").
  cbn [getHtml getHtml_inline map type_of suspend run templated_html].
  unfold id.
  assert (H1 : render_literal EmptyString false = ([], false))
    by reflexivity.
  assert (H2 : render_literal EmptyString true = ([], true))
    by reflexivity.
  rewrite H1. cbn [fst snd before_value yields]. rewrite H2.
  cbn [fst snd yields run andThen suspend]. unfold id.
  rewrite run_andThen, run_yields_Return. reflexivity.
Qed.

Lemma markers_of_chunks chunks : markers (join chunks) = (scan_chunks S0 chunks).2.
Proof. by rewrite markers_scan, scan_join. Qed.

Lemma scan_inert chunk : inert chunk = true -> scan S0 chunk = (S0, []).
Proof.
  unfold inert. destruct (scan S0 chunk) as [[] [|m ms]]; done.
Qed.

(** * The model on examples *)

(** The example in the documentation of the [text] tag. *)
Example text_doc_example :
  join (run (getHtml (platform := sample_platform) sample_session
          (TemplatedText
             ["Hello, <";
              ">!" +:+ Js.str1 Js.LF +:+ Js.str1 Js.LF +:+ "Goodbye!"]
             [InlineNode (EmText (PlainText "World"))])) empty_heap).2.1
  = "<p>Hello, &lt;<em>World</em>&gt;!</p><p>Goodbye!</p>".
Proof. reflexivity. Qed.

(** The split keeps the capture of the last line end between the chunks. *)
Example split_paragraphs_example :
  Js.split_paragraphs
    ("a  " +:+ Js.str1 Js.LF +:+ " " +:+ Js.str1 Js.CR +:+ Js.str1 Js.LF
     +:+ " b" +:+ Js.str1 Js.LF +:+ "c")
  = ["a"; " " +:+ Js.str1 Js.CR +:+ Js.str1 Js.LF;
     " b" +:+ Js.str1 Js.LF +:+ "c"].
Proof. reflexivity. Qed.

(** A mention of a URL that resolves: one anchor, one tag, and the actor
    cached afterwards. *)
Example mention_example :
  let r := run (getHtml (platform := sample_platform) finding_session
                        (InlineNode deferred_mention.2)) deferred_mention.1 in
  join r.2.1
  = "<a href=" +:+ quoted "https://remote.example/users/alice"
    +:+ " translate=" +:+ quoted "no" +:+ " class="
    +:+ quoted "h-card u-url mention" +:+ " target=" +:+ quoted "_blank"
    +:+ ">@<span>alice@remote.example</span></a>" /\
  (run (getTags (platform := sample_platform) finding_session
                (InlineNode deferred_mention.2)) r.1).2
  = ([Mention "@alice@remote.example" (Some alice_url)], Val tt) /\
  getCachedObjects (InlineNode deferred_mention.2) r.1 = [ActorObject alice] /\
  label_resolutions 0 r.1 = 1 /\ actor_resolutions 0 r.1 = 1.
Proof. repeat split; reflexivity. Qed.

(** A markdown node with both plugins: the handle found at construction is
    resolved on the first call and yields a mention, followed by the
    hashtag. *)
Example markdown_example :
  let built := new_MarkdownText (platform := sample_platform)
                 ("@alice@remote.example" +:+ Js.str1 Js.LF +:+ "#BotKit")
                 (mkOptions None None None) empty_heap in
  (run (getTags (platform := sample_platform) finding_session
                (MarkdownText 0)) built.1).2
  = ([Mention "@alice@remote.example" (Some alice_url);
      Hashtag "#botkit" (mkURL "https://bot.example/tags/botkit")], Val tt).
Proof. reflexivity. Qed.

(** * The claims *)




(** C2 (the code at the failing input). HashtagText.getHtml yields the
    stored tag as it is, while PlainText.getHtml escapes its text.  So the
    template that interpolates the hashtag [<p>] renders, in every session
    and every heap, to its end with two opening paragraph markers and one
    closing marker, which do not pair up; escaped, the label would carry no
    marker. *)
Theorem hashtag_label_unescaped {platform : Platform} (s : Session)
    (tag : string) (h : Heap) :
  (hashtag_html s tag !! 5 = Some tag /\
   (run (getHtml s (InlineNode (PlainText "<p>"))) h).2.1 = ["&lt;p&gt;"] /\
   inert (Js.encode tag) = true) /\
  (let r := run (getHtml s leaking_template) h in
   r.1 = h /\ r.2.2 = Val tt /\
   markers (join r.2.1) = [POpen; POpen; PClose] /\
   opens (markers (join r.2.1)) = 2 /\
   closes (markers (join r.2.1)) = 1 /\
   ~ balanced (join r.2.1)).
Proof.
  split; [split; [reflexivity|split; [reflexivity|apply inert_encode]]|].
  cbn zeta. rewrite run_leaking_template. cbn [fst snd].
  assert (Hm : markers (join (["<p>"] ++ hashtag_html s "<p>" ++ ["</p>"]))
               = [POpen; POpen; PClose]).
  { rewrite markers_of_chunks. unfold hashtag_html.
    cbn [app scan_chunks].
    rewrite !(scan_inert (Js.encode _)) by apply inert_encode.
    reflexivity. }
  rewrite Hm. unfold balanced. rewrite Hm. by repeat split.
Qed.

(** C3 (the code at the failing input). A markdown node built with
    mentions off and hashtags on: whatever hashtag tokens the discovery pass
    finds are stored in the node, yet getTags returns at once and yields
    none of them. *)
Theorem markdown_hashtags_lost {platform : Platform} (content : string)
    (linkify_opt : option bool) (s : Session) (h : Heap) (html : string)
    (env : MarkdownEnv) :
  md_render (mkMd (default true linkify_opt) false true) content
            (Some discovery_env) = Val (html, env) ->
  let built := new_MarkdownText content
                 (mkOptions (Some false) (Some true) linkify_opt) h in
  let r := length (markdownCells h) in
  built.2 = Val (MarkdownText r) /\
  (md_hashtags <$> markdownCells built.1 !! r) = Some (Some (env_hashtags env)) /\
  run (getTags s (MarkdownText r)) built.1 = (built.1, ([], Val tt)).
Proof.
  intros Hrender built r. subst built r.
  unfold new_MarkdownText, discover_mentions, discover_hashtags.
  simpl. rewrite Hrender. cbn [fst snd markdownCells].
  split; [done|]. split.
  - rewrite list_lookup_middle by done. done.
  - cbn [getTags markdown_tags run]. unfold id. cbn [markdownCells].
    rewrite list_lookup_middle by done. reflexivity.
Qed.

(** C3 at the source with one hashtag, with the sample parser. *)
Lemma markdown_hashtags_lost_witness :
  let built := new_MarkdownText (platform := sample_platform) "#botkit"
                 (mkOptions (Some false) (Some true) None) empty_heap in
  md_render (Platform := sample_platform) (mkMd true false true) "#botkit"
            (Some discovery_env)
    = Val ("<p>#botkit</p>", mkEnv [] ["#botkit"] "http://localhost" None) /\
  (md_hashtags <$> markdownCells built.1 !! 0) = Some (Some ["#botkit"]) /\
  run (getTags (platform := sample_platform) sample_session (MarkdownText 0))
      built.1 = (built.1, ([], Val tt)).
Proof.
  intros built. split; [reflexivity|].
  pose proof (markdown_hashtags_lost (platform := sample_platform) "#botkit"
                None sample_session empty_heap _ _ eq_refl) as (_ & H1 & H2).
  split; [exact H1|exact H2].
Defined.

(** C4 (counterexample). A mention by handle whose lookup throws: both
    getHtml and getTags end with the error, having yielded nothing. *)
Lemma mention_lookup_throws_counterexample :
  let node := mention_handle "@nobody@nowhere.example" empty_heap in
  (run (getHtml (platform := sample_platform) failing_session
                (InlineNode node.2)) node.1).2 = ([], Exn) /\
  (run (getTags (platform := sample_platform) failing_session
                (InlineNode node.2)) node.1).2 = ([], Exn).
Proof. split; reflexivity. Qed.

(** C4 (amended). For a mention node whose label resolves: when the actor
    resolution produces null or an object that is no actor, getHtml yields
    only the escaped label and getTags yields nothing, both returning
    normally; when the actor resolution throws, the error leaves getHtml
    and getTags, which yield nothing. *)
Theorem mention_unresolved_actor {platform : Platform} (s : Session) (r : nat)
    (c : MentionCell) (h : Heap) (label : string) :
  mentionCells h !! r = Some c ->
  label_outcome s c h = Val label ->
  (forall o, actor_outcome s c h = Val o -> isActor o = None ->
     (run (getHtml s (InlineNode (MentionText r))) h).2
       = ([Js.encode label], Val tt) /\
     (run (getTags s (InlineNode (MentionText r))) h).2 = ([], Val tt)) /\
  (actor_outcome s c h = Exn ->
     (run (getHtml s (InlineNode (MentionText r))) h).2 = ([], Exn) /\
     (run (getTags s (InlineNode (MentionText r))) h).2 = ([], Exn)).
Proof.
  intros Hc Hl. cbn [getHtml getTags getHtml_inline getTags_inline].
  rewrite !(run_mention_gen s r c h _ Hc), Hl. split.
  - intros o Ho Hn. rewrite Ho. unfold mention_html, mention_url, mention_tags.
    rewrite Hn. done.
  - intros He. rewrite He. done.
Qed.

(** C4 (amended) at a mention by handle, in a session whose lookups find
    nothing and in one whose lookups throw. *)
Lemma mention_unresolved_actor_witness :
  let node := mention_handle "@nobody@nowhere.example" empty_heap in
  (run (getHtml (platform := sample_platform) sample_session
                (InlineNode node.2)) node.1).2
    = (["@nobody@nowhere.example"], Val tt) /\
  (run (getTags (platform := sample_platform) sample_session
                (InlineNode node.2)) node.1).2 = ([], Val tt) /\
  (run (getHtml (platform := sample_platform) failing_session
                (InlineNode node.2)) node.1).2 = ([], Exn).
Proof.
  intros node.
  pose proof (mention_unresolved_actor (platform := sample_platform)
                sample_session 0
                (mkMention (inl "@nobody@nowhere.example")
                   (inr (async (self_or_lookup
                                  (fun s => String.eqb (actorHandle s)
                                              "@nobody@nowhere.example")
                                  "@nobody@nowhere.example")))
                   None None None 0 0)
                node.1 "@nobody@nowhere.example" eq_refl eq_refl) as [Hnull _].
  pose proof (mention_unresolved_actor (platform := sample_platform)
                failing_session 0
                (mkMention (inl "@nobody@nowhere.example")
                   (inr (async (self_or_lookup
                                  (fun s => String.eqb (actorHandle s)
                                              "@nobody@nowhere.example")
                                  "@nobody@nowhere.example")))
                   None None None 0 0)
                node.1 "@nobody@nowhere.example" eq_refl eq_refl) as [_ Hthrow].
  destruct (Hnull None eq_refl eq_refl) as [H1 H2].
  destruct (Hthrow eq_refl) as [H3 _].
  split; [exact H1|]. split; [exact H2|exact H3].
Defined.

(** C5 (counterexample). The URL path segment rendered for the hashtag
    built from two words is not the hyphenated slug. *)
Lemma hashtag_slug_counterexample :
  nth 3 (hashtag_html sample_session (normalize_tag "  Foo Bar  ")) EmptyString
    <> "foo-bar".
Proof. vm_compute. discriminate. Qed.

(** C5 (amended). A hashtag built from the input with two words between
    blanks renders the label with its casing kept and, as URL path segment,
    the lower-case name with the space percent-encoded. *)
Theorem hashtag_label_and_segment {platform : Platform} (s : Session)
    (h : Heap) :
  new_HashtagText "  Foo Bar  " = HashtagText "Foo Bar" /\
  run (getHtml s (InlineNode (new_HashtagText "  Foo Bar  "))) h
  = (h, (["<a href=" +:+ Js.dq; Js.encode (origin s); "/tags/"; "foo%20bar";
          hashtag_attrs; "Foo Bar"; "</span></a>"], Val tt)).
Proof. split; reflexivity. Qed.

(** C6 (the code at the failing input). The three decorators hand out the
    child's getTags generator itself, but their getCachedObjects returns the
    empty list whatever the child has cached: for a strong mention of an
    actor object the child reports the actor and the decorator nothing. *)
Theorem decorators_drop_cached_objects {platform : Platform} (s : Session)
    (t : Inline) (h : Heap) :
  (getTags s (InlineNode (StrongText t)) = getTags s (InlineNode t) /\
   getTags s (InlineNode (EmText t)) = getTags s (InlineNode t) /\
   getTags s (InlineNode (CodeText t)) = getTags s (InlineNode t)) /\
  (getCachedObjects (InlineNode (StrongText t)) h = [] /\
   getCachedObjects (InlineNode (EmText t)) h = [] /\
   getCachedObjects (InlineNode (CodeText t)) h = []) /\
  (let child := mention_labelled "@alice" (inl alice) empty_heap in
   getCachedObjects (InlineNode child.2) child.1 = [ActorObject alice] /\
   getCachedObjects (InlineNode (StrongText child.2)) child.1 = [] /\
   getCachedObjects (InlineNode (EmText child.2)) child.1 = [] /\
   getCachedObjects (InlineNode (CodeText child.2)) child.1 = []).
Proof. repeat split. Qed.

(** C7 (counterexample). A template just built around an actor object, on
    which neither getHtml nor getTags was invoked, already has that actor
    among its cached objects. *)
Lemma fresh_cache_counterexample :
  let built := new_TemplatedText ["Hi, "; "!"] [VActor alice] empty_heap in
  unresolved built.1 = true /\
  getCachedObjects built.2 built.1 = [ActorObject alice].
Proof. split; reflexivity. Qed.

(** C7 (amended). Take a tree whose mention nodes were all built with a
    deferred actor, in a heap of nodes just built, and let generators be
    created on any trees, this one included, promises settle and cached
    objects be asked for in any order, while the only generators resumed
    are those of trees that share no mention node and no markdown node with
    the tree: getCachedObjects of the tree then returns the empty list, at
    the end and so at every point before.  A mention node built with an
    actor object is no such node and has that actor cached from the
    start. *)
Theorem cached_objects_before_resolution {platform : Platform} (h0 : Heap)
    (es : list Event) (t : Text)
    (label : string + (Session -> Call string)) (a : Actor) :
  unresolved h0 = true ->
  fresh_tree h0 t = true ->
  resumes_only (apart t) [] es = true ->
  getCachedObjects t (heap (exec es (start h0))) = [] /\
  (let built := new_MentionText label (inl a) h0 in
   getCachedObjects (InlineNode built.2) built.1 = [ActorObject a] /\
   fresh_tree built.1 (InlineNode built.2) = false).
Proof.
  intros Hu Hf Hes. split.
  - apply nothing_cached_by_nodes.
    + intros r Hr. apply mention_stays_uncached; [done| |].
      * by apply (within_has_mention _ _ r t Hf).
      * apply (resumes_only_impl (apart t)); [|done].
        intros t' Ht'. apply negb_true_iff.
        destruct (has_mention r t') eqn:E; [|done].
        pose proof (within_has_mention _ _ r t' Ht' E) as Hn.
        cbn beta in Hn. by rewrite Hr in Hn.
    + intros r Hr. apply markdown_stays_uncached.
      * by apply (within_has_markdown _ _ r t Hf).
      * apply (resumes_only_impl (apart t)); [|done].
        intros t' Ht'. apply negb_true_iff.
        destruct (has_markdown r t') eqn:E; [|done].
        pose proof (within_has_markdown _ _ r t' Ht' E) as Hn.
        cbn beta in Hn. by rewrite Hr in Hn.
  - cbn zeta. split.
    + cbn [getCachedObjects getCachedObjects_inline new_MentionText fst snd].
      unfold mention_cached. cbn [mentionCells].
      by rewrite list_lookup_middle.
    + unfold fresh_tree, fresh_mention.
      cbn [within inline_within new_MentionText fst snd mentionCells].
      rewrite list_lookup_middle by done.
      unfold deferred_fresh. cbn [m_actor]. apply andb_false_r.
Qed.

(** C7 (amended) at two mentions: getHtml and getTags generators are created
    on both, and the one on the second node runs to its end and caches the
    actor it found, while the first node still has nothing cached. *)
Lemma cached_objects_before_resolution_witness :
  let t0 := InlineNode two_mentions.2.1 in
  let t1 := InlineNode two_mentions.2.2 in
  let h := heap (exec (platform := sample_platform) second_only
                   (start two_mentions.1)) in
  unresolved two_mentions.1 = true /\
  fresh_tree two_mentions.1 t0 = true /\
  resumes_only (apart t0) [] second_only = true /\
  getCachedObjects t1 h = [ActorObject alice] /\
  getCachedObjects t0 h = [].
Proof.
  cbn zeta. split; [reflexivity|]. split; [reflexivity|].
  split; [reflexivity|]. split; [reflexivity|].
  exact (proj1 (cached_objects_before_resolution (platform := sample_platform)
                  two_mentions.1 second_only (InlineNode two_mentions.2.1)
                  (inl "@alice") alice eq_refl eq_refl eq_refl)).
Defined.

(** C8. A link built with a target string the URL parser rejects (it is
    not an absolute URL) throws in the constructor, through either form of
    the link function as well; with a string the parser accepts, or with a
    URL object, the node is built, and its getTags is the getTags of its
    label. *)
Theorem link_requires_absolute_url {platform : Platform}
    (label : Inline + string) (target : string) (s : Session) :
  let label' := match label with inl t => t | inr str => PlainText str end in
  (URL_parse target = None ->
   new_LinkText label (inr target) = Exn /\
   link label (inr target) = Exn /\
   link_url (inr target) = Exn) /\
  (forall u, URL_parse target = Some u ->
   new_LinkText label (inr target) = Val (LinkText label' u) /\
   link label (inr target) = Val (LinkText label' u) /\
   link_url (inr target) = Val (LinkText (PlainText target) u)) /\
  (forall u,
   new_LinkText label (inl u) = Val (LinkText label' u) /\
   getTags s (InlineNode (LinkText label' u)) = getTags s (InlineNode label')).
Proof.
  intros label'. unfold link, link_url, new_LinkText. split; [|split].
  - intros ->. done.
  - intros u ->. done.
  - intros u. done.
Qed.

(** C8 at a relative path and at an absolute URL. *)
Lemma link_requires_absolute_url_witness :
  URL_parse (Platform := sample_platform) "/relative/path" = None /\
  URL_parse (Platform := sample_platform) "https://fedify.dev/"
    = Some (mkURL "https://fedify.dev/") /\
  link (platform := sample_platform) (inr "docs") (inr "/relative/path")
    = Exn /\
  link (platform := sample_platform) (inr "docs") (inr "https://fedify.dev/")
    = Val (LinkText (PlainText "docs") (mkURL "https://fedify.dev/")).
Proof.
  pose proof (link_requires_absolute_url (platform := sample_platform)
                (inr "docs") "/relative/path" sample_session) as [Hbad _].
  pose proof (link_requires_absolute_url (platform := sample_platform)
                (inr "docs") "https://fedify.dev/" sample_session)
    as (_ & Hgood & _).
  destruct (Hbad eq_refl) as (_ & H1 & _).
  destruct (Hgood _ eq_refl) as (_ & H2 & _).
  split; [reflexivity|]. split; [reflexivity|]. split; [exact H1|exact H2].
Defined.

(** C9. A markdown node built with the mentions option off renders, for
    every session and every source, exactly what the configured parser (the
    linkify option as given, the hashtag plugin if enabled, no mention
    plugin) renders when invoked directly on the source, and leaves the
    heap alone. *)
Theorem markdown_without_mentions {platform : Platform} (content : string)
    (hashtags linkify_opt : option bool) (s : Session) (h h' : Heap)
    (node : Text) :
  new_MarkdownText content (mkOptions (Some false) hashtags linkify_opt) h
    = (h', Val node) ->
  run (getHtml s node) h'
  = (h', direct_render
           (mkMd (default true linkify_opt) false (default true hashtags))
           content).
Proof.
  unfold new_MarkdownText, discover_mentions, discover_hashtags. simpl.
  destruct (default true hashtags) eqn:Eh.
  - destruct (md_render _ content (Some discovery_env)) as [[html env]|];
      [|discriminate].
    intros [= <- <-]. cbn [getHtml markdown_html run]. unfold id.
    cbn [markdownCells]. rewrite list_lookup_middle by done.
    cbn [md_mentions]. unfold render_chunk, direct_render. simpl.
    destruct (md_render _ content None) as [[html' env']|]; reflexivity.
  - intros [= <- <-]. cbn [getHtml markdown_html run]. unfold id.
    cbn [markdownCells]. rewrite list_lookup_middle by done.
    cbn [md_mentions]. unfold render_chunk, direct_render. simpl.
    destruct (md_render _ content None) as [[html' env']|]; reflexivity.
Qed.

(** C9 at a source with a handle, with the sample parser. *)
Lemma markdown_without_mentions_witness :
  let built := new_MarkdownText (platform := sample_platform)
                 "Hi @alice@remote.example"
                 (mkOptions (Some false) None None) empty_heap in
  built.2 = Val (MarkdownText 0) /\
  run (getHtml (platform := sample_platform) finding_session (MarkdownText 0))
      built.1
  = (built.1, (["<p>Hi @alice@remote.example</p>"], Val tt)).
Proof.
  intros built. split; [reflexivity|].
  exact (markdown_without_mentions (platform := sample_platform)
           "Hi @alice@remote.example" None None finding_session empty_heap
           built.1 (MarkdownText 0) eq_refl).
Defined.

(** C10. For an actor whose id is null, mentions answers false and
    touches nothing: the heap is as before, whatever the tree.  For an actor
    with an id, or a URL, it answers true exactly when one of the tags the
    tree yields is a Mention whose href has the href of that id or URL; and
    it answers false exactly when the tag stream ends normally without such
    a tag. *)
Theorem mentions_spec {platform : Platform} (s : Session) (t : Text)
    (url_of_actor : option ActorUrl) (target : URL) (h : Heap) :
  mentions s t (inl (mkActor None url_of_actor)) h = (h, Val false) /\
  (forall actor : Actor + URL,
     actor = inl (mkActor (Some target) url_of_actor) \/ actor = inr target ->
     ((mentions s t actor h).2 = Val true <->
      exists name u, In (Mention name (Some u)) (run (getTags s t) h).2.1 /\
                     href u = href target) /\
     ((mentions s t actor h).2 = Val false <->
      (run (getTags s t) h).2.2 = Val tt /\
      ~ exists name u, In (Mention name (Some u)) (run (getTags s t) h).2.1 /\
                     href u = href target)).
Proof.
  split; [reflexivity|].
  intros actor Hactor.
  assert (Hm : mentions s t actor h
               = for_await_some (mentions_url target) (getTags s t) h).
  { destruct Hactor as [-> | ->]; reflexivity. }
  rewrite Hm, for_await_some_true, for_await_some_false.
  rewrite <- mentions_url_exists. split; [done|].
  destruct (existsb (mentions_url target) (run (getTags s t) h).2.1);
    split; intros [H1 H2]; try done.
Qed.

(** C10 at a template that interpolates a URL and an actor. *)
Lemma mentions_spec_witness :
  let built := new_TemplatedText ["Hi, "; "!"] [VURL alice_url; VActor alice]
                 empty_heap in
  (mentions (platform := sample_platform) finding_session built.2
            (inr alice_url) built.1).2 = Val true /\
  (mentions (platform := sample_platform) finding_session built.2
            (inl (mkActor None None)) built.1) = (built.1, Val false).
Proof.
  intros built.
  pose proof (mentions_spec (platform := sample_platform) finding_session
                built.2 None alice_url built.1) as [Hnull Hiff].
  destruct (Hiff (inr alice_url) (or_intror eq_refl)) as [[_ Htrue] _].
  split; [|exact Hnull].
  apply Htrue. exists "@alice@remote.example", alice_url.
  split; [|reflexivity]. vm_compute. left. reflexivity.
Defined.

(** * Further properties of the module *)

(** ** PlainText *)

Lemma plain_more_flat_map lines :
  plain_more lines = flat_map (fun y => ["<br>"; y]) (map Js.encode lines).
Proof.
  induction lines as [|x rest IH]; simpl; [done|]. by rewrite IH.
Qed.

Lemma plain_html_intersperse text :
  plain_html text = intersperse "<br>" (map Js.encode (Js.split_lf text)).
Proof.
  unfold plain_html. destruct (Js.split_lf text) as [|x rest]; [done|].
  simpl. by rewrite plain_more_flat_map.
Qed.

Lemma join_with_cons2 sep a b l :
  join_with sep (a :: b :: l) = a +:+ sep +:+ join_with sep (b :: l).
Proof. reflexivity. Qed.

Lemma join_split_lf text :
  join_with (Js.str1 Js.LF) (Js.split_lf text) = text.
Proof.
  induction text as [|c r IH]; [done|].
  cbn [Js.split_lf]. destruct (Ascii.eqb c Js.LF) eqn:E.
  - apply Ascii.eqb_eq in E. subst c.
    destruct (split_lf_cons r) as (x & t & Hs). rewrite Hs in *.
    rewrite join_with_cons2, IH. reflexivity.
  - destruct (Js.split_lf r) as [|x t]; [simpl in IH; by subst r|].
    destruct t as [|y t].
    + simpl in *. by rewrite IH.
    + rewrite join_with_cons2 in *. rewrite append_cons. by rewrite IH.
Qed.

Lemma all_chars_app f a b :
  all_chars f (a +:+ b) = all_chars f a && all_chars f b.
Proof.
  induction a as [|c a IH]; [by rewrite append_nil|].
  rewrite append_cons. simpl. rewrite IH. by rewrite andb_assoc.
Qed.

Lemma escaped_encode_char c : escaped (Js.encode_char c) = true.
Proof.
  unfold Js.encode_char, escaped, markup_char.
  destruct (nat_of_ascii c =? 60) eqn:E1; [done|].
  destruct (nat_of_ascii c =? 62) eqn:E2; [done|].
  destruct (nat_of_ascii c =? 34) eqn:E3; [done|].
  destruct (nat_of_ascii c =? 39) eqn:E4; [done|].
  destruct (nat_of_ascii c =? 38) eqn:E5; [done|].
  simpl. by rewrite E1, E2, E3, E4.
Qed.

Lemma escaped_encode s : escaped (Js.encode s) = true.
Proof.
  induction s as [|c r IH]; [done|].
  simpl. unfold escaped in *. rewrite all_chars_app.
  rewrite IH, andb_true_r. apply escaped_encode_char.
Qed.

(** X1 (PlainText): getHtml yields the lines of the text, each escaped, with
    one line break chunk between two lines; the lines are the pieces of the
    text between line feeds, so no character is dropped; every chunk other
    than a line break is free of markup characters; getTags yields nothing;
    neither touches the heap. *)
Theorem plain_text_lines {platform : Platform} (s : Session) (text : string)
    (h : Heap) :
  run (getHtml s (InlineNode (PlainText text))) h
  = (h, (intersperse "<br>" (map Js.encode (Js.split_lf text)), Val tt)) /\
  join_with (Js.str1 Js.LF) (Js.split_lf text) = text /\
  Forall (fun chunk => chunk = "<br>" \/ escaped chunk = true)
         (intersperse "<br>" (map Js.encode (Js.split_lf text))) /\
  run (getTags s (InlineNode (PlainText text))) h = (h, ([], Val tt)).
Proof.
  split; [|split; [apply join_split_lf|split; [|reflexivity]]].
  - cbn [getHtml getHtml_inline suspend run]. unfold id.
    rewrite run_yields_Return. by rewrite plain_html_intersperse.
  - destruct (Js.split_lf text) as [|x rest]; [constructor|].
    cbn [map intersperse]. constructor; [right; apply escaped_encode|].
    induction rest as [|y rest IH]; [constructor|].
    cbn [map flat_map app]. constructor; [by left|].
    constructor; [right; apply escaped_encode|exact IH].
Qed.
(** ** TemplatedText: what a literal renders to *)

Lemma render_lines_chunks lines l opened :
  (render_lines lines l opened).1 =
  match List.filter (fun line => negb (Js.is_empty (Js.trim line))) lines with
  | [] => []
  | x :: rest =>
      (if (l <? 1) && negb opened then ["<p>"] else [])
      ++ (if 0 <? l then ["<br>"] else [])
      ++ Js.encode x :: flat_map (fun y => ["<br>"; y]) (map Js.encode rest)
  end.
Proof.
  revert l opened. induction lines as [|line rest IH]; intros l opened; [done|].
  cbn [render_lines List.filter].
  destruct (Js.is_empty (Js.trim line)); cbn [negb]; [apply IH|].
  cbn [fst]. rewrite IH.
  destruct (List.filter _ rest) as [|x rest']; [done|].
  assert (Hs : (S l <? 1) = false) by (apply Nat.ltb_ge; lia).
  rewrite Hs. cbn [andb app map flat_map]. reflexivity.
Qed.

Lemma nonblank_rendered_lines para :
  nonblank para = negb (bool_decide (rendered_lines para = [])).
Proof.
  unfold nonblank, rendered_lines.
  induction (Js.split_lf para) as [|line rest IH]; [done|].
  cbn [existsb List.filter].
  destruct (negb (Js.is_empty (Js.trim line))); [done|]. exact IH.
Qed.

(** One paragraph chunk, with the closing marker that follows it sooner or
    later. *)
Lemma render_lines_paragraph para :
  let r := render_lines (Js.split_lf para) 0 false in
  r.2 = nonblank para /\
  r.1 ++ (if r.2 then ["</p>"] else [])
  = if nonblank para then paragraph_html para else [].
Proof.
  cbn zeta. rewrite render_lines_state, render_lines_chunks.
  cbn [orb]. change (0 <? 1) with true. rewrite andb_true_r.
  split; [reflexivity|].
  change (has_line (Js.split_lf para)) with (nonblank para).
  rewrite nonblank_rendered_lines. unfold paragraph_html.
  change (List.filter _ (Js.split_lf para)) with (rendered_lines para).
  destruct (rendered_lines para) as [|x rest]; [done|].
  reflexivity.
Qed.

Lemma render_paragraphs_chunks paras p opened :
  1 <= p \/ opened = false ->
  let r := render_paragraphs paras p opened in
  r.1 ++ (if r.2 then ["</p>"] else [])
  = (if opened then ["</p>"] else [])
    ++ concat (map paragraph_html (List.filter nonblank paras)).
Proof.
  revert p opened. induction paras as [|para rest IH]; intros p opened Hp.
  - simpl. by rewrite app_nil_r.
  - cbn zeta. cbn [render_paragraphs fst snd].
    assert (Hc : ((0 <? p) && opened) = opened).
    { destruct opened; [|by rewrite andb_false_r].
      destruct Hp as [Hp|Hp]; [|done].
      rewrite andb_true_r. apply Nat.ltb_lt. lia. }
    rewrite Hc.
    assert (Ho : (if opened then false else opened) = false)
      by (by destruct opened).
    rewrite Ho.
    destruct (render_lines_paragraph para) as [Hst Hout].
    assert (Hp' : 1 <= S p \/ (render_lines (Js.split_lf para) 0 false).2
                                = false) by (left; lia).
    specialize (IH (S p) _ Hp').
    cbn zeta in IH. rewrite <- !app_assoc, IH.
    cbn [List.filter]. rewrite Hst in *.
    destruct (nonblank para).
    + cbn [map concat]. rewrite <- Hout. by rewrite <- !app_assoc.
    + rewrite app_nil_r in Hout. rewrite Hout. reflexivity.
Qed.

Lemma filter_evens_only {A} (f : A -> bool) l :
  Forall (fun x => f x = false) (odds l) ->
  List.filter f l = List.filter f (evens l).
Proof.
  assert (H : forall n (l : list A), length l <= n ->
    Forall (fun x => f x = false) (odds l) ->
    List.filter f l = List.filter f (evens l)).
  { induction n as [|n IH]; intros [|x [|y l']] Hl Hodd; simpl in *;
      try lia; try done.
    change (match l' with [] => [] | x0 :: rest => x0 ::
              match rest with [] => [] | _ :: rest' => evens rest' end end)
      with (evens l') in *.
    inversion Hodd as [|? ? Hy Hrest]; subst. rewrite Hy.
    assert (Ho : match l' with [] => [] | _ :: rest' => evens rest' end = odds l')
      by reflexivity.
    rewrite Ho in Hrest.
    rewrite (IH l'); [done|lia|done]. }
  intros. apply (H (length l)); [lia|done].
Qed.

Lemma run_closing (opened : bool) h :
  run (if opened then Yield "</p>" Return else Return) h
  = (h, ((if opened then ["</p>"] else []), Val tt)).
Proof. by destruct opened. Qed.

(** X2 (TemplatedText.getHtml on a literal): a template of one literal and
    no value renders one paragraph for each chunk of the literal (the pieces
    between blank-line boundaries) that has a line other than white space:
    an opening marker, the escaped non-blank lines of the chunk with a line
    break between two of them, and a closing marker.  Blank lines and
    blank chunks leave no trace, the heap is not touched and the generator
    returns. *)
Theorem literal_paragraphs {platform : Platform} (s : Session)
    (literal : string) (h : Heap) :
  run (getHtml s (TemplatedText [literal] [])) h
  = (h, (concat (map paragraph_html
                     (List.filter nonblank (chunks_of literal))), Val tt)).
Proof.
  cbn [getHtml map suspend run]. unfold id.
  cbn [templated_html]. rewrite run_yields, run_closing. cbn [fst snd].
  unfold render_literal.
  rewrite (render_paragraphs_chunks _ 0 false (or_intror eq_refl)).
  cbn [app]. unfold chunks_of.
  rewrite (filter_evens_only nonblank (Js.split_paragraphs literal));
    [done|]. apply split_blank_captures.
Qed.
(** ** TemplatedText: children *)

Lemma render_literal_empty opened :
  render_literal EmptyString opened = ([], opened).
Proof. by destruct opened. Qed.

(** X3 (TemplatedText.getHtml around one child): a template that consists
    of one interpolated value renders a block child as the child renders
    itself, and an inline child inside one paragraph; when the child throws,
    the template throws after the same chunks, the paragraph left open. *)
Theorem single_interpolation {platform : Platform} (s : Session) (v : Text)
    (h : Heap) :
  let r := run (getHtml s v) h in
  run (getHtml s (TemplatedText [EmptyString; EmptyString] [v])) h
  = match type_of v with
    | block => r
    | inline =>
        (r.1, ("<p>" :: r.2.1
                ++ match r.2.2 with Val _ => ["</p>"] | Exn => [] end,
               r.2.2))
    end.
Proof.
  cbn zeta. cbn [getHtml map suspend run]. unfold id.
  cbn [templated_html]. rewrite !render_literal_empty. cbn [fst snd yields].
  destruct (type_of v); cbn [before_value fst snd yields].
  - rewrite run_andThen. cbn [run].
    destruct (run (getHtml s v) h) as [h' [out [[]|]]]; cbn [fst snd];
      [by rewrite app_nil_r|done].
  - cbn [run]. rewrite run_andThen. cbn [run].
    destruct (run (getHtml s v) h) as [h' [out [[]|]]]; cbn [fst snd];
      [done|by rewrite app_nil_r].
Qed.

(** X4 (an interpolated string): a value that is no text tree, URL, actor
    or emoji is rendered through PlainText, so inside a template it makes up
    one paragraph however many line feeds it has: unlike in a literal, two
    line feeds in a row do not start a new paragraph and a blank line is
    kept as a line break. *)
Theorem interpolated_string {platform : Platform} (s : Session)
    (str : string) (h h' : Heap) :
  let built := new_TemplatedText [EmptyString; EmptyString] [VOther str] h in
  built.1 = h /\
  run (getHtml s built.2) h'
  = (h', ("<p>" :: intersperse "<br>" (map Js.encode (Js.split_lf str))
          ++ ["</p>"], Val tt)).
Proof.
  cbn zeta. split; [done|].
  cbn [new_TemplatedText coerce_all coerce fst snd].
  cbn [getHtml map suspend run type_of]. unfold id.
  cbn [templated_html]. rewrite !render_literal_empty.
  cbn [fst snd yields before_value run].
  rewrite run_andThen. cbn [getHtml_inline suspend run]. unfold id.
  rewrite run_yields_Return. cbn [fst snd run].
  by rewrite plain_html_intersperse.
Qed.

Lemma templated_html_take strings values opened :
  templated_html strings (take (length strings) values) opened
  = templated_html strings values opened.
Proof.
  revert values opened.
  induction strings as [|str strings IH]; intros values opened; [done|].
  destruct values as [|[ty html] values]; [done|].
  cbn [length take templated_html]. by rewrite IH.
Qed.

(** X5 (TemplatedText.getHtml, more values than literals): getHtml walks the
    literals and renders the child at an index only while a literal has that
    index, so the values from the number of literals on are never rendered;
    getTags and getCachedObjects loop over all the values and do not depend
    on the literals at all. *)
Theorem values_beyond_literals {platform : Platform} (s : Session)
    (strings strings' : list string) (values : list Text) (h : Heap) :
  getHtml s (TemplatedText strings values)
  = getHtml s (TemplatedText strings (take (length strings) values)) /\
  getTags s (TemplatedText strings values)
  = getTags s (TemplatedText strings' values) /\
  getCachedObjects (TemplatedText strings values) h
  = getCachedObjects (TemplatedText strings' values) h.
Proof.
  split; [|done]. cbn [getHtml]. f_equal.
  rewrite <- (templated_html_take strings (map _ values)).
  rewrite List.firstn_map.
  reflexivity.
Qed.

(** X6 (TemplatedText.getTags): the tags of a template are the tags of its
    children in the order of the children, each child running in the heap
    the one before left; a child that throws ends the extraction with the
    tags yielded so far; a template without children yields nothing. *)
Theorem template_tags_in_order {platform : Platform} (s : Session)
    (strings : list string) (v : Text) (values : list Text) (h : Heap) :
  run (getTags s (TemplatedText strings [])) h = (h, ([], Val tt)) /\
  run (getTags s (TemplatedText strings (v :: values))) h
  = let r1 := run (getTags s v) h in
    match r1.2.2 with
    | Exn => r1
    | Val _ =>
        let r2 := run (getTags s (TemplatedText strings values)) r1.1 in
        (r2.1, (r1.2.1 ++ r2.2.1, r2.2.2))
    end.
Proof.
  split; [done|]. cbn [getTags map chain suspend run]. unfold id.
  by rewrite run_andThen.
Qed.
(** ** HashtagText: the normalised tag *)

Lemma trimStart_head s :
  match Js.trimStart s with
  | EmptyString => True
  | String c _ => Js.is_ws c = false
  end.
Proof.
  induction s as [|c r IH]; [done|]. simpl.
  destruct (Js.is_ws c) eqn:E; [exact IH|exact E].
Qed.

Lemma trimStart_idem s : Js.trimStart (Js.trimStart s) = Js.trimStart s.
Proof.
  pose proof (trimStart_head s) as H.
  destruct (Js.trimStart s) as [|c r]; [done|]. simpl. by rewrite H.
Qed.

Lemma trimEnd_idem s : Js.trimEnd (Js.trimEnd s) = Js.trimEnd s.
Proof.
  induction s as [|c r IH]; [done|]. cbn [Js.trimEnd]. cbn zeta.
  destruct (Js.is_empty (Js.trimEnd r) && Js.is_ws c) eqn:E; [done|].
  cbn [Js.trimEnd]. cbn zeta. by rewrite IH, E.
Qed.

Lemma trimEnd_cons c r :
  Js.is_ws c = false -> Js.trimEnd (String c r) = String c (Js.trimEnd r).
Proof. intros H. cbn [Js.trimEnd]. cbn zeta. by rewrite H, andb_false_r. Qed.

Lemma trimEnd_fixed c r :
  Js.trimEnd (String c r) = String c r ->
  Js.trimEnd r = r /\ (r = EmptyString -> Js.is_ws c = false).
Proof.
  cbn [Js.trimEnd]. cbn zeta.
  destruct (Js.is_empty (Js.trimEnd r) && Js.is_ws c) eqn:E; [done|].
  intros [= Hr]. split; [done|]. intros ->. simpl in E. done.
Qed.

Lemma ws_not_space c : Js.is_ws c = false -> Ascii.eqb c Js.SP = false.
Proof.
  intros H. destruct (Ascii.eqb c Js.SP) eqn:E; [|done].
  apply Ascii.eqb_eq in E. subst c. done.
Qed.

Lemma spaced_collapse s after_space :
  s <> EmptyString -> Js.trimEnd s = s ->
  (after_space = true ->
   match s with String c _ => Js.is_ws c = false | EmptyString => True end) ->
  spaced after_space (Js.collapse_ws s) = true.
Proof.
  revert after_space. induction s as [|c r IH]; intros after_space Hne Hend Hhead;
    [done|].
  apply trimEnd_fixed in Hend as [Hr Hlast].
  cbn [Js.collapse_ws]. destruct (Js.is_ws c) eqn:Ec.
  - destruct after_space; [by specialize (Hhead eq_refl)|].
    destruct r as [|c' r']; [by specialize (Hlast eq_refl)|].
    destruct (Js.is_ws c') eqn:Ec'.
    + apply IH; [done|done|done].
    + cbn [spaced]. change (Ascii.eqb Js.SP Js.SP) with true. cbn [negb andb].
      apply IH; [done|done|done].
  - cbn [spaced]. rewrite (ws_not_space _ Ec), Ec. cbn [negb andb].
    destruct r as [|c' r']; [done|]. apply IH; [done|done|done].
Qed.

Lemma tidy_collapse_trim s : tidy (Js.collapse_ws (Js.trim s)) = true.
Proof.
  unfold tidy, Js.trim. pose proof (trimStart_head s) as Hhead.
  destruct (Js.trimStart s) as [|c r]; [done|].
  rewrite (trimEnd_cons _ _ Hhead).
  rewrite spaced_collapse; [by rewrite orb_true_r|done| |done].
  rewrite <- (trimEnd_cons _ _ Hhead). apply trimEnd_idem.
Qed.

Lemma trimStart_hash r :
  Js.trimStart (String "#" r) = String "#" r.
Proof. reflexivity. Qed.

Lemma strip_hash_hash r : Js.strip_hash (String "#" r) = r.
Proof. reflexivity. Qed.

Lemma trimEnd_hash r :
  Js.trimEnd (String "#" r) = String "#" (Js.trimEnd r).
Proof. by apply trimEnd_cons. Qed.

Lemma collapse_ws_hash r :
  Js.collapse_ws (String "#" r) = String "#" (Js.collapse_ws r).
Proof. reflexivity. Qed.

(** X7 (HashtagText constructor): whatever string it is given, the stored
    tag has no white space at either end and no white space inside other than
    single spaces between words; of several leading hash signs only the first
    is removed. *)
Theorem normalize_tag_tidy (tag : string) :
  tidy (normalize_tag tag) = true /\
  new_HashtagText ("##" +:+ tag)
  = HashtagText ("#" +:+ Js.collapse_ws (Js.trimEnd tag)).
Proof.
  split; [apply tidy_collapse_trim|].
  unfold new_HashtagText, normalize_tag, Js.trim. f_equal.
  rewrite !append_cons, !append_nil.
  by rewrite trimStart_hash, strip_hash_hash, trimStart_hash, trimEnd_hash,
    collapse_ws_hash.
Qed.

(** X8 (hashtag, the leading hash sign is optional): for a tag whose first
    character other than white space is not a hash sign, writing a hash sign
    in front of it builds the same node. *)
Theorem hashtag_hash_optional (tag : string) :
  Js.starts_with "#" (Js.trimStart tag) = false ->
  new_HashtagText ("#" +:+ tag) = new_HashtagText tag.
Proof.
  intros Hno. unfold new_HashtagText, normalize_tag. f_equal. f_equal.
  rewrite append_cons, append_nil, trimStart_hash, strip_hash_hash.
  assert (Hs : Js.strip_hash (Js.trimStart tag) = Js.trimStart tag).
  { destruct (Js.trimStart tag) as [|c r]; [done|].
    cbn [Js.starts_with Js.strip_hash] in *. rewrite andb_true_r in Hno.
    rewrite Ascii.eqb_sym in Hno. by rewrite Hno. }
  rewrite Hs. unfold Js.trim. by rewrite trimStart_idem.
Qed.

Lemma hashtag_hash_optional_witness :
  new_HashtagText ("#" +:+ "  Foo Bar  ") = new_HashtagText "  Foo Bar  ".
Proof. apply hashtag_hash_optional. reflexivity. Defined.
(** ** MentionText: what the first call decides *)

(** X9 (MentionText, the first call decides): a call of getHtml or getTags
    on a mention node yields what the label and the actor of that call give.
    When no resolver threw synchronously in it, every later call of either
    method, after any number of further calls and with whatever sessions,
    yields the same label and actor and calls no resolver: the tags name the
    actor the HTML links to, and a lookup whose promise was rejected fails
    again at every later call without being retried.  When the label
    resolver threw synchronously, nothing was stored: the next call yields
    what it would have yielded as the first call, with its own session.
    When the actor resolver threw synchronously, the label is kept and the
    next call looks the actor up again with its own session. *)
Theorem mention_first_call_decides {platform : Platform} (first : NodeCall)
    (later : list NodeCall) (s' : Session) (r : nat) (c : MentionCell)
    (h : Heap) :
  mentionCells h !! r = Some c ->
  let node := InlineNode (MentionText r) in
  let s := call_session first in
  let label := label_outcome s c h in
  let actor := actor_outcome s c h in
  let h1 := after_call node h first in
  let h' := after_calls node later h1 in
  ((run (getHtml s node) h).2 = mention_result mention_html label actor /\
   (run (getTags s node) h).2 = mention_result mention_tags label actor) /\
  (starts_label s c <> Some Throws ->
   (label <> Exn -> starts_actor s c <> Some Throws) ->
   (run (getHtml s' node) h').2 = mention_result mention_html label actor /\
   (run (getTags s' node) h').2 = mention_result mention_tags label actor /\
   label_resolutions r h' = label_resolutions r h1 /\
   actor_resolutions r h' = actor_resolutions r h1) /\
  (starts_label s c = Some Throws ->
   label_resolutions r h1 = S (label_resolutions r h) /\
   (run (getHtml s' node) h1).2 = (run (getHtml s' node) h).2 /\
   (run (getTags s' node) h1).2 = (run (getTags s' node) h).2) /\
  (label <> Exn -> starts_actor s c = Some Throws ->
   actor_resolutions r h1 = S (actor_resolutions r h) /\
   (run (getHtml s' node) h1).2
   = mention_result mention_html label (actor_outcome s' c h) /\
   (run (getTags s' node) h1).2
   = mention_result mention_tags label (actor_outcome s' c h)).
Proof.
  intros Hc. cbn zeta.
  split; [split; by apply run_mention_result|].
  destruct (mention_after_call first r c h Hc)
    as (c' & Hc' & _ & _ & [Hnl Hna] & Hl & Ha & _).
  cbn zeta in *. set (s := call_session first) in *.
  set (h1 := after_call (InlineNode (MentionText r)) h first) in *.
  split; [|split].
  - intros Hno Hno'.
    assert (Hd : decided r (label_outcome s c h) (actor_outcome s c h) h1).
    { exists c'. split; [exact Hc'|]. intros s0.
      destruct (Hl s0) as [Hl1 Hl2]. destruct (Ha s0) as [Ha1 Ha2].
      split.
      - by rewrite Hl1, Hl2, label_outcome_decided, starts_label_decided.
      - intros Hval. rewrite Ha1, Ha2.
        destruct (label_outcome s c h); [|done].
        by rewrite actor_outcome_decided, starts_actor_decided by auto. }
    destruct (decided_after_calls later r _ _ h1 Hd) as (Hd' & Hcl & Hca).
    split; [apply (decided_result _ _ _ _ _ _ Hd')|].
    split; [apply (decided_result _ _ _ _ _ _ Hd')|]. by split.
  - intros Hthrows. rewrite Hthrows in *. cbn [calls_made] in Hnl.
    split; [lia|].
    assert (Hlo : label_outcome s c h = Exn).
    { revert Hthrows. unfold starts_label, label_outcome.
      destruct (m_label c); [done|]. destruct (m_labelPromise c); [done|].
      by intros [= ->]. }
    rewrite Hlo in Ha.
    cbn [getHtml getTags getHtml_inline getTags_inline].
    rewrite !(run_mention_result s' r c' h1 _ Hc'),
      !(run_mention_result s' r c h _ Hc).
    destruct (Hl s') as [-> _]. destruct (Ha s') as [-> _]. done.
  - intros Hval Hthrows. rewrite Hthrows in *.
    destruct (label_outcome s c h) as [label|] eqn:Hlo; [|done].
    cbn [calls_made] in Hna. split; [lia|].
    assert (Hno : starts_label s c <> Some Throws).
    { intros Hs. revert Hs Hlo. unfold starts_label, label_outcome.
      destruct (m_label c); [done|]. destruct (m_labelPromise c); [done|].
      by intros [= ->]. }
    cbn [getHtml getTags getHtml_inline getTags_inline].
    rewrite !(run_mention_result s' r c' h1 _ Hc').
    destruct (Hl s') as [-> _]. destruct (Ha s') as [-> _].
    by rewrite label_outcome_decided, Hlo.
Qed.

(** X9 at the sample mention: after getHtml with a session whose lookups
    succeed, getTags with a session whose lookups throw, asked after two
    more calls with that session, names the actor found first. *)
Lemma mention_first_call_decides_witness :
  let node := InlineNode deferred_mention.2 in
  (run (getTags (platform := sample_platform) failing_session node)
       (after_calls (platform := sample_platform) node
          [TagsCall failing_session; HtmlCall failing_session]
          (after_call (platform := sample_platform) node deferred_mention.1
             (HtmlCall finding_session)))).2
  = ([Mention "@alice@remote.example" (Some alice_url)], Val tt).
Proof.
  pose proof (mention_first_call_decides (platform := sample_platform)
                (HtmlCall finding_session)
                [TagsCall failing_session; HtmlCall failing_session]
                failing_session 0
                (mkMention (inr (async (handle_of (inr alice_url))))
                   (inr (async (self_or_lookup (is_bot_url (Some alice_url))
                                               (href alice_url))))
                   None None None 0 0)
                deferred_mention.1 eq_refl) as H.
  cbn zeta in H. destruct H as (_ & H & _).
  destruct H as (_ & H & _); [discriminate|discriminate|]. exact H.
Defined.

(** X10 (MentionText cache): the first call on a node built with a deferred
    actor caches the object the lookup returns, whether it is an actor or
    not; when the label cannot be resolved the actor is not looked up at all,
    and then, as when the lookup returns null or throws, nothing is cached. *)
Theorem mention_caches_lookup {platform : Platform} (s : Session) (r : nat)
    (c : MentionCell) (h : Heap) :
  mentionCells h !! r = Some c ->
  deferred_fresh c = true ->
  let node := InlineNode (MentionText r) in
  let h' := (run (getHtml s node) h).1 in
  getCachedObjects node h'
  = match label_outcome s c h, actor_outcome s c h with
    | Val _, Val (Some o) => [o]
    | _, _ => []
    end /\
  (label_outcome s c h = Exn ->
   actor_resolutions r h' = actor_resolutions r h).
Proof.
  intros Hc Hfresh. cbn zeta.
  cbn [getHtml getHtml_inline getCachedObjects getCachedObjects_inline].
  unfold deferred_fresh, unstarted in Hfresh.
  destruct (m_actor c) as [a|resolver] eqn:Ea; [by rewrite andb_false_r in Hfresh|].
  destruct (m_cachedObject c) eqn:Eo; [by rewrite andb_false_r in Hfresh|].
  rewrite andb_true_r in Hfresh. apply andb_prop in Hfresh as [Hl Hp].
  apply bool_decide_eq_true in Hl, Hp.
  split.
  - destruct (mention_gen_after s r c h mention_html Hc)
      as (c' & Hc' & _ & _ & _ & _ & _ & Hcache).
    cbn zeta in *.
    unfold mention_cached. rewrite Hc', (Hcache Hp), Ea, Eo.
    destruct (label_outcome s c h); [|done].
    by destruct (actor_outcome s c h) as [[o|]|].
  - intros Hexn.
    destruct (mention_gen_after s r c h mention_html Hc)
      as (c' & _ & _ & _ & [_ Hn] & _).
    cbn zeta in Hn. rewrite Hexn in Hn. cbn [calls_made] in Hn. lia.
Qed.

Lemma mention_caches_lookup_witness :
  getCachedObjects (InlineNode deferred_mention.2)
    (run (getHtml (platform := sample_platform) finding_session
                  (InlineNode deferred_mention.2)) deferred_mention.1).1
  = [ActorObject alice].
Proof.
  destruct (mention_caches_lookup (platform := sample_platform)
              finding_session 0
              (mkMention (inr (async (handle_of (inr alice_url))))
                 (inr (async (self_or_lookup (is_bot_url (Some alice_url))
                                             (href alice_url))))
                 None None None 0 0)
              deferred_mention.1 eq_refl eq_refl) as [H _].
  exact H.
Defined.
(** ** mentions *)

Lemma for_await_some_run {Y} (test : Y -> bool) g h :
  (for_await_some test g h).2
  = if existsb test (run g h).2.1 then Val true
    else match (run g h).2.2 with
         | Val _ => Val false
         | Exn => Exn
         end.
Proof.
  revert h. induction g as [| |y g IH|f c IH|p c IH|p c IH]; intros h; simpl;
    try done.
  - destruct (test y); simpl; [done|]. apply IH.
  - destruct (labelPromises (settle_label p h) !! p); [apply IH|done].
  - destruct (actorPromises (settle_actor p h) !! p); [apply IH|done].
Qed.

Lemma new_MentionText_cell label actor h :
  mentionCells (new_MentionText label actor h).1
    !! length (mentionCells h)
  = Some (mkMention label actor
            match actor with
            | inl a => Some (ActorObject a)
            | inr _ => None
            end None None 0 0).
Proof. simpl. by apply list_lookup_middle. Qed.

(** X11 (mentions on mention(actor)): for the node mention(actor) built from
    an actor object, mentions answers for a URL whether it is the id of that
    actor, and for the actor itself true when it has an id; but it throws
    when the handle of the actor cannot be determined, since getTags awaits
    the label first; an actor without id is never reported as mentioned. *)
Theorem mentions_of_mention {platform : Platform} (s : Session) (a : Actor)
    (u : URL) (h : Heap) :
  let built := mention (inl a) h in
  (mentions s (InlineNode built.2) (inr u) built.1).2
  = match handle_of (inl a) s with
    | Exn => Exn
    | Val _ =>
        Val match actor_id a with
            | Some id => String.eqb (href id) (href u)
            | None => false
            end
    end /\
  (mentions s (InlineNode built.2) (inl a) built.1).2
  = match actor_id a with
    | None => Val false
    | Some _ =>
        match handle_of (inl a) s with
        | Exn => Exn
        | Val _ => Val true
        end
    end.
Proof.
  cbn zeta.
  assert (H : forall target,
    (for_await_some (mentions_url target)
       (getTags s (InlineNode (mention (inl a) h).2)) (mention (inl a) h).1).2
    = match handle_of (inl a) s with
      | Exn => Exn
      | Val _ =>
          Val match actor_id a with
              | Some id => String.eqb (href id) (href target)
              | None => false
              end
      end).
  { intros target. rewrite for_await_some_run.
    unfold mention. cbn [getTags getTags_inline new_MentionText snd].
    pose proof (new_MentionText_cell (inr (async (handle_of (inl a))))
                  (inl a) h) as Hc.
    cbn [new_MentionText fst] in Hc.
    pose proof (run_mention_result s _ _ _ mention_tags Hc) as Hrun.
    cbn [new_MentionText fst]. rewrite Hrun.
    unfold label_outcome, actor_outcome, async.
    cbn [m_label m_labelPromise m_actor].
    destruct (handle_of (inl a) s) as [label|]; [|done].
    cbn [mention_result mention_tags isActor existsb mentions_url fst snd].
    destruct (actor_id a) as [id|]; cbn [mentions_url]; [|done].
    rewrite orb_false_r. by destruct (String.eqb (href id) (href target)). }
  split.
  - unfold mentions. apply H.
  - unfold mentions. destruct (actor_id a) as [id|] eqn:Eid; [|done].
    rewrite H, String.eqb_refl. done.
Qed.
(** ** mentions: leaving at the first match *)

Lemma for_await_some_andThen {Y} (test : Y -> bool) (g k : Gen Y) h :
  existsb test (run g h).2.1 = true ->
  for_await_some test (andThen g k) h = for_await_some test g h.
Proof.
  revert h. induction g as [| |y g IH|f c IH|p c IH|p c IH]; intros h; simpl;
    try done.
  - destruct (test y); simpl; [done|]. apply IH.
  - apply IH.
  - destruct (labelPromises (settle_label p h) !! p); [apply IH|done].
  - destruct (actorPromises (settle_actor p h) !! p); [apply IH|done].
Qed.

(** X12 (mentions leaves at the first match): when the first child of a
    template already mentions the actor, mentions on the template answers
    true in the heap that child alone leaves: the children after it are never
    asked for their tags, so none of their lookups is made. *)
Theorem mentions_stops_at_match {platform : Platform} (s : Session)
    (strings : list string) (v : Text) (values : list Text)
    (actor : Actor + URL) (h : Heap) :
  (mentions s v actor h).2 = Val true ->
  mentions s (TemplatedText strings (v :: values)) actor h
  = mentions s v actor h.
Proof.
  unfold mentions. intros Hfound.
  assert (H : forall target,
    (for_await_some (mentions_url target) (getTags s v) h).2 = Val true ->
    for_await_some (mentions_url target)
      (getTags s (TemplatedText strings (v :: values))) h
    = for_await_some (mentions_url target) (getTags s v) h).
  { intros target Ht. apply for_await_some_true in Ht.
    cbn [getTags map chain suspend for_await_some]. unfold id.
    by apply for_await_some_andThen. }
  destruct actor as [a|u]; [|by apply H].
  destruct (actor_id a) as [id|]; [by apply H|done].
Qed.

Lemma mentions_stops_at_match_witness :
  let built := mention (inl alice) empty_heap in
  let later := mention (inr alice_url) built.1 in
  let r := mentions (platform := sample_platform) failing_session
             (TemplatedText ["Hi, "; " and "; "!"]
                            [InlineNode built.2; InlineNode later.2])
             (inl alice) later.1 in
  r.2 = Val true /\ actor_resolutions 1 r.1 = 0 /\ label_resolutions 1 r.1 = 0.
Proof.
  cbn zeta. rewrite mentions_stops_at_match; [|reflexivity].
  split; [reflexivity|]. split; reflexivity.
Defined.

(** ** MarkdownText: resolving the handles *)

Lemma run_getMentionedActors_fresh {Y} s r c mentions
    (K : res (list (string * Object)) -> Gen Y) h :
  md_mentions c = Some mentions -> md_actors c = None ->
  run (getMentionedActors s r c K) h
  = match getDocumentLoader s, lookup_all s mentions with
    | Val _, Val objects =>
        run (K (Val (build_actors mentions objects [])))
            (store_actors r (build_actors mentions objects []) h)
    | _, _ => run (K Exn) h
    end.
Proof.
  intros Hm Ha. unfold getMentionedActors. rewrite Hm, Ha.
  cbn [suspend run]. unfold id.
  destruct (getDocumentLoader s); [|done]. cbn [run].
  destruct (lookup_all s mentions); done.
Qed.

Lemma run_getMentionedActors_memo {Y} s r c mentions actors
    (K : res (list (string * Object)) -> Gen Y) h :
  md_mentions c = Some mentions -> md_actors c = Some actors ->
  run (getMentionedActors s r c K) h = run (K (Val actors)) h.
Proof.
  intros Hm Ha. unfold getMentionedActors. by rewrite Hm, Ha.
Qed.

Lemma run_markdown_hashtags {platform : Platform} s hashtags h :
  run (markdown_hashtags s hashtags) h = (h, hashtags_result s hashtags).
Proof.
  induction hashtags as [|x rest IH]; [done|].
  cbn [markdown_hashtags hashtags_result].
  destruct (hashtag_object s _); [|done]. cbn [run]. by rewrite IH.
Qed.

Lemma run_tags_of_actors {platform : Platform} s c actors h :
  run (yields (markdown_mentions actors)
         match md_hashtags c with
         | Some hashtags => markdown_hashtags s hashtags
         | None => Return
         end) h
  = (h, (markdown_mentions actors
         ++ (hashtags_result s (default [] (md_hashtags c))).1,
         (hashtags_result s (default [] (md_hashtags c))).2)).
Proof.
  rewrite run_yields.
  destruct (md_hashtags c) as [hashtags|]; simpl;
    [by rewrite run_markdown_hashtags|done].
Qed.

Lemma store_actors_cell r actors h c :
  markdownCells h !! r = Some c ->
  markdownCells (store_actors r actors h) !! r
  = Some (mkMarkdown (md_content c) (md_markdownIt c) (md_mentions c)
                     (md_hashtags c) (Some actors)).
Proof.
  intros Hc. unfold store_actors. rewrite Hc. simpl.
  apply list_lookup_insert_eq. eapply lookup_lt_Some; eauto.
Qed.

(** The first getTags on a markdown node with the mention plugin. *)
Lemma run_markdown_tags_fresh {platform : Platform} s r c mentions h :
  markdownCells h !! r = Some c ->
  md_mentions c = Some mentions -> md_actors c = None ->
  run (getTags s (MarkdownText r)) h
  = match getDocumentLoader s, lookup_all s mentions with
    | Val _, Val objects =>
        let actors := build_actors mentions objects [] in
        (store_actors r actors h,
         (markdown_mentions actors
          ++ (hashtags_result s (default [] (md_hashtags c))).1,
          (hashtags_result s (default [] (md_hashtags c))).2))
    | _, _ => (h, ([], Exn))
    end.
Proof.
  intros Hc Hm Ha. cbn [getTags]. unfold markdown_tags. cbn [run].
  unfold id. rewrite Hc, Hm.
  rewrite (run_getMentionedActors_fresh _ _ _ mentions) by done.
  destruct (getDocumentLoader s); [|done].
  destruct (lookup_all s mentions); [|done].
  apply run_tags_of_actors.
Qed.

(** Any later getTags. *)
Lemma run_markdown_tags_memo {platform : Platform} s r c mentions actors h :
  markdownCells h !! r = Some c ->
  md_mentions c = Some mentions -> md_actors c = Some actors ->
  run (getTags s (MarkdownText r)) h
  = (h, (markdown_mentions actors
         ++ (hashtags_result s (default [] (md_hashtags c))).1,
         (hashtags_result s (default [] (md_hashtags c))).2)).
Proof.
  intros Hc Hm Ha. cbn [getTags]. unfold markdown_tags. cbn [run].
  unfold id. rewrite Hc, Hm.
  rewrite (run_getMentionedActors_memo _ _ _ mentions actors) by done.
  apply run_tags_of_actors.
Qed.

Lemma run_markdown_html_heap {platform : Platform} s r c mentions h :
  markdownCells h !! r = Some c ->
  md_mentions c = Some mentions -> md_actors c = None ->
  match getDocumentLoader s, lookup_all s mentions with
  | Val _, Val objects =>
      (run (getHtml s (MarkdownText r)) h).1
      = store_actors r (build_actors mentions objects []) h
  | _, _ => run (getHtml s (MarkdownText r)) h = (h, ([], Exn))
  end.
Proof.
  intros Hc Hm Ha. cbn [getHtml]. unfold markdown_html. cbn [run].
  unfold id. rewrite Hc, Hm.
  rewrite (run_getMentionedActors_fresh _ _ _ mentions) by done.
  destruct (getDocumentLoader s); [|done].
  destruct (lookup_all s mentions); [|done].
  unfold render_chunk. by destruct (md_render _ _ _) as [[html env]|].
Qed.

(** X13 (MarkdownText, resolution is stored on success only): on a
    markdown node with the mention plugin that has not resolved its handles,
    getHtml resolves them; when the document loader and every lookup succeed,
    the record of actors is stored in the node, and getTags afterwards,
    with whatever session, yields the mentions of that record without any
    lookup (the hashtags follow the origin of the session at hand); when the
    loader or one lookup throws, getHtml throws, yields nothing and leaves the
    heap as it was, so that the next call looks the handles up again. *)
Theorem markdown_resolution_stored {platform : Platform} (s : Session)
    (r : nat) (c : MarkdownCell) (mentions : list string) (h : Heap) :
  markdownCells h !! r = Some c ->
  md_mentions c = Some mentions ->
  md_actors c = None ->
  let first := run (getHtml s (MarkdownText r)) h in
  match getDocumentLoader s, lookup_all s mentions with
  | Val _, Val objects =>
      let actors := build_actors mentions objects [] in
      first.1 = store_actors r actors h /\
      getCachedObjects (MarkdownText r) first.1 = snd <$> actors /\
      forall s',
        run (getTags s' (MarkdownText r)) first.1
        = (first.1,
           (markdown_mentions actors
            ++ (hashtags_result s' (default [] (md_hashtags c))).1,
            (hashtags_result s' (default [] (md_hashtags c))).2))
  | _, _ => first = (h, ([], Exn))
  end.
Proof.
  intros Hc Hm Ha. cbn zeta.
  pose proof (run_markdown_html_heap s r c mentions h Hc Hm Ha) as H.
  destruct (getDocumentLoader s); [|done].
  destruct (lookup_all s mentions) as [objects|]; [|done].
  rewrite H. split; [done|].
  pose proof (store_actors_cell r (build_actors mentions objects []) h c Hc)
    as Hc'.
  split.
  - cbn [getCachedObjects]. unfold markdown_cached. by rewrite Hc'.
  - intros s'.
    by rewrite (run_markdown_tags_memo s' r _ mentions _ _ Hc' Hm eq_refl).
Qed.
Lemma markdown_resolution_stored_witness :
  let built := new_MarkdownText (platform := sample_platform)
                 ("@alice@remote.example" +:+ Js.str1 Js.LF +:+ "#BotKit")
                 (mkOptions None None None) empty_heap in
  let first := run (getHtml (platform := sample_platform) finding_session
                            (MarkdownText 0)) built.1 in
  getCachedObjects (MarkdownText 0) first.1
  = [ActorObject alice] /\
  run (getHtml (platform := sample_platform) failing_session
               (MarkdownText 0)) built.1
  = (built.1, ([], Exn)).
Proof.
  cbn zeta. split.
  - edestruct (markdown_resolution_stored (platform := sample_platform)
                 finding_session 0 _ _
                 (new_MarkdownText (platform := sample_platform)
                    ("@alice@remote.example" +:+ Js.str1 Js.LF +:+ "#BotKit")
                    (mkOptions None None None) empty_heap).1
                 eq_refl eq_refl eq_refl) as (_ & H & _).
    exact H.
  - exact (markdown_resolution_stored (platform := sample_platform)
             failing_session 0 _ _
             (new_MarkdownText (platform := sample_platform)
                ("@alice@remote.example" +:+ Js.str1 Js.LF +:+ "#BotKit")
                (mkOptions None None None) empty_heap).1
             eq_refl eq_refl eq_refl).
Defined.

(** ** MarkdownText: the mentions it yields *)

Lemma assoc_set_keys {V} k (v : V) l x :
  In x (map fst (assoc_set k v l)) <-> x = k \/ In x (map fst l).
Proof.
  induction l as [|[k' v'] rest IH]; simpl; [intuition congruence|].
  destruct (String.eqb k k') eqn:E; simpl.
  - apply String.eqb_eq in E. subst k'. intuition congruence.
  - rewrite IH. intuition congruence.
Qed.

Lemma assoc_set_NoDup {V} k (v : V) l :
  List.NoDup (map fst l) -> List.NoDup (map fst (assoc_set k v l)).
Proof.
  induction l as [|[k' v'] rest IH]; simpl; intros Hnd.
  - constructor; [by intros []|constructor].
  - inversion Hnd as [|? ? Hnotin Hrest]; subst.
    destruct (String.eqb k k') eqn:E; simpl.
    + apply String.eqb_eq in E. subst k'. by constructor.
    + constructor; [|by apply IH].
      rewrite assoc_set_keys. intros [->|Hin]; [|done].
      by rewrite String.eqb_refl in E.
Qed.

Lemma build_actors_NoDup mentions objects actors :
  List.NoDup (map fst actors) ->
  List.NoDup (map fst (build_actors mentions objects actors)).
Proof.
  revert objects actors.
  induction mentions as [|m ms IH]; intros [|o os] actors Hnd; simpl;
    try done.
  apply IH. destruct o; [by apply assoc_set_NoDup|done].
Qed.

Lemma build_actors_keys mentions objects actors x :
  In x (map fst (build_actors mentions objects actors)) ->
  In x mentions \/ In x (map fst actors).
Proof.
  revert objects actors.
  induction mentions as [|m ms IH]; intros [|o os] actors Hin; simpl in *;
    try (by right).
  apply IH in Hin as [Hin|Hin]; [by left; right|].
  destruct o; [|by right].
  apply assoc_set_keys in Hin as [->|Hin]; [by left; left|by right].
Qed.

Lemma markdown_mentions_In actors name href :
  In (Mention name href) (markdown_mentions actors) ->
  href <> None /\ In name (map fst actors).
Proof.
  unfold markdown_mentions.
  induction actors as [|[k o] rest IH]; simpl; [done|].
  destruct o as [a|id]; simpl.
  - destruct (actor_id a) as [id|]; simpl.
    + intros [[= <- <-]|Hin]; [by split; [|left]|].
      destruct (IH Hin). by split; [|right].
    + intros Hin. destruct (IH Hin). by split; [|right].
  - intros Hin. destruct (IH Hin). by split; [|right].
Qed.

Lemma markdown_mentions_names actors x :
  In x (omap mention_name (markdown_mentions actors)) ->
  In x (map fst actors).
Proof.
  unfold markdown_mentions.
  induction actors as [|[k o] rest IH]; simpl; [done|].
  destruct o as [a|id]; simpl; [|by right; apply IH].
  destruct (actor_id a) as [id|]; simpl; [|by right; apply IH].
  intros [<-|Hin]; [by left|by right; apply IH].
Qed.

Lemma markdown_mentions_NoDup actors :
  List.NoDup (map fst actors) ->
  List.NoDup (omap mention_name (markdown_mentions actors)).
Proof.
  unfold markdown_mentions.
  induction actors as [|[k o] rest IH]; simpl; intros Hnd; [constructor|].
  inversion Hnd as [|? ? Hnotin Hrest]; subst.
  destruct o as [a|id]; simpl; [|by apply IH].
  destruct (actor_id a) as [id|]; simpl; [|by apply IH].
  constructor; [|by apply IH].
  intros Hin. apply Hnotin. by apply markdown_mentions_names.
Qed.

Lemma hashtags_result_tags {platform : Platform} s hashtags t :
  In t (hashtags_result s hashtags).1 -> mention_name t = None.
Proof.
  induction hashtags as [|x rest IH]; simpl; [done|].
  unfold hashtag_object.
  destruct (URL_resolve _ _) as [u|]; simpl; [|done].
  intros [<-|Hin]; [done|by apply IH].
Qed.

Lemma omap_none {A B} (f : A -> option B) l :
  (forall x, In x l -> f x = None) -> omap f l = [].
Proof.
  induction l as [|x rest IH]; intros H; [done|]. simpl.
  rewrite (H x) by (by left). apply IH. intros y Hy. apply H. by right.
Qed.

(** X14 (MarkdownText.getTags, the mentions): the first getTags on a
    markdown node that returns yields no two Mention tags with the same name,
    however often a handle occurs in the source, every Mention it yields
    has an href, and its name is one of the handles the constructor found. *)
Theorem markdown_mentions_distinct {platform : Platform} (s : Session)
    (r : nat) (c : MarkdownCell) (h : Heap) (tags : list Tag) :
  markdownCells h !! r = Some c ->
  md_actors c = None ->
  (run (getTags s (MarkdownText r)) h).2 = (tags, Val tt) ->
  List.NoDup (omap mention_name tags) /\
  forall name href,
    In (Mention name href) tags ->
    href <> None /\ In name (default [] (md_mentions c)).
Proof.
  intros Hc Ha Hrun.
  destruct (md_mentions c) as [mentions|] eqn:Hm.
  - rewrite (run_markdown_tags_fresh s r c mentions h Hc Hm Ha) in Hrun.
    destruct (getDocumentLoader s); [|done].
    destruct (lookup_all s mentions) as [objects|]; [|done].
    cbn zeta in Hrun. cbn [snd] in Hrun. injection Hrun as <- Hend.
    pose proof (build_actors_NoDup mentions objects [] ltac:(constructor))
      as Hnd.
    split.
    + rewrite omap_app.
      rewrite (omap_none mention_name (hashtags_result s _).1)
        by apply hashtags_result_tags.
      rewrite app_nil_r. by apply markdown_mentions_NoDup.
    + intros name href Hin. apply in_app_or in Hin as [Hin|Hin].
      * apply markdown_mentions_In in Hin as [Hhref Hin]. split; [done|].
        apply build_actors_keys in Hin as [Hin|[]]. done.
      * by apply hashtags_result_tags in Hin.
  - cbn [getTags] in Hrun. unfold markdown_tags in Hrun. cbn [run] in Hrun.
    unfold id in Hrun. rewrite Hc, Hm in Hrun. cbn [run snd] in Hrun.
    injection Hrun as <-. split; [constructor|done].
Qed.

Lemma markdown_mentions_distinct_witness :
  let built := new_MarkdownText (platform := sample_platform)
                 ("@alice@remote.example" +:+ Js.str1 Js.LF
                  +:+ "@alice@remote.example")
                 (mkOptions None None None) empty_heap in
  List.NoDup (omap mention_name
                [Mention "@alice@remote.example" (Some alice_url)]).
Proof.
  cbn zeta.
  refine (proj1 (markdown_mentions_distinct (platform := sample_platform)
            finding_session 0 _
            (new_MarkdownText (platform := sample_platform)
               ("@alice@remote.example" +:+ Js.str1 Js.LF
                +:+ "@alice@remote.example")
               (mkOptions None None None) empty_heap).1
            [Mention "@alice@remote.example" (Some alice_url)]
            eq_refl eq_refl eq_refl)).
Defined.
(** ** TemplatedText: what a new template has cached *)

Lemma cached_frame_inline n t h h' :
  refs_below_inline n t = true ->
  (forall r, r < n -> mentionCells h' !! r = mentionCells h !! r) ->
  getCachedObjects_inline t h' = getCachedObjects_inline t h.
Proof.
  intros Hb Hsame. induction t; simpl in *; try done; try (by apply IHt).
  unfold mention_cached. rewrite Hsame; [done|]. by apply Nat.ltb_lt.
Qed.

Lemma cached_frame n t h h' :
  refs_below n t = true ->
  (forall r, r < n -> mentionCells h' !! r = mentionCells h !! r) ->
  markdownCells h' = markdownCells h ->
  getCachedObjects t h' = getCachedObjects t h.
Proof.
  intros Hb Hsame Hmd. induction t as [i|strings values IH|r] using Text_tree_ind.
  - by apply (cached_frame_inline n).
  - cbn [getCachedObjects refs_below] in *. f_equal.
    induction values as [|v vs IHvs]; [done|].
    cbn [forallb map] in *. apply andb_prop in Hb as [Hv Hvs].
    inversion IH as [|? ? Hhead Htail]; subst.
    rewrite (Hhead Hv). f_equal. by apply IHvs.
  - cbn [getCachedObjects]. unfold markdown_cached. by rewrite Hmd.
Qed.

Lemma refs_below_inline_mono n m t :
  n <= m -> refs_below_inline n t = true -> refs_below_inline m t = true.
Proof.
  intros Hle. induction t; simpl; try done.
  rewrite !Nat.ltb_lt. lia.
Qed.

Lemma refs_below_mono n m t :
  n <= m -> refs_below n t = true -> refs_below m t = true.
Proof.
  intros Hle. induction t as [i|strings values IH|r] using Text_tree_ind;
    cbn [refs_below]; [by apply refs_below_inline_mono| |done].
  induction values as [|v vs IHvs]; [done|].
  cbn [forallb]. inversion IH as [|? ? Hhead Htail]; subst.
  intros [Hv Hvs]%andb_prop. rewrite (Hhead Hv). by apply IHvs.
Qed.

(** Coercing a value only ever appends mention nodes. *)
Lemma coerce_appends v h :
  exists extra,
    mentionCells (coerce v h).1 = mentionCells h ++ extra /\
    markdownCells (coerce v h).1 = markdownCells h.
Proof.
  destruct v; simpl; try (exists []; by rewrite app_nil_r).
  by eexists.
Qed.

Lemma coerce_all_appends vs h :
  exists extra,
    mentionCells (coerce_all vs h).1 = mentionCells h ++ extra /\
    markdownCells (coerce_all vs h).1 = markdownCells h.
Proof.
  revert h. induction vs as [|v vs IH]; intros h.
  - exists []. by rewrite app_nil_r.
  - cbn [coerce_all]. cbn zeta. cbn [fst].
    destruct (coerce_appends v h) as (e1 & H1 & H1').
    destruct (IH (coerce v h).1) as (e2 & H2 & H2').
    exists (e1 ++ e2). rewrite H2, H1, H2', H1'. by rewrite app_assoc.
Qed.

Lemma coerce_cached v h :
  value_within h v = true ->
  refs_below (length (mentionCells (coerce v h).1)) (coerce v h).2 = true /\
  getCachedObjects (coerce v h).2 (coerce v h).1 = cached_of_value h v.
Proof.
  destruct v as [t|u|a|e|str]; simpl; try done.
  intros _. split.
  - rewrite length_app. simpl. apply Nat.ltb_lt. lia.
  - unfold mention_cached. simpl. by rewrite list_lookup_middle.
Qed.

(** X15 (TemplatedText constructor and getCachedObjects): a template just
    built has cached, in the order of the interpolated values, what each text
    tree among them had cached and each interpolated actor object itself;
    interpolated URLs, emojis and other values add nothing.  The text trees
    are supposed to refer to nodes that exist when the template is built. *)
Theorem template_caches_actors (strings : list string) (values : list Value)
    (h : Heap) :
  forallb (value_within h) values = true ->
  let built := new_TemplatedText strings values h in
  getCachedObjects built.2 built.1 = concat (map (cached_of_value h) values).
Proof.
  intros Hin. cbn zeta. unfold new_TemplatedText. cbn zeta.
  cbn [fst snd getCachedObjects]. f_equal.
  assert (H : forall h0 extra,
    mentionCells h = mentionCells h0 ++ extra ->
    markdownCells h = markdownCells h0 ->
    forallb (value_within h0) values = true ->
    map (fun v => getCachedObjects v (coerce_all values h).1)
        (coerce_all values h).2
    = map (cached_of_value h0) values).
  2:{ apply (H h []); [by rewrite app_nil_r|done|done]. }
  clear Hin. revert h.
  induction values as [|v vs IH]; intros h h0 extra Hcells Hmd Hin; [done|].
  cbn [forallb] in Hin. apply andb_prop in Hin as [Hv Hvs].
  cbn [coerce_all]. cbn zeta. cbn [fst snd map].
  destruct (coerce_appends v h) as (e1 & H1 & H1').
  destruct (coerce_all_appends vs (coerce v h).1) as (e2 & H2 & H2').
  assert (Hv' : value_within h v = true).
  { destruct v; try done. simpl in *.
    apply (refs_below_mono (length (mentionCells h0))); [|done].
    rewrite Hcells, length_app. lia. }
  destruct (coerce_cached v h Hv') as [Hb Hc].
  f_equal.
  - rewrite (cached_frame (length (mentionCells (coerce v h).1)) _
               (coerce v h).1); [| exact Hb | | done].
    + rewrite Hc. destruct v; try done. simpl in Hv |- *.
      apply (cached_frame (length (mentionCells h0)) _ _ _ Hv); [|done].
      intros r Hr. rewrite Hcells. by rewrite lookup_app_l.
    + intros r Hr. rewrite H2. by rewrite lookup_app_l.
  - apply (IH (coerce v h).1 h0 (extra ++ e1)); [|by rewrite H1'|done].
    rewrite H1, Hcells. by rewrite app_assoc.
Qed.

Lemma template_caches_actors_witness :
  let built := new_TemplatedText ["Hi, "; " and "; "! See "; "."]
                 [VActor alice; VText (InlineNode (mention (inl bot_actor)
                                                      empty_heap).2);
                  VURL alice_url]
                 (mention (inl bot_actor) empty_heap).1 in
  getCachedObjects built.2 built.1 = [ActorObject alice; ActorObject bot_actor].
Proof.
  apply (template_caches_actors ["Hi, "; " and "; "! See "; "."]
           [VActor alice; VText (InlineNode (mention (inl bot_actor)
                                                empty_heap).2);
            VURL alice_url]
           (mention (inl bot_actor) empty_heap).1).
  reflexivity.
Defined.

(** ** Trees that resolve nothing *)

Lemma steady_Return {Y} : steady (Y := Y) Return [].
Proof. by intros h. Qed.

Lemma steady_yields {Y} (ys : list Y) k out :
  steady k out -> steady (yields ys k) (ys ++ out).
Proof. intros Hk h. by rewrite run_yields, Hk. Qed.

Lemma steady_suspend {Y} (g : Gen Y) out : steady g out -> steady (suspend g) out.
Proof. intros Hg h. cbn [suspend run]. apply Hg. Qed.

Lemma steady_andThen {Y} (g k : Gen Y) out1 out2 :
  steady g out1 -> steady k out2 -> steady (andThen g k) (out1 ++ out2).
Proof.
  intros Hg Hk h. rewrite run_andThen, !Hg. cbn [fst snd]. cbn zeta.
  by rewrite !Hk.
Qed.

Lemma steady_getHtml_inline s t :
  static_inline t = true -> exists out, steady (getHtml_inline s t) out.
Proof.
  induction t as [text|r|tag|t IH|t IH|label IH target|t IH|[e|deferred]];
    cbn [static_inline getHtml_inline]; intros Hs; try done.
  - eexists. apply steady_suspend, (steady_yields _ _ []), steady_Return.
  - destruct (IH Hs) as [out Hout]. eexists.
    apply steady_suspend, (steady_yields ["<strong>"]).
    apply (steady_andThen _ _ _ _ Hout (steady_yields ["</strong>"] _ [] steady_Return)).
  - destruct (IH Hs) as [out Hout]. eexists.
    apply steady_suspend, (steady_yields ["<em>"]).
    apply (steady_andThen _ _ _ _ Hout (steady_yields ["</em>"] _ [] steady_Return)).
  - destruct (IH Hs) as [out Hout]. eexists.
    apply steady_suspend, steady_yields.
    apply (steady_andThen _ _ _ _ Hout (steady_yields ["</a>"] _ [] steady_Return)).
  - destruct (IH Hs) as [out Hout]. eexists.
    apply steady_suspend, (steady_yields ["<code>"]).
    apply (steady_andThen _ _ _ _ Hout (steady_yields ["</code>"] _ [] steady_Return)).
  - unfold emoji_html. cbn [getEmoji].
    destruct (emoji_name e) as [name|]; eexists.
    + apply steady_suspend, (steady_yields _ _ []), steady_Return.
    + apply (steady_suspend Return), steady_Return.
Qed.

Lemma steady_templated_html strings values opened :
  Forall (fun v => exists out, steady v.2 out) values ->
  exists out, steady (templated_html strings values opened) out.
Proof.
  revert values opened.
  induction strings as [|str strings IH]; intros values opened Hv.
  - cbn [templated_html]. destruct opened; eexists.
    + apply (steady_yields ["</p>"] _ []), steady_Return.
    + apply steady_Return.
  - cbn [templated_html]. cbn zeta.
    destruct values as [|[ty html] values].
    + destruct (IH [] (render_literal str opened).2 Hv) as [out Hout].
      eexists. apply steady_yields, Hout.
    + inversion Hv as [|? ? [o1 Ho1] Hrest]; subst.
      destruct (IH values (before_value ty (render_literal str opened).2).2
                   Hrest) as [out Hout].
      eexists. apply steady_yields, steady_yields.
      apply (steady_andThen _ _ _ _ Ho1 Hout).
Qed.

Lemma steady_getHtml {platform : Platform} s t :
  static t = true -> exists out, steady (getHtml s t) out.
Proof.
  induction t as [i|strings values IH|r] using Text_tree_ind;
    cbn [static getHtml]; intros Hs; [by apply steady_getHtml_inline| |done].
  destruct (steady_templated_html strings
              (map (fun v => (type_of v, getHtml s v)) values) false)
    as [out Hout].
  - induction values as [|v vs IHvs]; [constructor|].
    cbn [forallb map] in *. apply andb_prop in Hs as [Hv Hvs].
    inversion IH as [|? ? Hhead Htail]; subst.
    constructor; [exact (Hhead Hv)|by apply IHvs].
  - exists out. by apply steady_suspend.
Qed.

Lemma static_nothing_cached_inline t h :
  static_inline t = true -> getCachedObjects_inline t h = [].
Proof. induction t; simpl; try done. Qed.

Lemma static_nothing_cached t h :
  static t = true -> getCachedObjects t h = [].
Proof.
  induction t as [i|strings values IH|r] using Text_tree_ind;
    cbn [static getCachedObjects]; intros Hs;
    [by apply static_nothing_cached_inline| |done].
  induction values as [|v vs IHvs]; [done|].
  cbn [forallb map concat] in *. apply andb_prop in Hs as [Hv Hvs].
  inversion IH as [|? ? Hhead Htail]; subst.
  rewrite (Hhead Hv). by apply IHvs.
Qed.


(** ** The cache of a mention node under overlapping callers *)

(** X17 (MentionText cache, append-only): start from nodes just built and
    let any number of getHtml and getTags generators on any trees, cache
    queries and settling promises interleave in any way.  Once
    getCachedObjects of a mention node has returned an object, it returns
    that same object after whatever happens next: a cached object is never
    dropped and never replaced. *)
Theorem cached_object_stays {platform : Platform} (h : Heap)
    (es1 es2 : list Event) (r : nat) (o : Object) :
  as_built h = true ->
  getCachedObjects (InlineNode (MentionText r)) (heap (exec es1 (start h)))
  = [o] ->
  getCachedObjects (InlineNode (MentionText r))
                   (heap (exec (es1 ++ es2) (start h)))
  = [o].
Proof.
  intros Hb Hcached. cbn [getCachedObjects getCachedObjects_inline] in *.
  rewrite mention_cached_holds in *. rewrite exec_app.
  set (w1 := exec es1 (start h)) in *.
  assert (HC : Cached (heap w1)).
  { apply (exec_keeps Cached prim_closed_Cached es1 (start h));
      [constructor|by apply Cached_as_built]. }
  assert (Ht : forall I, prim_closed I -> Forall (task_keeps I) (tasks w1)).
  { intros I HI. unfold w1.
    assert (G : forall es w, Forall (task_keeps I) (tasks w) ->
                  Forall (task_keeps I) (tasks (exec es w))).
    { induction es as [|e es IH]; intros w Hw; [done|].
      simpl. apply IH. by apply (step_tasks_keep I HI). }
    apply G. constructor. }
  destruct (exec_keeps _ (prim_closed_holds r o) es2 w1) as [_ [_ H]];
    [apply Ht, prim_closed_holds|by split|exact H].
Qed.

Lemma cached_object_stays_witness :
  getCachedObjects (InlineNode deferred_mention.2)
    (heap (exec (platform := sample_platform)
             (overlapping_calls
              ++ [SettleActor 0;
                  CallTags failing_session (InlineNode deferred_mention.2);
                  Resume 2; Resume 2; Resume 2; Resume 2])
             (start deferred_mention.1)))
  = [ActorObject alice].
Proof.
  apply (cached_object_stays (platform := sample_platform)
           deferred_mention.1 overlapping_calls); reflexivity.
Defined.
(** ** mention: the bot itself *)

(** X18 (mention of the bot itself): a mention of the bot by its own handle,
    or by its own actor URL, is resolved from the session alone: getTags
    yields the Mention of the actor session.getActor() returns, under the
    handle of the bot, whatever the document loader, the object lookup and the
    handle lookup of the session would do. *)
Theorem own_mention_resolves_locally {platform : Platform} (s : Session)
    (bot : Actor) (h : Heap) :
  getActor s = Val bot ->
  let by_handle := mention_handle (actorHandle s) h in
  let by_url := mention (inr (actorId s)) h in
  (run (getTags s (InlineNode by_handle.2)) by_handle.1).2
  = ([Mention (actorHandle s) (actor_id bot)], Val tt) /\
  (run (getTags s (InlineNode by_url.2)) by_url.1).2
  = ([Mention (actorHandle s) (actor_id bot)], Val tt).
Proof.
  intros Hbot. cbn zeta. unfold mention_handle, mention.
  cbn [getTags getTags_inline new_MentionText snd].
  split.
  - pose proof (new_MentionText_cell (inl (actorHandle s))
                  (inr (async (self_or_lookup
                          (fun s0 => String.eqb (actorHandle s0) (actorHandle s))
                          (actorHandle s)))) h) as Hc.
    cbn [new_MentionText fst] in Hc |- *.
    rewrite (run_mention_result s _ _ _ mention_tags Hc).
    unfold label_outcome, actor_outcome, async, self_or_lookup.
    cbn [m_label m_actor m_actorPromise].
    by rewrite String.eqb_refl, Hbot.
  - pose proof (new_MentionText_cell
                  (inr (async (handle_of (inr (actorId s)))))
                  (inr (async (self_or_lookup (is_bot_url (Some (actorId s)))
                                              (href (actorId s))))) h) as Hc.
    cbn [new_MentionText fst] in Hc |- *.
    rewrite (run_mention_result s _ _ _ mention_tags Hc).
    unfold label_outcome, actor_outcome, async, self_or_lookup, handle_of,
      is_bot_url.
    cbn [m_label m_actor m_actorPromise m_labelPromise].
    by rewrite String.eqb_refl, Hbot.
Qed.

Lemma own_mention_resolves_locally_witness :
  (run (getTags (platform := sample_platform) failing_session
          (InlineNode (mention_handle "@bot@bot.example" empty_heap).2))
       (mention_handle "@bot@bot.example" empty_heap).1).2
  = ([Mention "@bot@bot.example"
        (Some (mkURL "https://bot.example/ap/actor/bot"))], Val tt).
Proof.
  exact (proj1 (own_mention_resolves_locally (platform := sample_platform)
                  failing_session bot_actor empty_heap eq_refl)).
Defined.

(** ** Decorators and links *)

Lemma run_wrapped {Y} (opening : list Y) (closing : Y) (g : Gen Y) h :
  run (suspend (yields opening (andThen g (Yield closing Return)))) h
  = ((run g h).1,
     (opening ++ (run g h).2.1
      ++ match (run g h).2.2 with Val _ => [closing] | Exn => [] end,
      (run g h).2.2)).
Proof.
  cbn [suspend run]. unfold id. rewrite run_yields, run_andThen.
  destruct (run g h) as [h' [out [[]|]]]; cbn [fst snd run];
    [done|by rewrite app_nil_r].
Qed.

(** X19 (StrongText, EmText, CodeText and LinkText, getHtml): a decorator
    yields its opening markup, then what the child yields, in the heap the
    child leaves, and then its closing markup; when the child throws, the
    decorator throws after the chunks of the child, without the closing
    markup.  The opening markup of a link carries the escaped target. *)
Theorem decorator_wraps {platform : Platform} (s : Session) (t : Inline)
    (target : URL) (h : Heap) :
  let r := run (getHtml s (InlineNode t)) h in
  let wrapped (opening : list string) (closing : string) :=
    (r.1, (opening ++ r.2.1
           ++ match r.2.2 with Val _ => [closing] | Exn => [] end, r.2.2)) in
  run (getHtml s (InlineNode (StrongText t))) h
  = wrapped ["<strong>"] "</strong>" /\
  run (getHtml s (InlineNode (EmText t))) h = wrapped ["<em>"] "</em>" /\
  run (getHtml s (InlineNode (CodeText t))) h = wrapped ["<code>"] "</code>" /\
  run (getHtml s (InlineNode (LinkText t target))) h
  = wrapped ["<a href=" +:+ Js.dq; Js.encode (href target);
             Js.dq +:+ " target=" +:+ quoted "_blank" +:+ ">"] "</a>".
Proof.
  cbn zeta. cbn [getHtml getHtml_inline].
  repeat split.
  - apply (run_wrapped ["<strong>"]).
  - apply (run_wrapped ["<em>"]).
  - apply (run_wrapped ["<code>"]).
  - apply run_wrapped.
Qed.

(** ** MarkdownText: the HTML links whoever is tagged *)

Lemma run_markdown_html_memo {platform : Platform} s r c mentions actors h :
  markdownCells h !! r = Some c ->
  md_mentions c = Some mentions -> md_actors c = Some actors ->
  run (getHtml s (MarkdownText r)) h
  = run (render_chunk c (Some (mkEnv [] [] (origin s)
                                 (Some (project_actors actors))))) h.
Proof.
  intros Hc Hm Ha. cbn [getHtml]. unfold markdown_html. cbn [run].
  unfold id. rewrite Hc, Hm.
  by rewrite (run_getMentionedActors_memo _ _ _ mentions actors).
Qed.

Lemma actor_href_of_id a id :
  actor_id a = Some id -> exists url, actor_href a = Some url.
Proof.
  intros Hid. unfold actor_href. rewrite Hid.
  destruct (actor_url a) as [[u|l]|]; simpl; eauto.
  destruct (link_href l); simpl; eauto.
Qed.

Lemma tagged_is_linked actors name href :
  In (Mention name href) (markdown_mentions actors) ->
  exists url, In (name, url) (project_actors actors).
Proof.
  unfold markdown_mentions, project_actors.
  induction actors as [|[k o] rest IH]; simpl; [done|].
  destruct o as [a|id]; simpl.
  - destruct (actor_id a) as [id|] eqn:Eid; simpl.
    + destruct (actor_href_of_id a id Eid) as [url Hurl]. rewrite Hurl. simpl.
      intros [[= <- <-]|Hin]; [exists url; by left|].
      destruct (IH Hin) as [u Hu]. exists u. by right.
    + intros Hin. destruct (IH Hin) as [u Hu]. exists u.
      destruct (actor_href a); simpl; [by right|done].
  - exact IH.
Qed.

(** X20 (MarkdownText, getHtml and getTags agree): once the handles of a
    markdown node are resolved, getHtml hands the parser the origin of the
    session and the projection of the stored actors to URLs, and does nothing
    else; every handle for which getTags yields a Mention is in that
    projection, so whoever is tagged is also linked in the HTML. *)
Theorem markdown_tagged_is_linked {platform : Platform} (s : Session)
    (r : nat) (c : MarkdownCell) (mentions : list string)
    (actors : list (string * Object)) (h : Heap) :
  markdownCells h !! r = Some c ->
  md_mentions c = Some mentions ->
  md_actors c = Some actors ->
  run (getHtml s (MarkdownText r)) h
  = (h, match md_render (md_markdownIt c) (md_content c)
                (Some (mkEnv [] [] (origin s)
                         (Some (project_actors actors)))) with
        | Val (html, _) => ([html], Val tt)
        | Exn => ([], Exn)
        end) /\
  forall name href,
    In (Mention name href) (run (getTags s (MarkdownText r)) h).2.1 ->
    exists url, In (name, url) (project_actors actors).
Proof.
  intros Hc Hm Ha. split.
  - rewrite (run_markdown_html_memo s r c mentions actors h Hc Hm Ha).
    unfold render_chunk. by destruct (md_render _ _ _) as [[html env]|].
  - intros name href.
    rewrite (run_markdown_tags_memo s r c mentions actors h Hc Hm Ha).
    cbn [fst snd]. intros [Hin|Hin]%in_app_or.
    + by apply (tagged_is_linked actors name href).
    + by apply hashtags_result_tags in Hin.
Qed.

Lemma markdown_tagged_is_linked_witness :
  let built := new_MarkdownText (platform := sample_platform)
                 ("@alice@remote.example" +:+ Js.str1 Js.LF +:+ "#BotKit")
                 (mkOptions None None None) empty_heap in
  let h := (run (getTags (platform := sample_platform) finding_session
                         (MarkdownText 0)) built.1).1 in
  exists url,
    In ("@alice@remote.example", url)
       (project_actors [("@alice@remote.example", ActorObject alice)]).
Proof.
  cbn zeta.
  refine (proj2 (markdown_tagged_is_linked (platform := sample_platform)
            finding_session 0 _ _ _
            (run (getTags (platform := sample_platform) finding_session
                    (MarkdownText 0))
                 (new_MarkdownText (platform := sample_platform)
                    ("@alice@remote.example" +:+ Js.str1 Js.LF +:+ "#BotKit")
                    (mkOptions None None None) empty_heap).1).1
            eq_refl eq_refl eq_refl) "@alice@remote.example"
            (Some alice_url) _).
  vm_compute. by left.
Defined.

(** ** TemplatedText: paragraph markers *)

(** X21 (TemplatedText.getHtml, paragraph markers): when the markdown parser
    returns whole paragraphs and no hashtag interpolated into a template
    carries a piece of a paragraph marker in its tag, every render of the
    template that completes is a sequence of whole paragraphs: opening and
    closing markers alternate, starting with an opening and ending with a
    closing one, so they are equal in number and never nest. *)
Theorem marker_free_render_balanced {platform : Platform} (s : Session)
    (strings : list string) (values : list Text) (h : Heap) :
  (forall md content env html env',
     md_render md content env = Val (html, env') -> whole [html]) ->
  forallb marker_free values = true ->
  let r := run (getHtml s (TemplatedText strings values)) h in
  r.2.2 = Val tt ->
  balanced (join r.2.1) /\
  opens (markers (join r.2.1)) = closes (markers (join r.2.1)).
Proof.
  intros Hparser Hfree r Hdone.
  pose proof (getHtml_child_ok Hparser s (TemplatedText strings values) Hfree)
    as Hok.
  unfold child_ok in Hok. cbn [type_of fst snd] in Hok.
  destruct (Hok h Hdone) as (ms & Hscan & Hpar). fold r in Hscan.
  assert (Hm : markers (join r.2.1) = ms).
  { rewrite markers_scan, scan_join, Hscan. done. }
  unfold balanced. rewrite Hm. split; [exact Hpar|].
  pose proof (paragraphs_count _ _ _ Hpar) as Hcount. simpl in Hcount. lia.
Qed.

Lemma marker_free_render_balanced_witness :
  let r := run (getHtml (platform := sample_platform) sample_session
                        sample_template) sample_markdown.1 in
  r.2.2 = Val tt /\ balanced (join r.2.1) /\
  opens (markers (join r.2.1)) = closes (markers (join r.2.1)).
Proof.
  cbn zeta. split; [reflexivity|].
  apply (marker_free_render_balanced (platform := sample_platform)
           sample_session
           ["Hello, <";
            ">!" +:+ Js.str1 Js.LF +:+ Js.str1 Js.LF +:+ "Goodbye, ";
            EmptyString; EmptyString]
           [InlineNode (EmText (PlainText "World"));
            InlineNode (StrongText (new_HashtagText "Foo Bar"));
            MarkdownText 0]
           sample_markdown.1 sample_parser_whole eq_refl eq_refl).
Defined.

(** ** Literals written as chunks of several lines *)

(** Before a line feed, a line without line feed is a line end or starts
    none. *)
Lemma line_end_line l rest :
  no_lf l = true ->
  Js.line_end (l +:+ Js.str1 Js.LF +:+ rest)
  = if blankish l then Some (l +:+ Js.str1 Js.LF, rest) else None.
Proof.
  induction l as [|x l IH]; [reflexivity|].
  cbn [no_lf]. rewrite andb_true_iff, negb_true_iff. intros [Hx Hl].
  rewrite !append_cons. cbn [Js.line_end blankish]. rewrite Hx.
  destruct (Js.is_hws x).
  - rewrite (IH Hl). by destruct (blankish l).
  - destruct (Ascii.eqb x Js.CR) eqn:Ecr; [|done]. cbn [andb].
    apply Ascii.eqb_eq in Ecr. subst x.
    destruct l as [|y l']; [reflexivity|].
    cbn [no_lf] in Hl. rewrite andb_true_iff, negb_true_iff in Hl.
    destruct Hl as [Hy _]. rewrite append_cons, Hy. done.
Qed.

Lemma match_sep_line l rest :
  no_lf l = true -> Js.line_end rest = None ->
  Js.match_sep (l +:+ Js.str1 Js.LF +:+ rest) = None.
Proof.
  intros Hl Hrest. unfold Js.match_sep. rewrite line_end_line by done.
  destruct (blankish l); [by rewrite Hrest|done].
Qed.

(** A line and its line feed, followed by something that starts no line
    end, hold no boundary. *)
Lemma split_blank_line cur l rest :
  no_lf l = true -> Js.line_end rest = None ->
  Js.split_blank cur (l +:+ Js.str1 Js.LF +:+ rest)
  = Js.split_blank (cur +:+ l +:+ Js.str1 Js.LF) rest.
Proof.
  revert cur. induction l as [|x l IH]; intros cur Hl Hrest.
  - pose proof (match_sep_line EmptyString rest eq_refl Hrest) as Hm.
    rewrite append_nil in *. unfold Js.str1 in *. rewrite append_cons in *.
    rewrite append_nil in *. by rewrite (split_blank_nomatch _ _ _ Hm).
  - pose proof (match_sep_line _ rest Hl Hrest) as Hm.
    cbn [no_lf] in Hl. apply andb_prop in Hl as [_ Hl].
    rewrite !append_cons in *. rewrite (split_blank_nomatch _ _ _ Hm).
    rewrite (IH _ Hl Hrest). unfold Js.str1.
    by rewrite !append_assoc, !append_cons, !append_nil.
Qed.

Lemma lines_text_cons l l' rest :
  lines_text (l :: l' :: rest)
  = l +:+ Js.str1 Js.LF +:+ lines_text (l' :: rest).
Proof. reflexivity. Qed.

(** A chunk starts no line end, whatever follows. *)
Lemma line_end_chunk ls rest :
  chunk_lines ls = true -> Js.line_end (lines_text ls +:+ rest) = None.
Proof.
  destruct ls as [|l [|l' ls]]; [done| |].
  - apply line_end_one_line.
  - cbn [chunk_lines]. rewrite !andb_true_iff, negb_true_iff.
    intros [[Hl Hb] _]. rewrite lines_text_cons, !append_assoc.
    by rewrite line_end_line, Hb.
Qed.

Lemma split_blank_lines_end cur ls :
  chunk_lines ls = true ->
  Js.split_blank cur (lines_text ls) = [cur +:+ lines_text ls].
Proof.
  revert cur. induction ls as [|l ls IH]; intros cur; [done|].
  destruct ls as [|l' ls].
  - apply split_blank_chunk_end.
  - cbn [chunk_lines]. rewrite !andb_true_iff. intros [[Hl Hb] Hrest].
    rewrite lines_text_cons, split_blank_line; [|done|].
    + rewrite (IH _ Hrest). by rewrite !append_assoc.
    + pose proof (line_end_chunk (l' :: ls) EmptyString Hrest) as H.
      by rewrite append_nil_r in H.
Qed.

Lemma split_blank_lines cur ls b rest :
  chunk_lines ls = true -> boundary b -> Js.line_end rest = None ->
  exists cap,
    Js.split_blank cur (lines_text ls +:+ b +:+ rest)
    = (cur +:+ lines_text ls) :: cap :: Js.split_blank EmptyString rest.
Proof.
  intros Hls Hb Hrest. revert cur Hls.
  induction ls as [|l ls IH]; intros cur Hls; [done|].
  destruct ls as [|l' ls].
  - by apply split_blank_chunk.
  - cbn [chunk_lines] in Hls. rewrite !andb_true_iff in Hls.
    destruct Hls as [[Hl Hbl] Hls].
    destruct (IH (cur +:+ l +:+ Js.str1 Js.LF) Hls) as [cap Hcap].
    exists cap. rewrite lines_text_cons, !append_assoc.
    rewrite split_blank_line; [|done|by apply line_end_chunk].
    rewrite Hcap. by rewrite !append_assoc.
Qed.

(** A literal written as chunks of lines with boundaries between them is
    split into just these chunks. *)
Lemma chunks_of_lines c more :
  chunk_lines c = true ->
  Forall (fun e => boundary e.1 /\ chunk_lines e.2 = true) more ->
  chunks_of (assemble (lines_text c)
                      (map (fun e => (e.1, lines_text e.2)) more))
  = lines_text c :: map (fun e => lines_text e.2) more.
Proof.
  intros Hc Hmore. revert c Hc.
  induction Hmore as [|[sep c'] more [Hsep Hc'] _ IH]; intros c Hc.
  - unfold chunks_of, Js.split_paragraphs. simpl.
    rewrite split_blank_lines_end by done. done.
  - unfold chunks_of, Js.split_paragraphs in *. cbn [assemble map fst snd].
    destruct (assemble_starts (lines_text c')
                (map (fun e => (e.1, lines_text e.2)) more)) as [t Ht].
    assert (Hrest : Js.line_end
                      (assemble (lines_text c')
                         (map (fun e => (e.1, lines_text e.2)) more)) = None).
    { rewrite Ht. by apply line_end_chunk. }
    destruct (split_blank_lines EmptyString c sep _ Hc Hsep Hrest)
      as [cap ->].
    rewrite evens_cons2, append_nil. cbn [fst snd] in *. by rewrite IH.
Qed.

(** X22 (TemplatedText.getHtml, N chunks give N paragraphs): write a
    literal as N chunks with a blank-line boundary (two or more line ends,
    each of spaces and tabs, an optional carriage return and a line feed)
    between two of them, where a chunk is one or more lines, none of which
    but the last is empty or made of spaces and tabs with at most a
    carriage return, and the last of which does not end in a space, a tab or
    a carriage return.  When every chunk has a line that is not white
    space, the template of this literal alone renders, leaving the heap
    alone, exactly N opening and N closing paragraph markers, in pairs. *)
Theorem chunks_make_paragraphs {platform : Platform} (s : Session)
    (c : list string) (more : list (string * list string)) (h : Heap) :
  chunk_lines c = true ->
  Forall (fun e => boundary e.1 /\ chunk_lines e.2 = true) more ->
  forallb nonblank (lines_text c :: map (fun e => lines_text e.2) more)
  = true ->
  let literal := assemble (lines_text c)
                          (map (fun e => (e.1, lines_text e.2)) more) in
  let r := run (getHtml s (TemplatedText [literal] [])) h in
  r.1 = h /\ r.2.2 = Val tt /\ balanced (join r.2.1) /\
  opens (markers (join r.2.1)) = S (length more) /\
  closes (markers (join r.2.1)) = S (length more).
Proof.
  intros Hc Hmore Hnb. cbn zeta.
  destruct (single_literal_paragraphs s
              (assemble (lines_text c)
                        (map (fun e => (e.1, lines_text e.2)) more)) h)
    as (Hh & Hdone & Hbal & _ & _ & Hn).
  rewrite chunks_of_lines in Hn by done.
  destruct (Hn Hnb) as [Ho Hcl]. simpl in Ho, Hcl.
  rewrite length_map in Ho, Hcl. done.
Qed.

Lemma chunks_make_paragraphs_witness :
  let nl := Js.str1 Js.LF in
  let c := ["Dear all,"; "  the build is green again."] in
  let more := [(nl +:+ nl, ["Thanks"]);
               (" " +:+ nl +:+ nl +:+ nl, ["-- "; "the bot"])] in
  let literal := assemble (lines_text c)
                          (map (fun e => (e.1, lines_text e.2)) more) in
  let r := run (getHtml (platform := sample_platform) sample_session
                        (TemplatedText [literal] [])) empty_heap in
  opens (markers (join r.2.1)) = 3 /\ closes (markers (join r.2.1)) = 3.
Proof.
  intros nl c more literal r.
  assert (Hsep : Forall (fun e : string * list string =>
                           boundary e.1 /\ chunk_lines e.2 = true) more).
  { constructor; [split; [|reflexivity]|constructor; [split; [|reflexivity]|]].
    - apply (boundary_two nl nl); constructor.
    - apply (boundary_more (" " +:+ nl) (nl +:+ nl)).
      + apply line_end_hws; [reflexivity|constructor].
      + apply (boundary_two nl nl); constructor.
    - constructor. }
  destruct (chunks_make_paragraphs (platform := sample_platform)
              sample_session c more empty_heap eq_refl Hsep eq_refl)
    as (_ & _ & _ & Ho & Hcl).
  split; [exact Ho|exact Hcl].
Defined.
